(** * pychromVAR (GPU fork): bias-corrected deviations

    A shallow embedding of [src/pychromvar/compute_deviations.py] and the
    properties its specification states about it.

    The program is numpy / torch code over float32 arrays.  The embedding
    keeps the arithmetic abstract: every definition of the program is
    written over a carrier [num] with the operations the code uses (class
    [Arith]), so a structural property holds for any arithmetic, the
    machine's float32 included, as long as sums are taken in the order
    written here.  Where a property is about values (NaN, infinities,
    zeros), it is settled in the instance [xq]: exact rationals extended
    with the three special values of IEEE 754.  Where rounding matters,
    the arithmetic is [Rounded.arith rnd], which rounds the exact result
    of every operation with [rnd]; [F32.round] is the rounding of float32,
    overflow and gradual underflow included.

    numpy, scipy, torch and anndata are modelled by what their functions
    return on two-dimensional arrays, broadcasting and the exceptions for
    mismatched shapes included.  [np_dot] is the matrix product;
    [Blas.np_dot] adds what a BLAS build of numpy does with an operand of
    shape [(1, 1)].  The progress bars of tqdm are left out, and the
    accelerator path is the one of a machine that has the device. *)

From Stdlib Require Import String Bool Arith ZArith QArith Qreduction Qabs
  Qround Qpower Lia Lqa List.
Import ListNotations.
Local Close Scope Q_scope.
Local Open Scope nat_scope.

Set Implicit Arguments.

(** ** The arithmetic of the arrays *)

Class Arith (num : Type) := {
  zero : num;
  fadd : num -> num -> num;
  fsub : num -> num -> num;
  fmul : num -> num -> num;
  fdiv : num -> num -> num;
  fsqrt : num -> num;
  of_nat : nat -> num;
  (** [x == 0] *)
  eq0 : num -> bool;
  isnan : num -> bool;
  isposinf : num -> bool;
  isneginf : num -> bool;
  (** [np.finfo(np.float32).max] and [.min] *)
  max_finite : num;
  min_finite : num
}.

(** ** Exceptions, results and the trace of a run *)

Inductive exn :=
| TypeError (msg : string)
| AssertionError (msg : string)
| KeyError (key : string)
| ValueError
| IndexError
| RuntimeError
| ZeroDivisionError.

Inductive result (A : Type) :=
| Ok (a : A)
| Raise (e : exn).
Arguments Raise {A} e.

(** What a run does that can be observed from outside the arithmetic: the
    two [logging.info] calls, the call of [compute_expectation], and the
    slice assignments into the accumulators [obs_dev] and [bg_dev]. *)
Inductive event :=
| Log_info (msg : string)
| Expectation_computed
| Write_obs (start stop : nat)
| Write_bg (i start stop : nat).

(** A computation that may raise and leaves a trace; the trace of what ran
    before an exception is kept. *)
Definition traced (A : Type) : Type := list event * result A.

Class Monad (m : Type -> Type) := {
  ret : forall {A}, A -> m A;
  bind : forall {A B}, m A -> (A -> m B) -> m B
}.

#[export] Instance option_monad : Monad option := {
  ret := fun A a => Some a;
  bind := fun A B o k => match o with Some a => k a | None => None end
}.

#[export] Instance result_monad : Monad result := {
  ret := fun A a => Ok a;
  bind := fun A B r k => match r with Ok a => k a | Raise e => Raise e end
}.

#[export] Instance traced_monad : Monad traced := {
  ret := fun A a => ([], Ok a);
  bind := fun A B t k =>
    match t with
    | (l, Ok a) => let (l', r) := k a in (l ++ l', r)
    | (l, Raise e) => (l, Raise e)
    end
}.

Notation "x <- e ;; k" := (bind e (fun x => k))
  (at level 61, e at next level, right associativity).
Notation "' pat <- e ;; k" := (bind e (fun x => match x with pat => k end))
  (at level 61, pat pattern, e at next level, right associativity).
Notation "e ;;; k" := (bind e (fun _ => k))
  (at level 61, right associativity).

Definition tell (e : event) : traced unit := ([e], Ok tt).
Definition lift {A} (r : result A) : traced A := ([], r).
Definition raise {A} (e : exn) : traced A := ([], Raise e).

(** An operation of the array library fails with the exception of the
    library that runs it: numpy raises [ValueError], torch [RuntimeError]. *)
Definition or_raise {A} (e : exn) (o : option A) : result A :=
  match o with Some a => Ok a | None => Raise e end.

Fixpoint mapM {A B} (f : A -> option B) (l : list A) : option (list B) :=
  match l with
  | [] => Some []
  | a :: l' => b <- f a ;; bs <- mapM f l' ;; Some (b :: bs)
  end.

(** [for x in l: s = body(s, x)] *)
Fixpoint for_each {S B} (body : S -> B -> traced S) (l : list B) (s : S)
  : traced S :=
  match l with
  | [] => ret s
  | x :: l' => s' <- body s x ;; for_each body l' s'
  end.

(** ** Two-dimensional arrays

    An array has a shape even when it has no row, so the number of columns
    is kept beside the rows. *)

Record matrix (A : Type) := Mat { ncols : nat; rows : list (list A) }.

Definition nrows {A} (m : matrix A) : nat := length (rows m).

Definition wf_mat {A} (m : matrix A) : Prop :=
  Forall (fun r => length r = ncols m) (rows m).

Definition zip_with {A B C} (f : A -> B -> C) (la : list A) (lb : list B)
  : list C :=
  map (fun p => f (fst p) (snd p)) (combine la lb).

(** [m[start:stop]] on rows, with Python's clamping of the bounds. *)
Definition slice {A} (start stop : nat) (l : list A) : list A :=
  firstn (stop - start) (skipn start l).

Definition slice_rows {A} (start stop : nat) (m : matrix A) : matrix A :=
  Mat (ncols m) (slice start stop (rows m)).

(** Python's indexing of an axis of length [n]: a negative index counts
    from the end, anything outside [-n, n) is an [IndexError]. *)
Definition py_index (n : nat) (i : Z) : option nat :=
  if ((0 <=? i) && (i <? Z.of_nat n))%Z then Some (Z.to_nat i)
  else if ((- Z.of_nat n <=? i) && (i <? 0))%Z
       then Some (Z.to_nat (Z.of_nat n + i))
       else None.

(** [m[idx, :]] for an integer array [idx]. *)
Definition take_rows {A} (idx : list Z) (m : matrix A) : option (matrix A) :=
  rs <- mapM (fun i => k <- py_index (nrows m) i ;; nth_error (rows m) k) idx ;;
  Some (Mat (ncols m) rs).

(** [m[:, j]] *)
Definition column {A} (d : A) (j : nat) (rs : list (list A)) : list A :=
  map (fun r => nth j r d) rs.

(** Broadcasting: an axis of length 1 is repeated, any other length has to
    match. *)
Definition bdim (a b : nat) : option nat :=
  if a =? b then Some a
  else if a =? 1 then Some b
  else if b =? 1 then Some a
  else None.

Definition broadcast_to {A} (d : A) (r c : nat) (m : matrix A)
  : option (matrix A) :=
  if negb ((ncols m =? c) || (ncols m =? 1)) then None
  else if negb ((nrows m =? r) || (nrows m =? 1)) then None
  else
    let widen row := if ncols m =? c then row else repeat (hd d row) c in
    let rs := map widen (rows m) in
    Some (Mat c (if nrows m =? r then rs else repeat (hd [] rs) r)).

Definition elementwise {A B C} (da : A) (db : B) (f : A -> B -> C)
  (a : matrix A) (b : matrix B) : option (matrix C) :=
  r <- bdim (nrows a) (nrows b) ;;
  c <- bdim (ncols a) (ncols b) ;;
  a' <- broadcast_to da r c a ;;
  b' <- broadcast_to db r c b ;;
  Some (Mat c (zip_with (zip_with f) (rows a') (rows b'))).

Definition map_mat {A B} (f : A -> B) (m : matrix A) : matrix B :=
  Mat (ncols m) (map (map f) (rows m)).

(** [target[start:stop, :] = v], the value broadcast to the slice. *)
Definition assign_rows {A} (d : A) (start stop : nat) (v target : matrix A)
  : option (matrix A) :=
  let old := slice start stop (rows target) in
  v' <- broadcast_to d (length old) (ncols target) v ;;
  Some (Mat (ncols target)
          (firstn start (rows target) ++ rows v'
             ++ skipn (start + length old) (rows target))).

(** The count matrix is a dense array or a scipy sparse matrix; the entries
    are the same, the storage is what [sparse.issparse] tests. *)
Record count_matrix (num : Type) := Count {
  issparse : bool;
  todense : matrix num
}.

Section Model.

Context {num : Type} {AR : Arith num}.

Local Abbreviation mat := (matrix num).

Definition zeros (r c : nat) : mat := Mat c (repeat (repeat zero c) r).

(** *** Reductions *)

(** [l.sum()], summed from the left. *)
Definition np_sum (l : list num) : num := fold_left fadd l zero.

Definition np_mean (l : list num) : num :=
  fdiv (np_sum l) (of_nat (length l)).

(** The variance with [ddof] degrees of freedom taken away: the squared
    deviations from the mean, summed and divided by [max(N - ddof, 0)]. *)
Definition variance (ddof : nat) (l : list num) : num :=
  let m := np_mean l in
  fdiv (np_sum (map (fun x => let d := fsub x m in fmul d d) l))
       (of_nat (length l - ddof)).

(** [np.std(l)]: numpy's default is [ddof=0]. *)
Definition np_std (l : list num) : num := fsqrt (variance 0 l).

(** [torch.std(l)]: torch's default is [correction=1]. *)
Definition torch_std (l : list num) : num := fsqrt (variance 1 l).

(** A reduction over axis 0 of a stack [t] of arrays of shape [(r, c)]:
    entry [(i, j)] reduces [t[:, i, j]]. *)
Definition fibre (t : list mat) (i j : nat) : list num :=
  map (fun m => nth j (nth i (rows m) []) zero) t.

Definition reduce_axis0 (f : list num -> num) (r c : nat) (t : list mat)
  : mat :=
  Mat c (map (fun i => map (fun j => f (fibre t i j)) (seq 0 c)) (seq 0 r)).

(** *** Matrix product *)

Definition dot_vec (u v : list num) : num :=
  np_sum (zip_with fmul u v).

Definition matmul (a b : mat) : option mat :=
  if ncols a =? nrows b
  then Some (Mat (ncols b)
               (map (fun r => map (fun j => dot_vec r (column zero j (rows b)))
                                  (seq 0 (ncols b)))
                    (rows a)))
  else None.

(** [a.dot(b)] of numpy and scipy: the matrix product.  The shortcut of a
    BLAS build for an operand of shape [(1, 1)] is in [Blas.np_dot]. *)
Definition np_dot (a b : mat) : result mat := or_raise ValueError (matmul a b).

Definition torch_matmul (a b : mat) : result mat :=
  or_raise RuntimeError (matmul a b).

(** *** [np.nan_to_num(x, 0)]

    The second positional parameter of [nan_to_num] is [copy]; [nan] keeps
    its default 0.0 and [posinf], [neginf] theirs: the largest and the
    smallest finite value of the type. *)
Definition nan_to_num1 (x : num) : num :=
  if isnan x then zero
  else if isposinf x then max_finite
  else if isneginf x then min_finite
  else x.

Definition nan_to_num (m : mat) : mat := map_mat nan_to_num1 m.

(** *** [np.divide(x1, x2, out=out, where=mask)]

    Every operand is broadcast to the shape of [out]; an entry of [out] is
    overwritten with the quotient where the mask holds and keeps its value
    elsewhere. *)
Definition np_divide (x1 x2 : mat) (mask : matrix bool) (out : mat)
  : result mat :=
  or_raise ValueError
    (x1' <- broadcast_to zero (nrows out) (ncols out) x1 ;;
     x2' <- broadcast_to zero (nrows out) (ncols out) x2 ;;
     mask' <- broadcast_to false (nrows out) (ncols out) mask ;;
     Some (Mat (ncols out)
             (zip_with (zip_with (fun (mo : bool * num) q =>
                                    if fst mo then q else snd mo))
                (zip_with (zip_with pair) (rows mask') (rows out))
                (zip_with (zip_with fdiv) (rows x1') (rows x2'))))).

(** [torch.div(x1, x2, out=out)]: [out] takes the shape and the entries
    of the quotient. *)
Definition torch_div (x1 x2 out : mat) : result mat :=
  or_raise RuntimeError (elementwise zero zero fdiv x1 x2).

(** [out[mask] = v] for a boolean mask, which must have the shape of
    [out]. *)
Definition masked_assign (out : mat) (mask : matrix bool) (v : num)
  : result mat :=
  if (nrows mask =? nrows out) && (ncols mask =? ncols out)
  then Ok (Mat (ncols out)
             (zip_with (zip_with (fun (m : bool) o => if m then v else o))
                (rows mask) (rows out)))
  else Raise IndexError.

(** ** The program *)

(** [_compute_deviations], lines 98-110.  [motif_match] and the two
    expectations are dense arrays, so both products are dense and the two
    [sparse.issparse] tests of lines 104-107 are false. *)
Definition _compute_deviations
  (arguments : mat * count_matrix num * mat * mat) : result mat :=
  let '(motif_match, count, expectation_obs, expectation_var) := arguments in
  observed <- np_dot (todense count) motif_match ;;
  inner <- np_dot expectation_var motif_match ;;
  expected <- np_dot expectation_obs inner ;;
  let out := zeros (nrows expected) (ncols expected) in
  diff <- or_raise ValueError (elementwise zero zero fsub observed expected) ;;
  np_divide diff expected (map_mat (fun e => negb (eq0 e)) expected) out.

(** [_compute_deviations_gpu], lines 112-128. *)
Definition _compute_deviations_gpu (arguments : mat * mat * mat * mat)
  : result mat :=
  let '(motif_match, count, expectation_obs, expectation_var) := arguments in
  observed <- torch_matmul count motif_match ;;
  inner <- torch_matmul expectation_var motif_match ;;
  expected <- torch_matmul expectation_obs inner ;;
  let out := zeros (nrows expected) (ncols expected) in
  diff <- or_raise RuntimeError (elementwise zero zero fsub observed expected) ;;
  out <- torch_div diff expected out ;;
  masked_assign out (map_mat eq0 expected) zero.

(** [compute_expectation], lines 130-152: [a] is the row of column sums
    divided by its own sum, [b] the column of row sums.  Both branches
    return the same pair, on the device or on the host. *)
Definition compute_expectation (count : count_matrix num)
  (return_torch : bool) : mat * mat :=
  let c := todense count in
  let a := map (fun j => np_sum (column zero j (rows c))) (seq 0 (ncols c)) in
  let a := map (fun x => fdiv x (np_sum a)) a in
  let b := map (fun r => [np_sum r]) (rows c) in
  if return_torch then (Mat 1 b, Mat (ncols c) [a])
  else (Mat 1 b, Mat (ncols c) [a]).

(** The input container.  [varm] and [uns] are dictionaries of which the
    program reads the keys ['motif_match'], ['bg_peaks'] and
    ['motif_name']; a key that is absent is [None]. *)
Record AnnData := {
  X : count_matrix num;
  obs_names : list string;
  varm_motif_match : option mat;
  varm_bg_peaks : option (matrix Z);
  uns_motif_name : option (list string)
}.

Inductive pydata :=
| An (adata : AnnData)
| Mu (modalities : list (string * AnnData))
| Other.

Fixpoint lookup {V} (k : string) (d : list (string * V)) : option V :=
  match d with
  | [] => None
  | (k', v) :: d' => if String.eqb k k' then Some v else lookup k d'
  end.

Definition n_obs (adata : AnnData) : nat := nrows (todense (X adata)).

(** [adata.chunked_X(chunk_size)] of the anndata library: [n // chunk_size]
    chunks of [chunk_size] rows, then the rows that are left, if any. *)
Fixpoint full_chunks (count start chunk_size : nat)
  : list (nat * nat) * nat :=
  match count with
  | 0 => ([], start)
  | S count' =>
      let stop := start + chunk_size in
      let '(l, last) := full_chunks count' stop chunk_size in
      ((start, stop) :: l, last)
  end.

Definition chunk_ranges (n : nat) (chunk_size : Z)
  : result (list (nat * nat)) :=
  if (chunk_size =? 0)%Z then Raise ZeroDivisionError
  else
    let '(l, start) :=
      full_chunks (Z.to_nat (Z.of_nat n / chunk_size)) 0
        (Z.to_nat chunk_size) in
    Ok (l ++ if start <? n then [(start, n)] else []).

Definition slice_count (start stop : nat) (c : count_matrix num)
  : count_matrix num :=
  Count (issparse c) (slice_rows start stop (todense c)).

Definition chunked_X (adata : AnnData) (chunk_size : Z)
  : result (list (count_matrix num * nat * nat)) :=
  l <- chunk_ranges (n_obs adata) chunk_size ;;
  Ok (map (fun se => (slice_count (fst se) (snd se) (X adata), fst se, snd se))
        l).

(** [l[i] = x] *)
Definition list_set {A} (i : nat) (x : A) (l : list A) : list A :=
  firstn i l ++ x :: skipn (S i) l.

Definition shape_error (gpu : bool) : exn :=
  if gpu then RuntimeError else ValueError.

(** The deviation primitive of the chosen path, lines 62-68 and 71-78. *)
Definition deviations_of (gpu : bool) (motif_match : mat)
  (count : count_matrix num) (expectation_obs expectation_var : mat)
  : result mat :=
  if gpu
  then _compute_deviations_gpu
         (motif_match, todense count, expectation_obs, expectation_var)
  else _compute_deviations
         (motif_match, count, expectation_obs, expectation_var).

(** One turn of the inner loop, lines 70-78: the rows of the match matrix
    are replaced by those the [i]-th background sample names, and the
    deviation of the chunk is stored in [bg_dev[i, start:end, :]]. *)
Definition bg_iteration (gpu : bool) (motif_match : mat)
  (bg_peaks : matrix Z) (count : count_matrix num)
  (expectation_obs expectation_var : mat) (start stop : nat)
  (bg_dev : list mat) (i : nat) : traced (list mat) :=
  let bg_peak_idx := column 0%Z i (rows bg_peaks) in
  bg_motif_match <-
    lift (or_raise IndexError (take_rows bg_peak_idx motif_match)) ;;
  d <- lift (deviations_of gpu bg_motif_match count
               (slice_rows start stop expectation_obs) expectation_var) ;;
  target <- lift (or_raise IndexError (nth_error bg_dev i)) ;;
  target' <- lift (or_raise (shape_error gpu)
                     (assign_rows zero start stop d target)) ;;
  tell (Write_bg i start stop) ;;;
  ret (list_set i target' bg_dev).

(** One turn of the outer loop, lines 60-78. *)
Definition chunk_iteration (gpu : bool) (motif_match : mat)
  (bg_peaks : matrix Z) (expectation_obs expectation_var : mat)
  (n_bg_peaks : nat) (acc : mat * list mat)
  (item : count_matrix num * nat * nat) : traced (mat * list mat) :=
  let '(obs_dev, bg_dev) := acc in
  let '(X, start, stop) := item in
  let X := if gpu then (if issparse X then Count false (todense X) else X)
           else X in
  d <- lift (deviations_of gpu motif_match X
               (slice_rows start stop expectation_obs) expectation_var) ;;
  obs_dev <- lift (or_raise (shape_error gpu)
                     (assign_rows zero start stop d obs_dev)) ;;
  tell (Write_obs start stop) ;;;
  bg_dev <- for_each (bg_iteration gpu motif_match bg_peaks X
                        expectation_obs expectation_var start stop)
              (seq 0 n_bg_peaks) bg_dev ;;
  ret (obs_dev, bg_dev).

Definition type_error_msg : string :=
  "Expected AnnData or MuData object with 'atac' modality".

Definition bg_peaks_msg : string :=
  "Cannot find background peaks in the input object, please first run get_bg_peaks!".

(** The accumulators after the loops, lines 32-78: the input object is
    resolved and checked, the expectations are computed, [obs_dev] and
    [bg_dev] are allocated as zeros and filled chunk by chunk. *)
Definition accumulate (data : pydata) (chunk_size : Z) (gpu : bool)
  : traced (AnnData * list string * mat * list mat) :=
  adata <- match data with
           | An a => ret a
           | Mu modalities =>
               match lookup "atac" modalities with
               | Some a => ret a
               | None => raise (TypeError type_error_msg)
               end
           | Other => raise (TypeError type_error_msg)
           end ;;
  bg_peaks <- match varm_bg_peaks adata with
              | Some b => ret b
              | None => raise (AssertionError bg_peaks_msg)
              end ;;
  tell (Log_info "computing expectation reads per cell and peak...") ;;;
  tell Expectation_computed ;;;
  let '(expectation_obs, expectation_var) :=
    compute_expectation (X adata) gpu in
  tell (Log_info "computing observed + bg motif deviations...") ;;;
  let n_bg_peaks := ncols bg_peaks in
  motif_match <- match varm_motif_match adata with
                 | Some m => ret m
                 | None => raise (KeyError "motif_match")
                 end ;;
  let obs_dev := zeros (n_obs adata) (ncols motif_match) in
  motif_name <- match uns_motif_name adata with
                | Some l => ret l
                | None => raise (KeyError "motif_name")
                end ;;
  let bg_dev :=
    repeat (zeros (n_obs adata) (length motif_name)) n_bg_peaks in
  chunks <- lift (chunked_X adata chunk_size) ;;
  acc <- for_each (chunk_iteration gpu motif_match bg_peaks expectation_obs
                     expectation_var n_bg_peaks)
           chunks (obs_dev, bg_dev) ;;
  ret (adata, motif_name, fst acc, snd acc).

(** [np.mean(bg_dev, axis=0)] and [torch.mean(bg_dev, axis=0)] *)
Definition mean_bg (r c : nat) (bg_dev : list mat) : mat :=
  reduce_axis0 np_mean r c bg_dev.

(** [np.std(bg_dev, axis=0)] on the host, [torch.std(bg_dev, axis=0)] on
    the device. *)
Definition std_bg (gpu : bool) (r c : nat) (bg_dev : list mat) : mat :=
  if gpu then reduce_axis0 torch_std r c bg_dev
  else reduce_axis0 np_std r c bg_dev.

(** Lines 79-90: [dev = (obs_dev - mean_bg_dev) / std_bg_dev], where
    [bg_dev] has shape [(len(bg_dev), r, c)]. *)
Definition normalise (gpu : bool) (obs_dev : mat) (r c : nat)
  (bg_dev : list mat) : result mat :=
  let mean_bg_dev := mean_bg r c bg_dev in
  let std_bg_dev := std_bg gpu r c bg_dev in
  centred <- or_raise (shape_error gpu)
               (elementwise zero zero fsub obs_dev mean_bg_dev) ;;
  or_raise (shape_error gpu) (elementwise zero zero fdiv centred std_bg_dev).

(** The output container: the matrix with its row and column labels. *)
Record deviations := {
  dev_X : mat;
  dev_obs_names : list string;
  dev_var_names : list string
}.

(** [compute_deviations], lines 17-95. *)
Definition compute_deviations (data : pydata) (n_jobs : Z)
  (chunk_size : Z) (gpu : bool) : traced deviations :=
  '(adata, motif_name, obs_dev, bg_dev) <- accumulate data chunk_size gpu ;;
  dev <- lift (normalise gpu obs_dev (n_obs adata) (length motif_name)
                 bg_dev) ;;
  let dev := nan_to_num dev in
  if negb (length (obs_names adata) =? nrows dev) then raise ValueError
  else if negb (length motif_name =? ncols dev) then raise ValueError
  else ret {| dev_X := dev;
              dev_obs_names := obs_names adata;
              dev_var_names := motif_name |}.

(** *** Vocabulary of the statements *)

(** [m[i, j]] *)
Definition entry (m : mat) (i j : nat) : num :=
  nth j (nth i (rows m) []) zero.

(** The guarded quotient of the deviation: [x / e], and 0 where [e == 0]. *)
Definition guarded (x e : num) : num := if eq0 e then zero else fdiv x e.

(** The object the program works on, lines 32-38. *)
Definition resolve (data : pydata) : option AnnData :=
  match data with
  | An a => Some a
  | Mu modalities => lookup "atac" modalities
  | Other => None
  end.

Definition wf_matb {A} (m : matrix A) : bool :=
  forallb (fun r => length r =? ncols m) (rows m).

(** The contract of the input container: the count matrix has shape
    [(n_obs, n_var)], the match matrix [(n_var, n_features)], the
    background samples [(n_var, n_bg)] with entries that index regions,
    and there is one name per cell and per feature. *)
Definition valid_adata (a : AnnData) : bool :=
  match varm_motif_match a, varm_bg_peaks a, uns_motif_name a with
  | Some motif_match, Some bg_peaks, Some motif_name =>
      let n_var := ncols (todense (X a)) in
      wf_matb (todense (X a)) && wf_matb motif_match && wf_matb bg_peaks
      && (nrows motif_match =? n_var) && (nrows bg_peaks =? n_var)
      && forallb (forallb (fun i => (- Z.of_nat n_var <=? i)%Z
                                    && (i <? Z.of_nat n_var)%Z))
           (rows bg_peaks)
      && (length motif_name =? ncols motif_match)
      && (length (obs_names a) =? n_obs a)
  | _, _, _ => false
  end.

Definition valid_input (data : pydata) : bool :=
  match resolve data with
  | Some a => valid_adata a
  | None => false
  end.

(** The match matrix of the [i]-th background sample, lines 72-77. *)
Definition bg_motif_match_of (motif_match : mat) (bg_peaks : matrix Z)
  (i : nat) : option mat :=
  take_rows (column 0%Z i (rows bg_peaks)) motif_match.

(** The rows of a product are computed one by one from the rows of the
    left operand. *)
Definition product_rows (b : mat) (rs : list (list num)) : list (list num) :=
  map (fun r => map (fun j => dot_vec r (column zero j (rows b)))
                    (seq 0 (ncols b))) rs.

(** The deviation row by row: the rows [xs] of the counts and the rows [es]
    of the per-cell expectation give the rows of the result. *)
Definition deviation_rows (motif_match expectation_var : mat)
  (xs es : list (list num)) : list (list num) :=
  let inner :=
    Mat (ncols motif_match) (product_rows motif_match (rows expectation_var)) in
  let observed := product_rows motif_match xs in
  let expected := product_rows inner es in
  zip_with (zip_with guarded) (zip_with (zip_with fsub) observed expected)
    expected.

(** An accumulator of [n] rows of which the first [s] hold the rows of [D]
    and the others the zeros it was allocated with. *)
Definition filled (n c s : nat) (D : list (list num)) : mat :=
  Mat c (firstn s D ++ repeat (repeat zero c) (n - s)).

(** The rows of the deviation against the [i]-th background sample. *)
Definition bg_rows (motif_match : mat) (bg_peaks : matrix Z)
  (expectation_var : mat) (xs es : list (list num)) (i : nat)
  : list (list num) :=
  match bg_motif_match_of motif_match bg_peaks i with
  | Some m => deviation_rows m expectation_var xs es
  | None => []
  end.

(** Row ranges that follow one another from [s] to [e], none empty. *)
Fixpoint contiguous (s : nat) (l : list (nat * nat)) (e : nat) : Prop :=
  match l with
  | [] => s = e
  | (a, b) :: l' => a = s /\ s < b /\ contiguous b l' e
  end.

(** What a run logs before it enters the loops. *)
Definition prelude : list event :=
  [Log_info "computing expectation reads per cell and peak...";
   Expectation_computed;
   Log_info "computing observed + bg motif deviations..."].

(** The deviation of the whole count matrix against the match matrix, and
    against the match matrix of each background sample. *)
Definition obs_result (gpu : bool) (adata : AnnData) (motif_match : mat)
  : mat :=
  let '(eo, ev) := compute_expectation (X adata) gpu in
  Mat (ncols motif_match)
    (deviation_rows motif_match ev (rows (todense (X adata))) (rows eo)).

Definition bg_result (gpu : bool) (adata : AnnData) (motif_match : mat)
  (bg_peaks : matrix Z) : list mat :=
  let '(eo, ev) := compute_expectation (X adata) gpu in
  map (fun i => Mat (ncols motif_match)
                  (bg_rows motif_match bg_peaks ev
                     (rows (todense (X adata))) (rows eo) i))
    (seq 0 (ncols bg_peaks)).




(** The writes of a run over the chunks [l], in the order of the loops. *)
Definition writes_of (n_bg_peaks : nat) (l : list (nat * nat)) : list event :=
  flat_map (fun se => Write_obs (fst se) (snd se)
                        :: map (fun i => Write_bg i (fst se) (snd se))
                             (seq 0 n_bg_peaks))
    l.

(** The population standard deviation as the specification words it: the
    root of the squared deviations from the mean, summed and divided by
    the number of samples. *)
Definition population_std (l : list num) : num :=
  let mean := fdiv (np_sum l) (of_nat (length l)) in
  fsqrt (fdiv (np_sum (map (fun x => fmul (fsub x mean) (fsub x mean)) l))
           (of_nat (length l))).

End Model.

(** ** numpy's [dot] on a BLAS build

    [np_dot] above is the matrix product.  numpy computes the product of
    two float arrays through BLAS, and there an operand of shape [(1, 1)]
    is a scalar: the other operand is scaled by it into a zero-filled
    output ([axpy]), and scaling by 0 returns at once and leaves the
    zeros, whatever the other operand holds.  Two operands of shape
    [(1, 1)] are multiplied as numbers.  [torch.matmul] has no such
    shortcut.  The two products differ only where the scalar is 0 and the
    other operand holds a NaN or an infinity. *)

Section Finite.

Context {num : Type} {AR : Arith num}.

(** [np.isfinite] *)
Definition isfinite (x : num) : bool :=
  negb (isnan x) && negb (isposinf x) && negb (isneginf x).

Definition all_finite (m : matrix num) : bool :=
  forallb (forallb isfinite) (rows m).

(** An array whose rows have the length of its shape and whose entries
    are finite. *)
Definition finite_array (m : matrix num) : bool :=
  wf_matb m && all_finite m.

End Finite.

Module Blas.

Section Dot.

Context {num : Type} {AR : Arith num}.

Local Abbreviation mat := (matrix num).

(** The entry of an array of shape [(1, 1)]. *)
Definition scalar_of (m : mat) : option num :=
  if (nrows m =? 1) && (ncols m =? 1) then Some (entry m 0 0) else None.

Definition np_dot (a b : mat) : result mat :=
  p <- or_raise ValueError (matmul a b) ;;
  match scalar_of a, scalar_of b with
  | Some x, None | None, Some x =>
      if eq0 x then Ok (zeros (nrows p) (ncols p)) else Ok p
  | _, _ => Ok p
  end.

(** [_compute_deviations], lines 98-110, with the products as BLAS
    computes them. *)
Definition _compute_deviations
  (arguments : mat * count_matrix num * mat * mat) : result mat :=
  let '(motif_match, count, expectation_obs, expectation_var) := arguments in
  observed <- np_dot (todense count) motif_match ;;
  inner <- np_dot expectation_var motif_match ;;
  expected <- np_dot expectation_obs inner ;;
  let out := zeros (nrows expected) (ncols expected) in
  diff <- or_raise ValueError (elementwise zero zero fsub observed expected) ;;
  np_divide diff expected (map_mat (fun e => negb (eq0 e)) expected) out.

End Dot.

End Blas.

(** ** Exact arithmetic with the special values of IEEE 754

    A finite value is a rational in lowest terms, so equal values are
    equal terms.  Rounding, overflow and the sign of zero are left out:
    the sum of finite values is their exact sum. *)

Inductive xq :=
| Fin (q : Q)
| PInf
| NInf
| NaN.

Module XQ.

Local Open Scope Q_scope.

Definition fin (q : Q) : xq := Fin (Qred q).

Definition sign (q : Q) : comparison := (Qnum q ?= 0)%Z.

Definition neg (x : xq) : xq :=
  match x with
  | Fin q => fin (- q)
  | PInf => NInf
  | NInf => PInf
  | NaN => NaN
  end.

Definition add (x y : xq) : xq :=
  match x, y with
  | NaN, _ | _, NaN => NaN
  | PInf, NInf | NInf, PInf => NaN
  | PInf, _ | _, PInf => PInf
  | NInf, _ | _, NInf => NInf
  | Fin a, Fin b => fin (a + b)
  end.

Definition sub (x y : xq) : xq := add x (neg y).

(** An infinity with the sign of [s], NaN when [s] is that of zero. *)
Definition inf_of (s : comparison) : xq :=
  match s with Gt => PInf | Lt => NInf | Eq => NaN end.

Definition sign_of (x : xq) : comparison :=
  match x with
  | Fin q => sign q
  | PInf => Gt
  | NInf => Lt
  | NaN => Eq
  end.

Definition sign_mul (s t : comparison) : comparison :=
  match s, t with
  | Eq, _ | _, Eq => Eq
  | Gt, Gt | Lt, Lt => Gt
  | _, _ => Lt
  end.

Definition mul (x y : xq) : xq :=
  match x, y with
  | NaN, _ | _, NaN => NaN
  | Fin a, Fin b => fin (a * b)
  | _, _ => inf_of (sign_mul (sign_of x) (sign_of y))
  end.

Definition div (x y : xq) : xq :=
  match x, y with
  | NaN, _ | _, NaN => NaN
  | Fin a, Fin b =>
      match sign b with
      | Eq => inf_of (sign a)
      | _ => fin (a / b)
      end
  | Fin _, _ => Fin 0
  | _, Fin b => match sign b with
                | Lt => neg x
                | _ => x
                end
  | _, _ => NaN
  end.

(** The square root of a rational: exact when the root is rational,
    rounded down to 24 binary digits after the point of the root of
    numerator times denominator otherwise. *)
Definition Qsqrt (q : Q) : Q :=
  Qmake (Z.sqrt (Qnum q * Zpos (Qden q) * 4 ^ 24)) (Qden q * 2 ^ 24).

Definition sqrt (x : xq) : xq :=
  match x with
  | Fin q => match sign q with
             | Lt => NaN
             | _ => fin (Qsqrt q)
             end
  | PInf => PInf
  | NInf => NaN
  | NaN => NaN
  end.

Definition eq0 (x : xq) : bool :=
  match x with
  | Fin q => match sign q with Eq => true | _ => false end
  | _ => false
  end.

(** The largest finite float32: [(2^24 - 1) * 2^104]. *)
Definition float32_max : Q := inject_Z ((2 ^ 24 - 1) * 2 ^ 104)%Z.

End XQ.

#[export] Instance xq_arith : Arith xq := {
  zero := Fin 0;
  fadd := XQ.add;
  fsub := XQ.sub;
  fmul := XQ.mul;
  fdiv := XQ.div;
  fsqrt := XQ.sqrt;
  of_nat := fun n => Fin (inject_Z (Z.of_nat n));
  eq0 := XQ.eq0;
  isnan := fun x => match x with NaN => true | _ => false end;
  isposinf := fun x => match x with PInf => true | _ => false end;
  isneginf := fun x => match x with NInf => true | _ => false end;
  max_finite := Fin XQ.float32_max;
  min_finite := Fin (- XQ.float32_max)
}.

(** ** Single precision

    [F32.round] is the rounding of IEEE 754 binary32 to the nearest
    value, ties to the even significand: 24 binary digits, exponents from
    -126 (below [2^-126] the spacing stays [2^-149]) and overflow to an
    infinity from [2^128].  [Rounded.arith rnd] is the arithmetic that
    computes every operation exactly and rounds the result with [rnd]; it
    is float32 for [rnd := F32.round], but for the sign of zero. *)

Module F32.

Local Open Scope Q_scope.

(** [floor (log2 x)] for a positive [x]. *)
Definition ilog2 (x : Q) : Z :=
  let e := (Z.log2 (Qnum x) - Z.log2 (Zpos (Qden x)))%Z in
  if Qle_bool (2 ^ e) x then e else (e - 1)%Z.

(** The nearest integer, the even one of two that are as near. *)
Definition rne (x : Q) : Z :=
  let f := Qfloor x in
  match Qcompare (x - inject_Z f) (1 # 2) with
  | Lt => f
  | Gt => (f + 1)%Z
  | Eq => if Z.even f then f else (f + 1)%Z
  end.

Definition round (x : Q) : xq :=
  match XQ.sign x with
  | Eq => Fin 0
  | s =>
      let a := Qabs x in
      let e := Z.max (ilog2 a) (-126) in
      let ulp := 2 ^ (e - 23) in
      let r := inject_Z (rne (a / ulp)) * ulp in
      if Qle_bool (2 ^ 128) r then XQ.inf_of s
      else Fin (Qred (match s with Lt => - r | _ => r end))
  end.

(** A rational that rounds like the square root of a positive [q]: the
    root cut after many more digits than a float32 has, and, when that is
    not the root itself, half a unit of the last of these digits more. *)
Definition root (q : Q) : Q :=
  let p := (64 + Z.abs (ilog2 q))%Z in
  let scaled := q * 2 ^ (2 * p) in
  let s := Z.sqrt (Qfloor scaled) in
  if Qeq_bool (inject_Z (s * s)) scaled then inject_Z s / 2 ^ p
  else (inject_Z s + (1 # 2)) / 2 ^ p.

End F32.

Module Rounded.

Section Ops.

Variable rnd : Q -> xq.

Definition add (x y : xq) : xq :=
  match x, y with
  | NaN, _ | _, NaN => NaN
  | PInf, NInf | NInf, PInf => NaN
  | PInf, _ | _, PInf => PInf
  | NInf, _ | _, NInf => NInf
  | Fin a, Fin b => rnd (a + b)
  end.

Definition sub (x y : xq) : xq := add x (XQ.neg y).

Definition mul (x y : xq) : xq :=
  match x, y with
  | NaN, _ | _, NaN => NaN
  | Fin a, Fin b => rnd (a * b)
  | _, _ => XQ.inf_of (XQ.sign_mul (XQ.sign_of x) (XQ.sign_of y))
  end.

Definition div (x y : xq) : xq :=
  match x, y with
  | NaN, _ | _, NaN => NaN
  | Fin a, Fin b =>
      match XQ.sign b with
      | Eq => XQ.inf_of (XQ.sign a)
      | _ => rnd (a / b)
      end
  | Fin _, _ => Fin 0
  | _, Fin b => match XQ.sign b with
                | Lt => XQ.neg x
                | _ => x
                end
  | _, _ => NaN
  end.

Definition sqrt (x : xq) : xq :=
  match x with
  | Fin q => match XQ.sign q with
             | Lt => NaN
             | Eq => Fin 0
             | Gt => rnd (F32.root q)
             end
  | PInf => PInf
  | NInf => NaN
  | NaN => NaN
  end.

Definition arith : Arith xq := {|
  zero := Fin 0;
  fadd := add;
  fsub := sub;
  fmul := mul;
  fdiv := div;
  fsqrt := sqrt;
  of_nat := fun n => rnd (inject_Z (Z.of_nat n));
  eq0 := XQ.eq0;
  isnan := fun x => match x with NaN => true | _ => false end;
  isposinf := fun x => match x with PInf => true | _ => false end;
  isneginf := fun x => match x with NInf => true | _ => false end;
  max_finite := Fin XQ.float32_max;
  min_finite := Fin (- XQ.float32_max)
|}.

End Ops.

End Rounded.

(** The arithmetic of float32. *)
Definition f32_arith : Arith xq := Rounded.arith F32.round.

(** *** The vocabulary of rounding errors *)

Fixpoint Qpow (q : Q) (k : nat) : Q :=
  match k with
  | O => 1%Q
  | S k => (q * Qpow q k)%Q
  end.

(** [rnd] maps 0 to 0 and rounds every [x] of [[lo, hi]] to a finite
    value with a relative error of at most [u]: what rounding to the
    nearest float32 does with [u = 2^-24] as long as it neither
    underflows nor overflows. *)
Definition rounds (rnd : Q -> xq) (u lo hi : Q) : Prop :=
  (forall x, x == 0 -> rnd x = Fin 0)%Q
  /\ (forall x, lo <= x <= hi ->
        exists r, rnd x = Fin r /\ (1 - u) * x <= r <= (1 + u) * x)%Q.

(** The value of a finite number. *)
Definition value (x : xq) : Q :=
  match x with
  | Fin q => q
  | _ => 0%Q
  end.

(** [x'] is [x] after at most [k] roundings: both are 0, or [x] is at
    least [amin] and [x'] is within the factors [(1 - u)^k] and
    [(1 + u)^k] of it. *)
Definition approx (u amin : Q) (k : nat) (x' x : Q) : Prop :=
  ((x == 0 /\ x' == 0)
   \/ (amin <= x /\ Qpow (1 - u) k * x <= x' <= Qpow (1 + u) k * x))%Q.

(** No sum and no quotient of [compute_expectation] leaves [[lo, hi]]
    when the non-zero counts are at least [amin], their sum is [total]
    and at most [K] roundings follow one another. *)
Definition in_range (u lo hi : Q) (K : nat) (amin total : Q) : Prop :=
  (lo <= Qpow (1 - u) K * amin
   /\ Qpow (1 + u) K * total <= hi
   /\ lo * (Qpow (1 + u) K * total) <= Qpow (1 - u) K * amin
   /\ Qpow (1 + u) K <= hi * Qpow (1 - u) K)%Q.

(** The factors within which [e_region] is exact, for [n] cells and [c]
    regions. *)
Definition tol_lo (u : Q) (n c : nat) : Q :=
  (Qpow (1 - u) (n + 1) / Qpow (1 + u) (n + c))%Q.

Definition tol_hi (u : Q) (n c : nat) : Q :=
  (Qpow (1 + u) (n + 1) / Qpow (1 - u) (n + c))%Q.

(** Arrays of integers, as the examples write them. *)
Definition ints (c : nat) (l : list (list Z)) : matrix xq :=
  Mat c (map (map (fun z => Fin (inject_Z z))) l).

(** ** Sums of rationals, for the statements in exact arithmetic *)

Definition Qsum (l : list Q) : Q := fold_right Qplus 0%Q l.

(** The sum of column [j], and the sum of all the entries row by row. *)
Definition Qcolsum (j : nat) (qs : list (list Q)) : Q :=
  Qsum (map (fun r => nth j r 0%Q) qs).

Definition Qtotal (qs : list (list Q)) : Q := Qsum (map Qsum qs).

(** The array of the finite values [qs], with [c] columns. *)
Definition finite (c : nat) (qs : list (list Q)) : matrix xq :=
  Mat c (map (map Fin) qs).

Module Scenario.

(** The end-to-end scenario of the specification: 3 regions, 2 features,
    2 cells and one background sample, the identity. *)
Definition motif_match : matrix xq := ints 2 [[1; 0]; [1; 1]; [0; 1]]%Z.
Definition counts : matrix xq := ints 3 [[4; 0; 0]; [0; 2; 2]]%Z.
Definition bg_peaks : matrix Z := Mat 1 [[0]; [1]; [2]]%Z.

Definition adata : AnnData := {|
  X := Count false counts;
  obs_names := ["cell0"; "cell1"]%string;
  varm_motif_match := Some motif_match;
  varm_bg_peaks := Some bg_peaks;
  uns_motif_name := Some ["motif0"; "motif1"]%string
|}.

(** The same object with other background samples, other counts, or
    without the match matrix. *)
Definition with_bg (bg : matrix Z) : AnnData := {|
  X := Count false counts;
  obs_names := ["cell0"; "cell1"]%string;
  varm_motif_match := Some motif_match;
  varm_bg_peaks := Some bg;
  uns_motif_name := Some ["motif0"; "motif1"]%string
|}.


(** Two background samples: the identity and the rotation. *)
Definition two_samples : matrix Z := Mat 2 [[0; 1]; [1; 2]; [2; 0]]%Z.

Definition no_motif_match : AnnData := {|
  X := Count false counts;
  obs_names := ["cell0"; "cell1"]%string;
  varm_motif_match := None;
  varm_bg_peaks := Some bg_peaks;
  uns_motif_name := Some ["motif0"; "motif1"]%string
|}.

(** A count matrix of one cell and two regions without any read. *)
Definition no_reads : count_matrix xq := Count false (ints 2 [[0; 0]]%Z).

(** The expectations of these counts, and the products of the deviation
    primitive on them. *)
Definition expectation_obs : matrix xq := ints 1 [[4]; [4]]%Z.
Definition expectation_var : matrix xq :=
  finite 3 [[1 # 2; 1 # 4; 1 # 4]]%Q.
Definition observed : matrix xq := ints 2 [[4; 0]; [2; 4]]%Z.
Definition inner : matrix xq := finite 2 [[3 # 4; 1 # 2]]%Q.
Definition expected : matrix xq := ints 2 [[3; 2]; [3; 2]]%Z.

(** The deviation of these counts against the match matrix, and against
    the match matrix rotated by one region. *)
Definition deviation : matrix xq := finite 2 [[1 # 3; -1]; [-1 # 3; 1]]%Q.

(** The counts as rationals. *)
Definition count_values : list (list Q) := [[4; 0; 0]; [0; 2; 2]]%Q.

End Scenario.


(** ** Further inputs and vocabulary *)

(** The background sample that leaves every region in place. *)
Definition identity_sample (n_var : nat) : list Z :=
  map Z.of_nat (seq 0 n_var).

(** A finite value that is at least [b], and an array of such values. *)
Definition at_least (b : Q) (x : xq) : bool :=
  match x with
  | Fin q => Qle_bool b q
  | _ => false
  end.

Definition all_at_least (b : Q) (m : matrix xq) : bool :=
  forallb (forallb (at_least b)) (rows m).

Module Inputs.

Import Scenario.

Definition no_motif_name : AnnData := {|
  X := Count false counts;
  obs_names := ["cell0"; "cell1"]%string;
  varm_motif_match := Some motif_match;
  varm_bg_peaks := Some bg_peaks;
  uns_motif_name := None
|}.

(** The scenario with no background sample at all: [bg_peaks] has shape
    [(3, 0)]. *)
Definition no_samples : matrix Z := Mat 0 [[]; []; []].

(** Three cells, of which the second has no read. *)
Definition with_empty_cell : AnnData := {|
  X := Count true (ints 3 [[4; 0; 0]; [0; 0; 0]; [0; 2; 2]]%Z);
  obs_names := ["cell0"; "cell1"; "cell2"]%string;
  varm_motif_match := Some motif_match;
  varm_bg_peaks := Some two_samples;
  uns_motif_name := Some ["motif0"; "motif1"]%string
|}.

(** One cell without any read. *)
Definition empty_chunk : count_matrix xq := Count false (ints 3 [[0; 0; 0]]%Z).

End Inputs.

(** * Properties *)

(** ** Lists: zipping, slicing, updating *)

Section ListFacts.

Context {A B C : Type}.

Lemma zip_with_nil_r (f : A -> B -> C) (la : list A) : zip_with f la [] = [].
Proof. unfold zip_with. now rewrite combine_nil. Qed.

Lemma zip_with_cons (f : A -> B -> C) a la b lb :
  zip_with f (a :: la) (b :: lb) = f a b :: zip_with f la lb.
Proof. reflexivity. Qed.

Lemma zip_with_length (f : A -> B -> C) la lb :
  length (zip_with f la lb) = Nat.min (length la) (length lb).
Proof. unfold zip_with. now rewrite length_map, length_combine. Qed.

Lemma skipn_combine (n : nat) (la : list A) (lb : list B) :
  skipn n (combine la lb) = combine (skipn n la) (skipn n lb).
Proof.
  revert la lb; induction n as [|n IH]; intros la lb; [reflexivity|].
  destruct la as [|a la]; [reflexivity|].
  destruct lb as [|b lb]; simpl; [now rewrite combine_nil|apply IH].
Qed.

Lemma slice_zip_with (f : A -> B -> C) s e la lb :
  slice s e (zip_with f la lb) = zip_with f (slice s e la) (slice s e lb).
Proof.
  unfold slice, zip_with.
  now rewrite skipn_map, firstn_map, skipn_combine, combine_firstn.
Qed.

Lemma slice_map (f : A -> B) s e l :
  slice s e (map f l) = map f (slice s e l).
Proof. unfold slice. now rewrite skipn_map, firstn_map. Qed.

Lemma slice_length s e (l : list A) :
  s <= e -> e <= length l -> length (slice s e l) = e - s.
Proof.
  intros Hs He. unfold slice. rewrite length_firstn, length_skipn. lia.
Qed.

Lemma slice_firstn s e (l : list A) :
  s <= e -> firstn s l ++ slice s e l = firstn e l.
Proof.
  intros Hs. unfold slice.
  replace e with (s + (e - s)) at 2 by lia.
  rewrite <- (firstn_skipn s (firstn (s + (e - s)) l)).
  rewrite firstn_firstn, Nat.min_l by lia.
  rewrite skipn_firstn_comm. now replace (s + (e - s) - s) with (e - s) by lia.
Qed.

Lemma list_set_app (l1 : list A) (x y : A) (l2 : list A) :
  list_set (length l1) y (l1 ++ x :: l2) = l1 ++ y :: l2.
Proof.
  unfold list_set.
  rewrite firstn_app, firstn_all, Nat.sub_diag, firstn_O, app_nil_r.
  rewrite skipn_app, skipn_all2 by lia.
  replace (S (length l1) - length l1) with 1 by lia. reflexivity.
Qed.

Lemma nth_error_app_mid (l1 : list A) (x : A) (l2 : list A) :
  nth_error (l1 ++ x :: l2) (length l1) = Some x.
Proof. rewrite nth_error_app2, Nat.sub_diag by lia. reflexivity. Qed.

End ListFacts.

(** ** Arrays: shapes, broadcasting, products *)

Section BroadcastFacts.

Context {A : Type}.

Lemma broadcast_to_shape (d : A) r c (m m' : matrix A) :
  broadcast_to d r c m = Some m' -> nrows m' = r /\ ncols m' = c.
Proof.
  unfold broadcast_to.
  destruct (negb _); [discriminate|].
  destruct (negb _); [discriminate|].
  intros [= <-]. unfold nrows; simpl. split; [|reflexivity].
  destruct (length (rows m) =? r) eqn:E.
  - rewrite length_map. now apply Nat.eqb_eq.
  - apply repeat_length.
Qed.

Lemma broadcast_to_same (d : A) r c (m : matrix A) :
  nrows m = r -> ncols m = c ->
  broadcast_to d r c m = Some (Mat c (rows m)).
Proof.
  intros <- <-. unfold broadcast_to.
  rewrite !Nat.eqb_refl. simpl. now rewrite map_id.
Qed.

(** A row count that is neither the target nor 1 cannot be broadcast. *)
Lemma broadcast_to_rows (d : A) r c (m m' : matrix A) :
  broadcast_to d r c m = Some m' -> nrows m = r \/ nrows m = 1.
Proof.
  unfold broadcast_to.
  destruct (negb _); [discriminate|].
  destruct (nrows m =? r) eqn:E1; [left; now apply Nat.eqb_eq|].
  destruct (nrows m =? 1) eqn:E2; [right; now apply Nat.eqb_eq|].
  discriminate.
Qed.

Lemma wf_matb_spec (m : matrix A) : wf_matb m = true <-> wf_mat m.
Proof.
  unfold wf_matb, wf_mat. rewrite forallb_forall, Forall_forall.
  split; intros H r Hr; specialize (H r Hr); now apply Nat.eqb_eq.
Qed.

End BroadcastFacts.

Section ArrayFacts.

Context {A B C : Type}.

Lemma bdim_same n : bdim n n = Some n.
Proof. unfold bdim. now rewrite Nat.eqb_refl. Qed.

Lemma bdim_cases a b r :
  bdim a b = Some r -> (a = b /\ r = a) \/ (a = 1 /\ r = b) \/ (b = 1 /\ r = a).
Proof.
  unfold bdim.
  destruct (a =? b) eqn:E1.
  { apply Nat.eqb_eq in E1. intros [= <-]. now left. }
  destruct (a =? 1) eqn:E2.
  { apply Nat.eqb_eq in E2. intros [= <-]. right; now left. }
  destruct (b =? 1) eqn:E3; [|discriminate].
  apply Nat.eqb_eq in E3. intros [= <-]. right; now right.
Qed.

Lemma elementwise_same (da : A) (db : B) (f : A -> B -> C) a b :
  nrows a = nrows b -> ncols a = ncols b ->
  elementwise da db f a b
  = Some (Mat (ncols a) (zip_with (zip_with f) (rows a) (rows b))).
Proof.
  intros Hr Hc. unfold elementwise.
  rewrite <- Hr, <- Hc, !bdim_same. cbn [bind option_monad].
  rewrite (broadcast_to_same da a eq_refl eq_refl).
  rewrite (broadcast_to_same db b (eq_sym Hr) (eq_sym Hc)). reflexivity.
Qed.

Lemma elementwise_shape (da : A) (db : B) (f : A -> B -> C) a b m :
  elementwise da db f a b = Some m ->
  exists r c, bdim (nrows a) (nrows b) = Some r
              /\ bdim (ncols a) (ncols b) = Some c
              /\ nrows m = r /\ ncols m = c.
Proof.
  unfold elementwise.
  destruct (bdim (nrows a) (nrows b)) as [r|]; [|discriminate].
  destruct (bdim (ncols a) (ncols b)) as [c|]; [|discriminate]. simpl.
  destruct (broadcast_to da r c a) as [a'|] eqn:Ea; [|discriminate].
  destruct (broadcast_to db r c b) as [b'|] eqn:Eb; [|discriminate].
  intros [= <-]. exists r, c. repeat split.
  apply broadcast_to_shape in Ea, Eb. destruct Ea as [Ea _], Eb as [Eb _].
  unfold nrows in *; simpl. rewrite zip_with_length. lia.
Qed.

End ArrayFacts.

Section PrimitiveFacts.

Context {num : Type} {AR : Arith num}.

Local Abbreviation mat := (matrix num).

Lemma nrows_zeros r c : nrows (zeros r c) = r.
Proof. unfold nrows, zeros; simpl. apply repeat_length. Qed.

Lemma matmul_some (a b m : mat) :
  matmul a b = Some m ->
  ncols a = nrows b /\ ncols m = ncols b /\ nrows m = nrows a /\ wf_mat m.
Proof.
  unfold matmul. destruct (ncols a =? nrows b) eqn:E; [|discriminate].
  apply Nat.eqb_eq in E. intros [= <-]. unfold nrows, wf_mat; simpl.
  repeat split; [assumption|now rewrite length_map|].
  apply Forall_forall. intros r Hr. apply in_map_iff in Hr.
  destruct Hr as [x [<- _]]. now rewrite length_map, length_seq.
Qed.

Lemma matmul_rows (a b : mat) :
  ncols a = nrows b ->
  matmul a b = Some (Mat (ncols b) (product_rows b (rows a))).
Proof. intros H. unfold matmul. now rewrite H, Nat.eqb_refl. Qed.

(** The host's [where=] mask over a zero-filled [out] and the device's
    overwriting of the masked entries both give the guarded quotient. *)
Lemma host_row (d e : list num) :
  zip_with (fun (mo : bool * num) q => if fst mo then q else snd mo)
    (zip_with pair (map (fun x => negb (eq0 x)) e) (repeat zero (length e)))
    (zip_with fdiv d e)
  = zip_with guarded d e.
Proof.
  revert d; induction e as [|x e IH]; intros d.
  - now rewrite !zip_with_nil_r.
  - destruct d as [|y d]; [reflexivity|].
    simpl. rewrite !zip_with_cons. simpl. rewrite IH. f_equal.
    unfold guarded. now destruct (eq0 x).
Qed.

Lemma host_rows c (D E : list (list num)) :
  Forall (fun r => length r = c) E ->
  zip_with (zip_with (fun (mo : bool * num) q => if fst mo then q else snd mo))
    (zip_with (zip_with pair) (map (map (fun x => negb (eq0 x))) E)
       (repeat (repeat zero c) (length E)))
    (zip_with (zip_with fdiv) D E)
  = zip_with (zip_with guarded) D E.
Proof.
  intros H; revert D; induction H as [|e E He _ IH]; intros D.
  - now rewrite !zip_with_nil_r.
  - destruct D as [|d D]; [reflexivity|].
    simpl. rewrite !zip_with_cons. rewrite IH. f_equal.
    rewrite <- He. apply host_row.
Qed.

Lemma gpu_row (d e : list num) :
  zip_with (fun (m : bool) o => if m then zero else o) (map eq0 e)
    (zip_with fdiv d e)
  = zip_with guarded d e.
Proof.
  revert d; induction e as [|x e IH]; intros d.
  - now rewrite !zip_with_nil_r.
  - destruct d as [|y d]; [reflexivity|].
    simpl. rewrite !zip_with_cons. now rewrite IH.
Qed.

Lemma gpu_rows (D E : list (list num)) :
  zip_with (zip_with (fun (m : bool) o => if m then zero else o))
    (map (map eq0) E) (zip_with (zip_with fdiv) D E)
  = zip_with (zip_with guarded) D E.
Proof.
  revert D; induction E as [|e E IH]; intros D.
  - now rewrite !zip_with_nil_r.
  - destruct D as [|d D]; [reflexivity|].
    simpl. rewrite !zip_with_cons. rewrite IH. f_equal. apply gpu_row.
Qed.

End PrimitiveFacts.

Section DeviationFacts.

Context {num : Type} {AR : Arith num}.

Local Abbreviation mat := (matrix num).

Lemma or_raise_some {T} e (o : option T) (x : T) :
  o = Some x -> or_raise e o = Ok x.
Proof. now intros ->. Qed.

Section WithProducts.

Variables (motif_match expectation_obs expectation_var : mat).
Variable count : count_matrix num.
Variables observed inner expected diff : mat.
Hypothesis Hobs : matmul (todense count) motif_match = Some observed.
Hypothesis Hinner : matmul expectation_var motif_match = Some inner.
Hypothesis Hexp : matmul expectation_obs inner = Some expected.
Hypothesis Hdiff : elementwise zero zero fsub observed expected = Some diff.

Lemma diff_ncols : ncols diff = ncols expected.
Proof.
  destruct (matmul_some _ _ Hobs) as (_ & Ho & _).
  destruct (matmul_some _ _ Hinner) as (_ & Hi & _).
  destruct (matmul_some _ _ Hexp) as (_ & He & _).
  destruct (elementwise_shape _ _ _ _ _ Hdiff) as (r & c & _ & Hc & _ & <-).
  assert (E : ncols observed = ncols expected) by congruence.
  rewrite E, bdim_same in Hc. congruence.
Qed.

(** When the difference has another number of rows than [expected], it has
    more than one and [expected] has exactly one. *)
Lemma diff_rows_mismatch :
  nrows diff <> nrows expected -> nrows diff <> 1 /\ nrows expected = 1.
Proof.
  intros Hne.
  destruct (elementwise_shape _ _ _ _ _ Hdiff) as (r & c & Hr & _ & Hd & _).
  destruct (bdim_cases _ _ Hr) as [[E1 E2]|[[E1 E2]|[E1 E2]]]; lia.
Qed.

Lemma deviation_host :
  _compute_deviations
    (motif_match, count, expectation_obs, expectation_var)
  = if nrows diff =? nrows expected
    then Ok (Mat (ncols expected)
               (zip_with (zip_with guarded) (rows diff) (rows expected)))
    else Raise ValueError.
Proof.
  unfold _compute_deviations, np_dot.
  rewrite Hobs, Hinner. cbn [or_raise bind result_monad].
  rewrite Hexp. cbn [or_raise bind result_monad].
  rewrite Hdiff. cbn [or_raise bind result_monad].
  unfold np_divide. rewrite nrows_zeros. cbn [zeros ncols rows].
  destruct (matmul_some _ _ Hexp) as (_ & _ & _ & Hwf).
  destruct (nrows diff =? nrows expected) eqn:E.
  - apply Nat.eqb_eq in E.
    rewrite (broadcast_to_same zero diff E diff_ncols).
    rewrite (broadcast_to_same zero expected eq_refl eq_refl).
    rewrite (@broadcast_to_same _ false (nrows expected) (ncols expected)
               (map_mat (fun e => negb (eq0 e)) expected)).
    2: { unfold nrows, map_mat; simpl. now rewrite length_map. }
    2: { reflexivity. }
    cbn [or_raise bind option_monad rows map_mat].
    do 2 f_equal. apply host_rows. exact Hwf.
  - apply Nat.eqb_neq in E.
    destruct (diff_rows_mismatch E) as [H1 H2].
    destruct (broadcast_to zero (nrows expected) (ncols expected) diff)
      as [d'|] eqn:Ed; [|reflexivity].
    apply broadcast_to_rows in Ed. lia.
Qed.

Lemma deviation_gpu :
  if nrows diff =? nrows expected
  then _compute_deviations_gpu
         (motif_match, todense count, expectation_obs, expectation_var)
       = Ok (Mat (ncols expected)
               (zip_with (zip_with guarded) (rows diff) (rows expected)))
  else exists e,
      _compute_deviations_gpu
        (motif_match, todense count, expectation_obs, expectation_var)
      = Raise e.
Proof.
  unfold _compute_deviations_gpu, torch_matmul.
  rewrite Hobs, Hinner. cbn [or_raise bind result_monad].
  rewrite Hexp. cbn [or_raise bind result_monad].
  rewrite Hdiff. cbn [or_raise bind result_monad].
  unfold torch_div.
  destruct (nrows diff =? nrows expected) eqn:E.
  - apply Nat.eqb_eq in E.
    rewrite (elementwise_same zero zero fdiv diff expected E diff_ncols).
    cbn [or_raise bind result_monad]. unfold masked_assign.
    unfold nrows at 1 2. cbn [rows ncols map_mat].
    rewrite length_map, zip_with_length. fold (nrows diff) (nrows expected).
    rewrite E, Nat.min_id, diff_ncols, !Nat.eqb_refl. simpl.
    do 2 f_equal. apply gpu_rows.
  - apply Nat.eqb_neq in E.
    destruct (elementwise zero zero fdiv diff expected) as [q|] eqn:Eq;
      [|now eexists].
    cbn [or_raise bind result_monad]. unfold masked_assign.
    destruct (elementwise_shape _ _ _ _ _ Eq) as (r & c & Hr & _ & Hq & _).
    destruct (diff_rows_mismatch E) as [H1 H2].
    assert (Hne : nrows (map_mat eq0 expected) <> nrows q).
    { unfold nrows at 1. cbn [rows map_mat]. rewrite length_map.
      fold (nrows expected).
      destruct (bdim_cases _ _ Hr) as [[Ea Eb]|[[Ea Eb]|[Ea Eb]]]; lia. }
    apply Nat.eqb_neq in Hne. rewrite Hne. now eexists.
Qed.

End WithProducts.

End DeviationFacts.

Section EntryFacts.

Context {A B C : Type}.

Lemma nth_zip_with (f : A -> B -> C) la lb da db dc i :
  i < length la -> i < length lb ->
  nth i (zip_with f la lb) dc = f (nth i la da) (nth i lb db).
Proof.
  revert lb i; induction la as [|a la IH]; intros lb i Ha Hb;
    [simpl in Ha; lia|].
  destruct lb as [|b lb]; [simpl in Hb; lia|].
  destruct i; [reflexivity|].
  rewrite zip_with_cons. simpl in *. apply IH; lia.
Qed.

Lemma wf_nth_length (m : matrix A) i :
  wf_mat m -> i < nrows m -> length (nth i (rows m) []) = ncols m.
Proof.
  intros Hwf Hi. unfold wf_mat in Hwf. rewrite Forall_forall in Hwf.
  apply Hwf, nth_In, Hi.
Qed.

End EntryFacts.

Section PrimitiveClaims.

Context {num : Type} {AR : Arith num}.

Local Abbreviation mat := (matrix num).


(** C10 ([n_jobs] is not read).  Whatever the value of [n_jobs], a run on
    the same data with the same chunk size on the same path leaves the
    same trace and returns the same result. *)
Theorem C10_n_jobs_has_no_effect (data : pydata) (a b chunk_size : Z)
  (gpu : bool) :
  compute_deviations data a chunk_size gpu
  = compute_deviations data b chunk_size gpu.
Proof. reflexivity. Qed.

End PrimitiveClaims.

(** ** The host product as BLAS computes it *)

Section BlasFacts.

Context {num : Type} {AR : Arith num}.

Local Abbreviation mat := (matrix num).

(** Scaling a finite number by zero and adding it to the zero of a fresh
    output gives zero: a law of IEEE 754 arithmetic, and of exact
    arithmetic. *)
Hypothesis scale_by_zero : forall a x : num,
  eq0 a = true -> isfinite x = true ->
  fadd zero (fmul a x) = zero /\ fadd zero (fmul x a) = zero.

Lemma finite_array_spec (m : mat) :
  finite_array m = true ->
  wf_mat m /\ forall r x, In r (rows m) -> In x r -> isfinite x = true.
Proof.
  unfold finite_array, all_finite. intros H.
  apply andb_true_iff in H. destruct H as [Hwf Hfin].
  split; [now apply wf_matb_spec|].
  intros r x Hr Hx. rewrite forallb_forall in Hfin.
  specialize (Hfin r Hr). rewrite forallb_forall in Hfin. now apply Hfin.
Qed.

Lemma scalar_of_some (m : mat) (x : num) :
  wf_mat m -> Blas.scalar_of m = Some x -> ncols m = 1 /\ rows m = [[x]].
Proof.
  unfold Blas.scalar_of, wf_mat, nrows, entry. intros Hwf H.
  destruct (length (rows m) =? 1) eqn:E1; [|discriminate].
  destruct (ncols m =? 1) eqn:E2; [|discriminate].
  apply Nat.eqb_eq in E1, E2. cbn [andb] in H. split; [exact E2|].
  destruct (rows m) as [|r [|r' rs]]; try discriminate.
  apply Forall_inv in Hwf. rewrite E2 in Hwf.
  destruct r as [|y [|y' r]]; try discriminate.
  cbn [nth] in H. now injection H as <-.
Qed.

Lemma scalar_of_none (m : mat) :
  Blas.scalar_of m = None -> ncols m = 1 -> nrows m <> 1.
Proof.
  unfold Blas.scalar_of. intros H Hc Hr.
  rewrite Hr, Hc in H. discriminate.
Qed.

Lemma dot_vec_single (x y : num) : dot_vec [x] [y] = fadd zero (fmul x y).
Proof. reflexivity. Qed.

(** A row scaled by a zero scalar, as the matrix product computes it. *)
Lemma scaled_row_zero (x : num) (rb : list num) :
  eq0 x = true -> (forall y, In y rb -> isfinite y = true) ->
  map (fun j => dot_vec [x] (column zero j [rb])) (seq 0 (length rb))
  = repeat zero (length rb).
Proof.
  intros Hx Hfin.
  transitivity (map (fun _ : nat => @zero num AR) (seq 0 (length rb))).
  - apply map_ext_in. intros j Hj. apply in_seq in Hj.
    unfold column. cbn [map]. rewrite dot_vec_single.
    refine (proj1 (scale_by_zero x _ Hx _)). apply Hfin, nth_In. lia.
  - now rewrite map_const, length_seq.
Qed.

(** A column scaled by a zero scalar. *)
Lemma scaled_column_zero (y : num) (ra : list (list num)) :
  eq0 y = true ->
  Forall (fun r => length r = 1) ra ->
  (forall r x, In r ra -> In x r -> isfinite x = true) ->
  map (fun r => map (fun j => dot_vec r (column zero j [[y]])) (seq 0 1)) ra
  = repeat (repeat zero 1) (length ra).
Proof.
  intros Hy Hwf Hfin.
  transitivity (map (fun _ : list num => [@zero num AR]) ra).
  - apply map_ext_in. intros r Hr.
    rewrite Forall_forall in Hwf. specialize (Hwf r Hr).
    destruct r as [|x [|x' r]]; try discriminate.
    cbn [seq map column nth]. rewrite dot_vec_single. f_equal.
    refine (proj2 (scale_by_zero y x Hy _)).
    apply (Hfin [x]); [exact Hr|now left].
  - now rewrite map_const.
Qed.

(** On finite operands the shortcut of BLAS returns the product. *)
Lemma blas_dot_finite (a b : mat) :
  finite_array a = true -> finite_array b = true ->
  Blas.np_dot a b = np_dot a b.
Proof.
  intros Ha Hb.
  destruct (finite_array_spec _ Ha) as [Hwa Hfa].
  destruct (finite_array_spec _ Hb) as [Hwb Hfb].
  unfold Blas.np_dot, np_dot.
  destruct (matmul a b) as [p|] eqn:Hp; [|reflexivity].
  cbn [or_raise bind result_monad].
  assert (Hshape : ncols a = nrows b).
  { now destruct (matmul_some _ _ Hp). }
  rewrite (matmul_rows _ _ Hshape) in Hp. injection Hp as <-.
  unfold product_rows, nrows at 1. cbn [ncols rows]. rewrite length_map.
  destruct (Blas.scalar_of a) as [x|] eqn:Sa;
    destruct (Blas.scalar_of b) as [y|] eqn:Sb; try reflexivity.
  - destruct (eq0 x) eqn:Ex; [|reflexivity].
    destruct (scalar_of_some Hwa Sa) as [Hca Hra].
    rewrite Hra. cbn [length map]. unfold zeros.
    unfold nrows in Hshape. rewrite Hca in Hshape.
    assert (Hfb' : forall z, In z (hd [] (rows b)) -> isfinite z = true).
    { intros z Hz. destruct (rows b) as [|rb rs] eqn:Hrb; [contradiction|].
      apply (Hfb rb); [now left|exact Hz]. }
    unfold wf_mat in Hwb.
    destruct (rows b) as [|rb [|rb' rs]]; try discriminate.
    apply Forall_inv in Hwb. cbn [hd] in Hfb'.
    rewrite <- Hwb. cbn [repeat]. do 3 f_equal. symmetry.
    now apply scaled_row_zero.
  - destruct (eq0 y) eqn:Ey; [|reflexivity].
    destruct (scalar_of_some Hwb Sb) as [Hcb Hrb].
    rewrite Hrb, Hcb. unfold zeros, nrows. cbn [rows]. rewrite length_map.
    do 2 f_equal. symmetry.
    apply scaled_column_zero; [exact Ey| |exact Hfa].
    unfold nrows in Hshape. rewrite Hrb in Hshape. cbn [length] in Hshape.
    unfold wf_mat in Hwa. now rewrite Hshape in Hwa.
Qed.

(** So the host primitive is the one over the matrix product when its
    operands, and the product of the per-region expectation and the match
    matrix, are finite. *)
Lemma blas_primitive_finite (motif_match expectation_obs expectation_var : mat)
  (count : count_matrix num) :
  finite_array motif_match = true ->
  finite_array (todense count) = true ->
  finite_array expectation_obs = true ->
  finite_array expectation_var = true ->
  (forall inner, matmul expectation_var motif_match = Some inner ->
                 all_finite inner = true) ->
  Blas._compute_deviations
    (motif_match, count, expectation_obs, expectation_var)
  = _compute_deviations
      (motif_match, count, expectation_obs, expectation_var).
Proof.
  intros HM HC HO HV HI. unfold Blas._compute_deviations, _compute_deviations.
  rewrite (blas_dot_finite _ _ HC HM), (blas_dot_finite _ _ HV HM).
  destruct (np_dot (todense count) motif_match) as [observed|]; [|reflexivity].
  cbn [bind result_monad]. unfold np_dot.
  destruct (matmul expectation_var motif_match) as [inner|] eqn:Hinner;
    [|reflexivity].
  cbn [or_raise bind result_monad].
  assert (Hfin : finite_array inner = true).
  { unfold finite_array. rewrite (HI inner eq_refl), andb_true_r.
    apply wf_matb_spec. now destruct (matmul_some _ _ Hinner) as (_ & _ & _ & H). }
  now rewrite (blas_dot_finite _ _ HO Hfin).
Qed.

(** C6, as the code has it (host and accelerator primitives).  Given the
    same match matrix, count chunk (materialised dense for the
    accelerator), per-cell expectation slice and per-region expectation,
    all with finite entries and a finite product of the per-region
    expectation and the match matrix: one primitive returns an array
    exactly when the other returns the same array; and the array returned
    is the guarded quotient of [observed - expected] and [expected], where
    [observed] is the product of the counts and the match matrix and
    [expected] is the product of the per-cell expectation with the
    product of the per-region expectation and the match matrix. *)
Theorem C6_host_gpu_equivalent
  (motif_match expectation_obs expectation_var : mat)
  (count : count_matrix num) :
  finite_array motif_match = true ->
  finite_array (todense count) = true ->
  finite_array expectation_obs = true ->
  finite_array expectation_var = true ->
  (forall inner, matmul expectation_var motif_match = Some inner ->
                 all_finite inner = true) ->
  (forall out,
     Blas._compute_deviations
       (motif_match, count, expectation_obs, expectation_var) = Ok out
     <-> _compute_deviations_gpu
           (motif_match, todense count, expectation_obs, expectation_var)
         = Ok out)
  /\ (forall out,
        Blas._compute_deviations
          (motif_match, count, expectation_obs, expectation_var) = Ok out ->
        exists observed inner expected diff,
          matmul (todense count) motif_match = Some observed
          /\ matmul expectation_var motif_match = Some inner
          /\ matmul expectation_obs inner = Some expected
          /\ elementwise zero zero fsub observed expected = Some diff
          /\ out = Mat (ncols expected)
                     (zip_with (zip_with guarded) (rows diff)
                        (rows expected))).
Proof.
  intros HM HC HO HV HI.
  rewrite (blas_primitive_finite _ _ _ _ HM HC HO HV HI).
  destruct (matmul (todense count) motif_match) as [observed|] eqn:Hobs.
  2: { unfold _compute_deviations, _compute_deviations_gpu, np_dot,
         torch_matmul. rewrite Hobs. simpl.
       split; intros out; [split|]; discriminate. }
  destruct (matmul expectation_var motif_match) as [inner|] eqn:Hinner.
  2: { unfold _compute_deviations, _compute_deviations_gpu, np_dot,
         torch_matmul. rewrite Hobs, Hinner. simpl.
       split; intros out; [split|]; discriminate. }
  destruct (matmul expectation_obs inner) as [expected|] eqn:Hexp.
  2: { unfold _compute_deviations, _compute_deviations_gpu, np_dot,
         torch_matmul. rewrite Hobs, Hinner. cbn [or_raise bind result_monad].
       rewrite Hexp. simpl. split; intros out; [split|]; discriminate. }
  destruct (elementwise zero zero fsub observed expected) as [diff|] eqn:Hdiff.
  2: { unfold _compute_deviations, _compute_deviations_gpu, np_dot,
         torch_matmul. rewrite Hobs, Hinner. cbn [or_raise bind result_monad].
       rewrite Hexp. cbn [or_raise bind result_monad].
       rewrite Hdiff. simpl. split; intros out; [split|]; discriminate. }
  pose proof (deviation_host _ _ _ _ Hobs Hinner Hexp Hdiff) as Hhost.
  pose proof (deviation_gpu _ _ _ _ Hobs Hinner Hexp Hdiff) as Hgpu.
  destruct (nrows diff =? nrows expected) eqn:E.
  - rewrite Hhost, Hgpu. split; [reflexivity|].
    intros out [= <-]. exists observed, inner, expected, diff.
    repeat split; assumption || reflexivity.
  - destruct Hgpu as [e Hgpu]. rewrite Hhost, Hgpu.
    split; intros out; [split|]; discriminate.
Qed.

End BlasFacts.

(** ** The loops of [compute_deviations] *)

Section SliceFacts.

Context {num : Type} {AR : Arith num}.

Local Abbreviation mat := (matrix num).

Lemma skipn_repeat {T} (x : T) k n : skipn k (repeat x n) = repeat x (n - k).
Proof.
  revert k; induction n as [|n IH]; intros k.
  - now rewrite skipn_nil.
  - destruct k; [reflexivity|]. simpl. apply IH.
Qed.

Lemma slice_lengths {T U} s e (l : list T) (l' : list U) :
  length l = length l' -> length (slice s e l) = length (slice s e l').
Proof.
  intros H. unfold slice. rewrite !length_firstn, !length_skipn. lia.
Qed.

(** On conformal operands either primitive returns the deviation rows. *)
Lemma deviations_of_rows gpu (motif_match eo ev : mat)
  (count : count_matrix num) :
  ncols (todense count) = nrows motif_match ->
  ncols ev = nrows motif_match ->
  ncols eo = nrows ev ->
  nrows (todense count) = nrows eo ->
  deviations_of gpu motif_match count eo ev
  = Ok (Mat (ncols motif_match)
          (deviation_rows motif_match ev (rows (todense count)) (rows eo))).
Proof.
  intros HX Hev Heo Hrows.
  pose proof (matmul_rows (todense count) motif_match HX) as Hobs.
  pose proof (matmul_rows ev motif_match Hev) as Hinner.
  set (inner := Mat (ncols motif_match)
                  (product_rows motif_match (rows ev))) in *.
  assert (Hi : ncols eo = nrows inner).
  { unfold nrows, inner, product_rows. cbn [rows]. now rewrite length_map. }
  pose proof (matmul_rows eo inner Hi) as Hexp.
  set (observed := Mat (ncols motif_match)
                     (product_rows motif_match (rows (todense count)))) in *.
  set (expected := Mat (ncols inner) (product_rows inner (rows eo))) in *.
  assert (Hr : nrows observed = nrows expected).
  { unfold nrows, observed, expected, product_rows in *. cbn [rows].
    now rewrite !length_map. }
  pose proof (elementwise_same zero zero fsub observed expected Hr eq_refl)
    as Hdiff.
  set (diff := Mat (ncols observed)
                 (zip_with (zip_with fsub) (rows observed) (rows expected)))
    in Hdiff.
  assert (Hd : nrows diff = nrows expected).
  { unfold nrows in *. cbn [rows diff]. rewrite zip_with_length. lia. }
  pose proof (deviation_host _ _ _ _ Hobs Hinner Hexp Hdiff) as Hhost.
  pose proof (deviation_gpu _ _ _ _ Hobs Hinner Hexp Hdiff) as Hgpu.
  rewrite Hd, Nat.eqb_refl in Hhost, Hgpu.
  unfold deviations_of. destruct gpu; [rewrite Hgpu|rewrite Hhost];
    reflexivity.
Qed.

Lemma deviation_rows_slice (motif_match ev : mat) xs es s e :
  slice s e (deviation_rows motif_match ev xs es)
  = deviation_rows motif_match ev (slice s e xs) (slice s e es).
Proof.
  unfold deviation_rows, product_rows.
  now rewrite !slice_zip_with, !slice_map.
Qed.

(** The primitive commutes with the slicing of the rows: the deviation of
    a chunk is the chunk of the deviation. *)
Lemma deviations_of_chunk gpu (motif_match eo ev : mat)
  (count chunk : count_matrix num) s e :
  ncols (todense count) = nrows motif_match ->
  ncols ev = nrows motif_match ->
  ncols eo = nrows ev ->
  nrows (todense count) = nrows eo ->
  todense chunk = slice_rows s e (todense count) ->
  deviations_of gpu motif_match chunk (slice_rows s e eo) ev
  = Ok (Mat (ncols motif_match)
          (slice s e (deviation_rows motif_match ev (rows (todense count))
                        (rows eo)))).
Proof.
  intros HX Hev Heo Hrows Hchunk.
  rewrite deviations_of_rows.
  - rewrite Hchunk. cbn [rows slice_rows].
    now rewrite deviation_rows_slice.
  - now rewrite Hchunk.
  - assumption.
  - assumption.
  - rewrite Hchunk. unfold nrows in *. cbn [rows slice_rows].
    now apply slice_lengths.
Qed.

Lemma deviation_rows_length (motif_match ev : mat) xs es :
  length xs = length es ->
  length (deviation_rows motif_match ev xs es) = length xs.
Proof.
  intros H. unfold deviation_rows, product_rows.
  rewrite !zip_with_length, !length_map. lia.
Qed.

(** Writing the chunk [s, e) of [D] into an accumulator filled up to [s]
    fills it up to [e]. *)
Lemma assign_filled n c s e (D : list (list num)) :
  length D = n -> s <= e -> e <= n ->
  assign_rows zero s e (Mat c (slice s e D)) (filled n c s D)
  = Some (filled n c e D).
Proof.
  intros HD Hs He. unfold assign_rows, filled. cbn [rows ncols].
  assert (L1 : length (firstn s D) = s) by (rewrite length_firstn; lia).
  assert (L2 : length (slice s e (firstn s D ++ repeat (repeat zero c) (n - s)))
               = e - s).
  { apply slice_length; [assumption|].
    rewrite length_app, L1, repeat_length. lia. }
  rewrite L2.
  rewrite (@broadcast_to_same _ zero (e - s) c (Mat c (slice s e D))).
  2: { unfold nrows. cbn [rows]. apply slice_length; lia. }
  2: { reflexivity. }
  cbn [bind option_monad rows]. do 2 f_equal.
  rewrite firstn_app, L1, Nat.sub_diag, firstn_O, app_nil_r.
  rewrite firstn_firstn, Nat.min_id.
  rewrite skipn_app, L1, skipn_all2 by lia.
  replace (s + (e - s) - s) with (e - s) by lia.
  rewrite skipn_repeat. replace (n - s - (e - s)) with (n - e) by lia.
  cbn [app]. rewrite app_assoc. now rewrite slice_firstn.
Qed.

End SliceFacts.

Lemma contiguous_le l : forall s e, contiguous s l e -> s <= e.
Proof.
  induction l as [|[a b] l IH]; intros s e H; simpl in H.
  - lia.
  - destruct H as (_ & H1 & H2). apply IH in H2. lia.
Qed.

Section TracedFacts.

Context {A B : Type}.

Lemma bind_lift_ok (a : A) (k : A -> traced B) : bind (lift (Ok a)) k = k a.
Proof. cbn. now destruct (k a). Qed.

Lemma bind_traced_ok (m : traced A) (k : A -> traced B) l a l' r :
  m = (l, Ok a) -> k a = (l', r) -> bind m k = (l ++ l', r).
Proof. intros -> H. cbn. now rewrite H. Qed.

Lemma bind_pair_ok (k : A -> traced B) l a :
  bind ((l, Ok a) : traced A) k = (l ++ fst (k a), snd (k a)).
Proof. cbn. now destruct (k a). Qed.

Lemma nth_error_middle (l1 : list A) (x : A) (l2 : list A) k :
  length l1 = k -> nth_error (l1 ++ x :: l2) k = Some x.
Proof. intros <-. apply nth_error_app_mid. Qed.

Lemma list_set_middle (l1 : list A) (x y : A) (l2 : list A) k :
  length l1 = k -> list_set k y (l1 ++ x :: l2) = l1 ++ y :: l2.
Proof. intros <-. apply list_set_app. Qed.

End TracedFacts.

Section Loops.

Context {num : Type} {AR : Arith num}.

Local Abbreviation mat := (matrix num).

Variable gpu : bool.
Variables motif_match eo ev : mat.
Variable bg_peaks : matrix Z.
Variable count : count_matrix num.
Variables n n_bg : nat.

Hypothesis HX : ncols (todense count) = nrows motif_match.
Hypothesis Hev : ncols ev = nrows motif_match.
Hypothesis Heo : ncols eo = nrows ev.
Hypothesis Hrows : nrows (todense count) = nrows eo.
Hypothesis Hn : nrows (todense count) = n.
Hypothesis Hbg : forall i, i < n_bg ->
  exists m, bg_motif_match_of motif_match bg_peaks i = Some m
            /\ nrows m = nrows motif_match /\ ncols m = ncols motif_match.

Let c := ncols motif_match.
Let xs := rows (todense count).
Let es := rows eo.
Let D_obs := deviation_rows motif_match ev xs es.
Let D_bg := bg_rows motif_match bg_peaks ev xs es.

(** The background accumulators while the chunk [s, e) is processed,
    before the turn of sample [k]. *)
Let bg_state (s e k : nat) : list mat :=
  map (fun i => filled n c e (D_bg i)) (seq 0 k)
  ++ map (fun i => filled n c s (D_bg i)) (seq k (n_bg - k)).

Let all_filled (s : nat) : list mat :=
  map (fun i => filled n c s (D_bg i)) (seq 0 n_bg).

Lemma xs_es_length : length xs = length es.
Proof. exact Hrows. Qed.

Lemma D_obs_length : length D_obs = n.
Proof.
  unfold D_obs. rewrite deviation_rows_length by exact xs_es_length.
  exact Hn.
Qed.

Lemma D_bg_length i : i < n_bg -> length (D_bg i) = n.
Proof.
  intros Hi. unfold D_bg, bg_rows.
  destruct (Hbg Hi) as (m & -> & _).
  rewrite deviation_rows_length by exact xs_es_length. exact Hn.
Qed.

Lemma bg_iteration_step s e k (chunk : count_matrix num) :
  s <= e -> e <= n -> k < n_bg ->
  todense chunk = slice_rows s e (todense count) ->
  bg_iteration gpu motif_match bg_peaks chunk eo ev s e (bg_state s e k) k
  = ([Write_bg k s e], Ok (bg_state s e (S k))).
Proof.
  intros Hs He Hk Hchunk. unfold bg_iteration.
  destruct (Hbg Hk) as (m & Hm & Hmr & Hmc).
  unfold bg_motif_match_of in Hm. rewrite Hm.
  cbn [or_raise]. rewrite bind_lift_ok.
  rewrite (@deviations_of_chunk _ _ gpu m eo ev count chunk s e);
    try assumption; try congruence.
  rewrite bind_lift_ok.
  unfold bg_state.
  rewrite seq_S, map_app, <- app_assoc. cbn [Nat.add map app].
  replace (n_bg - k) with (S (n_bg - S k)) by lia.
  cbn [seq map].
  rewrite (nth_error_middle _ _ _ (k := k))
    by now rewrite length_map, length_seq.
  cbn [or_raise]. rewrite bind_lift_ok.
  assert (HD : D_bg k = deviation_rows m ev (rows (todense count)) (rows eo)).
  { unfold D_bg, bg_rows, bg_motif_match_of. now rewrite Hm. }
  rewrite <- HD, Hmc. fold c.
  rewrite (@assign_filled _ _ n c s e (D_bg k) (D_bg_length Hk) Hs He).
  cbn [or_raise]. rewrite bind_lift_ok.
  rewrite (list_set_middle _ _ _ _ (k := k))
    by now rewrite length_map, length_seq.
  reflexivity.
Qed.

Lemma bg_loop s e (chunk : count_matrix num) :
  s <= e -> e <= n ->
  todense chunk = slice_rows s e (todense count) ->
  forall len k, k + len = n_bg ->
    for_each (bg_iteration gpu motif_match bg_peaks chunk eo ev s e)
      (seq k len) (bg_state s e k)
    = (map (fun i => Write_bg i s e) (seq k len), Ok (bg_state s e n_bg)).
Proof.
  intros Hs He Hchunk. induction len as [|len IH]; intros k Hk.
  - replace k with n_bg by lia. reflexivity.
  - cbn [seq for_each map].
    erewrite bind_traced_ok;
      [|apply bg_iteration_step; try assumption; lia|apply IH; lia].
    reflexivity.
Qed.

Lemma bg_state_start s e : bg_state s e 0 = all_filled s.
Proof. unfold bg_state, all_filled. now rewrite Nat.sub_0_r. Qed.

Lemma bg_state_end s e : bg_state s e n_bg = all_filled e.
Proof.
  unfold bg_state, all_filled. now rewrite Nat.sub_diag, app_nil_r.
Qed.

Lemma chunk_iteration_step s e :
  s <= e -> e <= n ->
  chunk_iteration gpu motif_match bg_peaks eo ev n_bg
    (filled n c s D_obs, all_filled s) (slice_count s e count, s, e)
  = (Write_obs s e :: map (fun i => Write_bg i s e) (seq 0 n_bg),
     Ok (filled n c e D_obs, all_filled e)).
Proof.
  intros Hs He. unfold chunk_iteration.
  set (chunk := if gpu then _ else _).
  assert (Hchunk : todense chunk = slice_rows s e (todense count)).
  { unfold chunk. destruct gpu; [|reflexivity].
    now destruct (issparse (slice_count s e count)). }
  rewrite (@deviations_of_chunk _ _ gpu motif_match eo ev count chunk s e);
    try assumption.
  rewrite bind_lift_ok. fold c xs es D_obs.
  rewrite (@assign_filled _ _ n c s e D_obs D_obs_length Hs He).
  cbn [or_raise]. rewrite bind_lift_ok.
  rewrite <- bg_state_start with (e := e).
  rewrite (@bg_loop s e chunk Hs He Hchunk n_bg 0 eq_refl).
  rewrite bg_state_end. unfold tell.
  cbn [bind traced_monad ret app]. now rewrite app_nil_r.
Qed.

Lemma chunk_loop l : forall s,
  contiguous s l n ->
  for_each (chunk_iteration gpu motif_match bg_peaks eo ev n_bg)
    (map (fun se => (slice_count (fst se) (snd se) count, fst se, snd se)) l)
    (filled n c s D_obs, all_filled s)
  = (writes_of n_bg l, Ok (filled n c n D_obs, all_filled n)).
Proof.
  induction l as [|[a b] l IH]; intros s H; simpl in H.
  - subst s. reflexivity.
  - destruct H as (-> & H1 & H2).
    pose proof (contiguous_le _ _ _ H2) as H3.
    cbn [map for_each fst snd].
    erewrite bind_traced_ok;
      [|apply chunk_iteration_step; lia|apply IH; exact H2].
    reflexivity.
Qed.

Lemma filled_full (D : list (list num)) :
  length D = n -> filled n c n D = Mat c D.
Proof.
  intros H. unfold filled. rewrite Nat.sub_diag, firstn_all2 by lia.
  cbn [repeat]. now rewrite app_nil_r.
Qed.

(** The loops over the chunks [l] fill both accumulators with the
    deviations of the whole count matrix. *)
Lemma loops_fill l :
  contiguous 0 l n ->
  for_each (chunk_iteration gpu motif_match bg_peaks eo ev n_bg)
    (map (fun se => (slice_count (fst se) (snd se) count, fst se, snd se)) l)
    (zeros n c, repeat (zeros n c) n_bg)
  = (writes_of n_bg l,
     Ok (Mat c D_obs, map (fun i => Mat c (D_bg i)) (seq 0 n_bg))).
Proof.
  intros H.
  assert (Z0 : forall D, zeros n c = filled n c 0 D).
  { intros D. unfold zeros, filled. now rewrite Nat.sub_0_r. }
  assert (B0 : repeat (zeros n c) n_bg = all_filled 0).
  { unfold all_filled.
    assert (G : forall l', map (fun i => filled n c 0 (D_bg i)) l'
                           = repeat (zeros n c) (length l')).
    { induction l' as [|i l' IH']; [reflexivity|].
      simpl. now rewrite <- (Z0 (D_bg i)), IH'. }
    now rewrite G, length_seq. }
  rewrite B0, (Z0 D_obs), (chunk_loop l 0 H).
  rewrite (filled_full D_obs D_obs_length). do 3 f_equal.
  unfold all_filled. apply map_ext_in. intros i Hi.
  apply in_seq in Hi. apply filled_full, D_bg_length. lia.
Qed.

End Loops.

(** ** The chunks of [chunked_X] *)

Lemma contiguous_app l : forall s m l' e,
  contiguous s l m -> contiguous m l' e -> contiguous s (l ++ l') e.
Proof.
  induction l as [|[a b] l IH]; intros s m l' e H1 H2; simpl in *.
  - now subst.
  - destruct H1 as (-> & Hlt & H1). repeat split; [assumption|].
    now apply IH with m.
Qed.

Lemma full_chunks_spec k : 0 < k -> forall count start l last,
  full_chunks count start k = (l, last) ->
  contiguous start l last /\ last = start + count * k.
Proof.
  intros Hk. induction count as [|count IH]; intros start l last H;
    simpl in H.
  - injection H as <- <-. simpl. lia.
  - destruct (full_chunks count (start + k) k) as [l' last'] eqn:E.
    injection H as <- <-. apply IH in E. destruct E as [E1 E2].
    simpl. repeat split; [lia|assumption|lia].
Qed.

(** With a positive chunk size the ranges follow one another from row 0
    to row [n]. *)
Lemma chunk_ranges_ok n (chunk_size : Z) :
  (0 < chunk_size)%Z ->
  exists l, chunk_ranges n chunk_size = Ok l /\ contiguous 0 l n.
Proof.
  intros Hk. unfold chunk_ranges.
  destruct (Z.eqb_spec chunk_size 0) as [E|_]; [lia|].
  destruct (full_chunks _ 0 _) as [l last] eqn:E.
  apply full_chunks_spec in E; [|lia]. destruct E as [E1 E2].
  assert (Hlast : last <= n).
  { subst last. simpl.
    pose proof (Z.mul_div_le (Z.of_nat n) chunk_size Hk) as Hm.
    assert (H0 : (0 <= Z.of_nat n / chunk_size)%Z)
      by (apply Z.div_pos; lia).
    rewrite <- Z2Nat.inj_mul by lia. lia. }
  eexists. split; [reflexivity|].
  destruct (Nat.ltb_spec last n) as [Hlt|Hge].
  - apply contiguous_app with last; [assumption|]. simpl. auto.
  - rewrite app_nil_r. now replace n with last by lia.
Qed.

(** ** Valid inputs *)

Section ValidFacts.

Context {num : Type} {AR : Arith num}.

Local Abbreviation mat := (matrix num).

Lemma py_index_some n z :
  (- Z.of_nat n <= z < Z.of_nat n)%Z ->
  exists k, py_index n z = Some k /\ k < n.
Proof.
  intros H. unfold py_index.
  destruct ((0 <=? z)%Z && (z <? Z.of_nat n)%Z) eqn:E1.
  - exists (Z.to_nat z). split; [reflexivity|].
    apply andb_prop in E1. lia.
  - destruct ((- Z.of_nat n <=? z)%Z && (z <? 0)%Z) eqn:E2.
    + eexists. split; [reflexivity|]. apply andb_prop in E2. lia.
    + apply andb_false_iff in E1, E2. lia.
Qed.

Lemma take_rows_valid (idx : list Z) (m : mat) :
  Forall (fun z => (- Z.of_nat (nrows m) <= z < Z.of_nat (nrows m))%Z) idx ->
  exists m', take_rows idx m = Some m'
             /\ nrows m' = length idx /\ ncols m' = ncols m.
Proof.
  intros H. unfold take_rows.
  set (pick := fun i : Z =>
         k <- py_index (nrows m) i ;; nth_error (rows m) k).
  assert (G : exists rs, mapM pick idx = Some rs /\ length rs = length idx).
  { induction H as [|z idx Hz _ IH].
    - exists []. now split.
    - destruct IH as (rs & IH1 & IH2).
      destruct (py_index_some _ Hz) as (k & Hk1 & Hk2).
      destruct (nth_error (rows m) k) as [r|] eqn:Er.
      2: { apply nth_error_None in Er. unfold nrows in Hk2. lia. }
      exists (r :: rs). split; [|simpl; now rewrite IH2].
      simpl. unfold pick at 1. rewrite Hk1. cbn [bind option_monad].
      rewrite Er, IH1. reflexivity. }
  destruct G as (rs & G1 & G2). rewrite G1. cbn [bind option_monad].
  eexists. split; [reflexivity|]. now split.
Qed.

Lemma valid_adata_spec (a : AnnData) :
  valid_adata a = true ->
  exists (motif_match : mat) (bg_peaks : matrix Z)
         (motif_name : list string),
    varm_motif_match a = Some motif_match
    /\ varm_bg_peaks a = Some bg_peaks
    /\ uns_motif_name a = Some motif_name
    /\ nrows motif_match = ncols (todense (X a))
    /\ length motif_name = ncols motif_match
    /\ length (obs_names a) = n_obs a
    /\ forall i, i < ncols bg_peaks ->
         exists m, bg_motif_match_of motif_match bg_peaks i = Some m
                   /\ nrows m = nrows motif_match
                   /\ ncols m = ncols motif_match.
Proof.
  unfold valid_adata.
  destruct (varm_motif_match a) as [M|]; [|discriminate].
  destruct (varm_bg_peaks a) as [B|]; [|discriminate].
  destruct (uns_motif_name a) as [names|]; [|discriminate].
  rewrite !andb_true_iff.
  intros (((((((_ & _) & HB) & HM) & HBr) & Hidx) & Hnames) & Hobs).
  apply Nat.eqb_eq in HM, HBr, Hnames, Hobs.
  apply wf_matb_spec in HB.
  exists M, B, names. repeat split; try assumption.
  intros i Hi. unfold bg_motif_match_of.
  destruct (@take_rows_valid (column 0%Z i (rows B)) M) as (m & H1 & H2 & H3).
  { unfold column. apply Forall_forall. intros z Hz.
    apply in_map_iff in Hz. destruct Hz as (r & <- & Hr).
    rewrite forallb_forall in Hidx. specialize (Hidx r Hr).
    rewrite forallb_forall in Hidx.
    unfold wf_mat in HB. rewrite Forall_forall in HB. specialize (HB r Hr).
    assert (Hin : In (nth i r 0%Z) r) by (apply nth_In; lia).
    specialize (Hidx _ Hin). rewrite HM. lia. }
  exists m. repeat split; try assumption.
  rewrite H2. unfold column. rewrite length_map.
  unfold nrows in *. congruence.
Qed.

End ValidFacts.

Section RunFacts.

Context {num : Type} {AR : Arith num}.

Local Abbreviation mat := (matrix num).

Lemma compute_expectation_shape (count : count_matrix num) gpu :
  exists eo ev : mat,
    compute_expectation count gpu = (eo, ev)
    /\ ncols ev = ncols (todense count) /\ nrows ev = 1
    /\ ncols eo = 1 /\ nrows eo = nrows (todense count).
Proof.
  unfold compute_expectation.
  destruct gpu; do 2 eexists; (split; [reflexivity|]);
    unfold nrows; cbn [rows ncols length]; now rewrite length_map.
Qed.

Lemma bind_ret {A B} (a : A) (k : A -> traced B) : bind (ret a) k = k a.
Proof. cbn. now destruct (k a). Qed.

Lemma bind_tell {B} (e : event) (k : unit -> traced B) :
  bind (tell e) k = (e :: fst (k tt), snd (k tt)).
Proof. cbn. now destruct (k tt). Qed.

Lemma resolve_accumulate (data : pydata) (a : AnnData) :
  resolve data = Some a ->
  match data return traced (@AnnData num) with
  | An a => ret a
  | Mu modalities =>
      match lookup "atac" modalities return traced (@AnnData num) with
      | Some a => ret a
      | None => raise (TypeError type_error_msg)
      end
  | Other => raise (TypeError type_error_msg)
  end = ret a.
Proof.
  destruct data as [a'|ms|]; simpl.
  - now intros [= ->].
  - now intros ->.
  - discriminate.
Qed.

(** A run on a valid input with a positive chunk size: what it logs and
    writes, and the accumulators it leaves. *)
Lemma accumulate_valid (data : pydata) (chunk_size : Z) (gpu : bool) :
  valid_input data = true -> (0 < chunk_size)%Z ->
  exists (adata : AnnData) (motif_match : mat) (bg_peaks : matrix Z)
         (motif_name : list string) (l : list (nat * nat)),
    resolve data = Some adata
    /\ varm_motif_match adata = Some motif_match
    /\ varm_bg_peaks adata = Some bg_peaks
    /\ uns_motif_name adata = Some motif_name
    /\ length motif_name = ncols motif_match
    /\ length (obs_names adata) = n_obs adata
    /\ chunk_ranges (n_obs adata) chunk_size = Ok l
    /\ contiguous 0 l (n_obs adata)
    /\ accumulate data chunk_size gpu
       = (prelude ++ writes_of (ncols bg_peaks) l,
          Ok (adata, motif_name, obs_result gpu adata motif_match,
              bg_result gpu adata motif_match bg_peaks)).
Proof.
  intros Hvalid Hk. unfold valid_input in Hvalid.
  destruct (resolve data) as [a|] eqn:Hres; [|discriminate].
  destruct (valid_adata_spec a Hvalid)
    as (M & B & names & HM & HB & Hnames & HMr & Hlen & Hobs & Hbg).
  destruct (chunk_ranges_ok (n_obs a) Hk) as (l & Hl & Hcont).
  exists a, M, B, names, l. repeat (split; [assumption|]).
  unfold accumulate, obs_result, bg_result.
  rewrite (resolve_accumulate data Hres), bind_ret.
  rewrite HB, bind_ret, !bind_tell.
  destruct (compute_expectation_shape (X a) gpu)
    as (eo & ev & -> & Hev1 & Hev2 & Heo1 & Heo2).
  rewrite bind_tell, HM, bind_ret, Hnames, bind_ret.
  unfold chunked_X. rewrite Hl. cbn [bind result_monad].
  rewrite bind_lift_ok.
  rewrite Hlen.
  rewrite (@loops_fill _ _ gpu M eo ev B (X a) (n_obs a) (ncols B));
    try congruence; try assumption; try reflexivity.
  cbn [bind traced_monad ret fst snd prelude app].
  now rewrite app_nil_r.
Qed.

Lemma reduce_axis0_shape f r c (t : list mat) :
  nrows (reduce_axis0 f r c t) = r /\ ncols (reduce_axis0 f r c t) = c.
Proof.
  unfold reduce_axis0, nrows. cbn [rows ncols].
  now rewrite length_map, length_seq.
Qed.

Lemma std_bg_shape gpu r c (t : list mat) :
  nrows (std_bg gpu r c t) = r /\ ncols (std_bg gpu r c t) = c.
Proof. unfold std_bg. destruct gpu; apply reduce_axis0_shape. Qed.

(** The normalisation of arrays of one shape returns the quotients. *)
Lemma normalise_ok gpu (obs : mat) r c (bg : list mat) :
  nrows obs = r -> ncols obs = c ->
  normalise gpu obs r c bg
  = Ok (Mat c (zip_with (zip_with fdiv)
                 (zip_with (zip_with fsub) (rows obs)
                    (rows (mean_bg r c bg)))
                 (rows (std_bg gpu r c bg)))).
Proof.
  intros Hr Hc. unfold normalise.
  destruct (reduce_axis0_shape np_mean r c bg) as [Hmr Hmc].
  destruct (std_bg_shape gpu r c bg) as [Hsr Hsc].
  fold (mean_bg r c bg) in Hmr, Hmc.
  rewrite (elementwise_same zero zero fsub obs (mean_bg r c bg))
    by congruence.
  cbn [or_raise bind result_monad].
  rewrite elementwise_same.
  - cbn [or_raise ncols rows]. now rewrite Hc.
  - unfold nrows in *. cbn [rows]. rewrite zip_with_length. lia.
  - cbn [ncols]. congruence.
Qed.

Lemma obs_result_shape gpu (adata : AnnData) (motif_match : mat) :
  nrows (obs_result gpu adata motif_match) = n_obs adata
  /\ ncols (obs_result gpu adata motif_match) = ncols motif_match.
Proof.
  unfold obs_result.
  destruct (compute_expectation_shape (X adata) gpu)
    as (eo & ev & -> & _ & _ & _ & Heo).
  split; [|reflexivity]. unfold nrows in *. cbn [rows].
  now rewrite deviation_rows_length.
Qed.

(** A run on a valid input with a positive chunk size returns, and what
    it returns is the normalisation of the deviations of the whole count
    matrix, whatever the chunks were. *)
Lemma compute_deviations_valid (data : pydata) (n_jobs chunk_size : Z)
  (gpu : bool) :
  valid_input data = true -> (0 < chunk_size)%Z ->
  exists (adata : AnnData) (motif_match : mat) (bg_peaks : matrix Z)
         (motif_name : list string) (l : list (nat * nat)) (z : mat),
    resolve data = Some adata
    /\ varm_motif_match adata = Some motif_match
    /\ varm_bg_peaks adata = Some bg_peaks
    /\ uns_motif_name adata = Some motif_name
    /\ chunk_ranges (n_obs adata) chunk_size = Ok l
    /\ contiguous 0 l (n_obs adata)
    /\ normalise gpu (obs_result gpu adata motif_match) (n_obs adata)
         (length motif_name) (bg_result gpu adata motif_match bg_peaks)
       = Ok z
    /\ compute_deviations data n_jobs chunk_size gpu
       = (prelude ++ writes_of (ncols bg_peaks) l,
          Ok {| dev_X := nan_to_num z;
                dev_obs_names := obs_names adata;
                dev_var_names := motif_name |}).
Proof.
  intros Hvalid Hk.
  destruct (accumulate_valid data gpu Hvalid Hk)
    as (a & M & B & names & l & Hres & HM & HB & Hnames & Hlen & Hobs
        & Hl & Hcont & Hacc).
  destruct (obs_result_shape gpu a M) as [Hr Hc].
  pose proof (normalise_ok gpu (obs_result gpu a M)
                (bg_result gpu a M B) Hr (eq_trans Hc (eq_sym Hlen)))
    as Hnorm.
  exists a, M, B, names, l. eexists.
  repeat (split; [eassumption|]).
  unfold compute_deviations.
  rewrite Hacc, bind_pair_ok. cbn beta iota. rewrite Hnorm, bind_lift_ok.
  match goal with |- context [nan_to_num ?m] => set (z := m) end.
  assert (Hzr : nrows (nan_to_num z) = n_obs a).
  { destruct (std_bg_shape gpu (n_obs a) (length names)
                (bg_result gpu a M B)) as [Hsr _].
    destruct (reduce_axis0_shape np_mean (n_obs a) (length names)
                (bg_result gpu a M B)) as [Hmr _].
    unfold nan_to_num, map_mat, z, nrows, mean_bg in *. cbn [rows].
    rewrite length_map, !zip_with_length. lia. }
  assert (Hzc : ncols (nan_to_num z) = length names) by reflexivity.
  rewrite Hzr, Hzc, Hobs, !Nat.eqb_refl.
  cbn [negb ret traced_monad fst snd]. now rewrite app_nil_r.
Qed.

End RunFacts.

(** ** Counting the writes *)








Section RunClaims.

Context {num : Type} {AR : Arith num}.

Local Abbreviation mat := (matrix num).

(** C7 (chunk invariance).  On a valid input, runs with two positive
    chunk sizes both return, and they return the same output: the chunk
    size changes the trace of writes, never the result. *)
Theorem C7_chunk_invariance (data : pydata) (n_jobs k1 k2 : Z) (gpu : bool) :
  valid_input data = true -> (0 < k1)%Z -> (0 < k2)%Z ->
  exists dev : deviations,
    snd (compute_deviations data n_jobs k1 gpu) = Ok dev
    /\ snd (compute_deviations data n_jobs k2 gpu) = Ok dev.
Proof.
  intros Hvalid H1 H2.
  destruct (compute_deviations_valid data n_jobs gpu Hvalid H1)
    as (a1 & M1 & B1 & names1 & l1 & z1 & Hres1 & HM1 & HB1 & Hn1 & _ & _
        & Hz1 & Hrun1).
  destruct (compute_deviations_valid data n_jobs gpu Hvalid H2)
    as (a2 & M2 & B2 & names2 & l2 & z2 & Hres2 & HM2 & HB2 & Hn2 & _ & _
        & Hz2 & Hrun2).
  assert (a2 = a1) by congruence. subst a2.
  assert (M2 = M1) by congruence. subst M2.
  assert (B2 = B1) by congruence. subst B2.
  assert (names2 = names1) by congruence. subst names2.
  assert (z2 = z1) by congruence. subst z2.
  rewrite Hrun1, Hrun2. eexists. split; reflexivity.
Qed.


End RunClaims.

Section PreconditionClaims.

Context {num : Type} {AR : Arith num}.

Local Abbreviation mat := (matrix num).

(** C4, as the code has it (precondition failures).  An input that is
    neither an AnnData nor a MuData with an ['atac'] modality raises the
    type error before anything is logged or computed; an object without
    background samples raises the assertion error that names them, again
    before anything is logged or computed; an object with background
    samples but without the match matrix raises [KeyError('motif_match')]
    after the expectation has been computed and before any deviation is
    computed or written.  In each case the run ends with the exception
    and returns nothing. *)
Theorem C4_precondition_failures (data : pydata) (n_jobs chunk_size : Z)
  (gpu : bool) :
  (resolve data = None ->
   compute_deviations data n_jobs chunk_size gpu
   = ([], Raise (TypeError type_error_msg)))
  /\ (forall a : AnnData,
        resolve data = Some a -> varm_bg_peaks a = None ->
        compute_deviations data n_jobs chunk_size gpu
        = ([], Raise (AssertionError bg_peaks_msg)))
  /\ (forall (a : AnnData) (b : matrix Z),
        resolve data = Some a -> varm_bg_peaks a = Some b ->
        varm_motif_match a = None ->
        compute_deviations data n_jobs chunk_size gpu
        = (prelude, Raise (KeyError "motif_match"))).
Proof.
  split; [|split].
  - intros Hres. unfold compute_deviations, accumulate.
    destruct data as [a|ms|]; simpl in Hres; [discriminate| |reflexivity].
    now rewrite Hres.
  - intros a Hres Hbg. unfold compute_deviations, accumulate.
    rewrite (resolve_accumulate data Hres), bind_ret, Hbg. reflexivity.
  - intros a b Hres Hbg Hmm. unfold compute_deviations, accumulate.
    rewrite (resolve_accumulate data Hres), bind_ret, Hbg, bind_ret.
    rewrite !bind_tell.
    destruct (compute_expectation (X a) gpu) as [eo ev].
    rewrite bind_tell, Hmm. reflexivity.
Qed.

End PreconditionClaims.

(** ** Exact arithmetic *)

Module XQFacts.

Local Open Scope Q_scope.

Lemma fin_eq (a b : Q) : a == b -> XQ.fin a = XQ.fin b.
Proof. intros H. unfold XQ.fin. f_equal. now apply Qred_complete. Qed.

Lemma sign_eq_iff (q : Q) : XQ.sign q = Eq <-> q == 0.
Proof.
  unfold XQ.sign, Qeq. simpl. rewrite Z.compare_eq_iff. lia.
Qed.

Lemma sign_gt_iff (q : Q) : XQ.sign q = Gt <-> 0 < q.
Proof.
  unfold XQ.sign, Qlt. simpl. rewrite Z.compare_gt_iff. lia.
Qed.

Lemma sign_lt_iff (q : Q) : XQ.sign q = Lt <-> q < 0.
Proof.
  unfold XQ.sign, Qlt. simpl. rewrite Z.compare_lt_iff. lia.
Qed.

Lemma sign_Qred (q : Q) : XQ.sign (Qred q) = XQ.sign q.
Proof.
  destruct (XQ.sign q) eqn:E.
  - apply sign_eq_iff. rewrite Qred_correct. now apply sign_eq_iff.
  - apply sign_lt_iff. rewrite Qred_correct. now apply sign_lt_iff.
  - apply sign_gt_iff. rewrite Qred_correct. now apply sign_gt_iff.
Qed.

Lemma add_fin (a b : Q) : XQ.add (XQ.fin a) (Fin b) = XQ.fin (a + b).
Proof.
  unfold XQ.fin. cbn [XQ.add]. unfold XQ.fin. f_equal.
  apply Qred_complete. now rewrite Qred_correct.
Qed.

Lemma fold_add (l : list Q) : forall a,
  fold_left XQ.add (map Fin l) (XQ.fin a) = XQ.fin (a + Qsum l).
Proof.
  induction l as [|q l IH]; intros a; cbn [map fold_left Qsum fold_right].
  - apply fin_eq. ring.
  - fold (Qsum l). rewrite add_fin, IH. apply fin_eq. ring.
Qed.

(** The sum of finite values is the value of their exact sum. *)
Lemma np_sum_fin (l : list Q) : np_sum (map Fin l) = XQ.fin (Qsum l).
Proof.
  unfold np_sum. change (fold_left XQ.add (map Fin l) (XQ.fin 0)
                         = XQ.fin (Qsum l)).
  rewrite fold_add. apply fin_eq. ring.
Qed.

Lemma div_fin (a b : Q) :
  ~ b == 0 -> XQ.div (XQ.fin a) (XQ.fin b) = XQ.fin (a / b).
Proof.
  intros Hb. unfold XQ.fin. cbn [XQ.div]. rewrite sign_Qred.
  destruct (XQ.sign b) eqn:E.
  - apply sign_eq_iff in E. contradiction.
  - unfold XQ.fin. f_equal. apply Qred_complete. now rewrite !Qred_correct.
  - unfold XQ.fin. f_equal. apply Qred_complete. now rewrite !Qred_correct.
Qed.

Lemma Qsum_ext {A} (f g : A -> Q) (l : list A) :
  (forall x, f x == g x) -> Qsum (map f l) == Qsum (map g l).
Proof.
  intros H. induction l as [|x l IH]; simpl; [reflexivity|].
  now rewrite H, IH.
Qed.

Lemma Qsum_div {A} (f : A -> Q) (t : Q) (l : list A) :
  ~ t == 0 -> Qsum (map (fun x => f x / t) l) == Qsum (map f l) / t.
Proof.
  intros Ht. induction l as [|x l IH]; simpl.
  - field. assumption.
  - rewrite IH. field. assumption.
Qed.

Lemma Qsum_plus {A} (f g : A -> Q) (l : list A) :
  Qsum (map (fun x => f x + g x) l) == Qsum (map f l) + Qsum (map g l).
Proof.
  induction l as [|x l IH]; simpl; [ring|]. rewrite IH. ring.
Qed.

Lemma Qsum_zero {A} (l : list A) : Qsum (map (fun _ => 0) l) == 0.
Proof. induction l as [|x l IH]; simpl; [reflexivity|]. rewrite IH. ring. Qed.

Lemma Qsum_nth (r : list Q) :
  Qsum (map (fun j => nth j r 0) (seq 0 (length r))) == Qsum r.
Proof.
  assert (G : forall k, map (fun j => nth j r 0) (seq k (length r - k))
                        = skipn k r).
  { intros k. remember (length r - k)%nat as m eqn:Hm.
    revert k Hm. induction m as [|m IH]; intros k Hm.
    - rewrite skipn_all2 by lia. reflexivity.
    - cbn [seq map]. rewrite IH by lia.
      assert (Hk : (k < length r)%nat) by lia.
      clear - Hk. revert k Hk. induction r as [|x r IHr]; intros k Hk;
        [simpl in Hk; lia|].
      destruct k; [reflexivity|]. simpl. apply IHr. simpl in Hk. lia. }
  specialize (G 0%nat). rewrite Nat.sub_0_r in G. now rewrite G.
Qed.

(** Summing the columns or summing the rows gives the same total. *)
Lemma Qsum_exchange c (qs : list (list Q)) :
  Forall (fun r => length r = c) qs ->
  Qsum (map (fun j => Qcolsum j qs) (seq 0 c)) == Qtotal qs.
Proof.
  unfold Qcolsum, Qtotal. induction 1 as [|r qs Hr _ IH]; cbn [map Qsum fold_right].
  - apply Qsum_zero.
  - fold (Qsum (map Qsum qs)).
    rewrite (Qsum_plus (fun j => nth j r 0)
               (fun j => Qsum (map (fun r => nth j r 0) qs))).
    unfold Qsum at 3 in IH. rewrite <- IH.
    rewrite <- Hr at 1. now rewrite Qsum_nth.
Qed.

End XQFacts.

Module HostDeviceClaims.

Import XQFacts.
Local Open Scope Q_scope.

(** The law of scaling by zero, in exact arithmetic. *)
Lemma scale_by_zero (a x : xq) :
  eq0 a = true -> isfinite x = true ->
  fadd zero (fmul a x) = zero /\ fadd zero (fmul x a) = zero.
Proof.
  destruct a as [q| | |]; try discriminate.
  destruct x as [r| | |]; try discriminate.
  cbn [eq0 xq_arith XQ.eq0]. intros Hq _.
  assert (Hz : q == 0).
  { apply sign_eq_iff. now destruct (XQ.sign q). }
  assert (E1 : Qred (q * r) = 0).
  { change 0 with (Qred 0). apply Qred_complete. rewrite Hz. ring. }
  assert (E2 : Qred (r * q) = 0).
  { change 0 with (Qred 0). apply Qred_complete. rewrite Hz. ring. }
  cbn [fadd fmul zero xq_arith XQ.mul XQ.fin]. unfold XQ.fin.
  rewrite E1, E2. split; reflexivity.
Qed.

(** The same law in an arithmetic that rounds 0 to 0, float32 among
    them. *)
Lemma rounded_scale_by_zero (rnd : Q -> xq) (a x : xq) :
  (forall q, q == 0 -> rnd q = Fin 0) ->
  @eq0 xq (Rounded.arith rnd) a = true ->
  @isfinite xq (Rounded.arith rnd) x = true ->
  @fadd xq (Rounded.arith rnd) (Fin 0) (@fmul xq (Rounded.arith rnd) a x)
  = Fin 0
  /\ @fadd xq (Rounded.arith rnd) (Fin 0)
       (@fmul xq (Rounded.arith rnd) x a) = Fin 0.
Proof.
  intros Hzero.
  destruct a as [q| | |]; try discriminate.
  destruct x as [r| | |]; try discriminate.
  cbn [eq0 Rounded.arith XQ.eq0]. intros Hq _.
  assert (Hz : q == 0).
  { apply sign_eq_iff. now destruct (XQ.sign q). }
  cbn [fadd fmul Rounded.arith Rounded.mul].
  rewrite (Hzero (q * r)) by (rewrite Hz; ring).
  rewrite (Hzero (r * q)) by (rewrite Hz; ring).
  cbn [Rounded.add]. rewrite (Hzero (0 + 0)) by reflexivity.
  split; reflexivity.
Qed.

(** The claim as stated fails on a chunk of one cell without any read:
    the per-cell expectation is the single number 0 and every entry of
    the per-region expectation is 0/0.  The host scales the NaN row of
    [e_region . match] by the scalar 0 and returns zeros; the accelerator
    multiplies 0 by NaN and returns NaN. *)
Lemma C6_zero_scalar_counterexample :
  exists eo ev host device,
    compute_expectation Inputs.empty_chunk false = (eo, ev)
    /\ eo = Mat 1 [[Fin 0]] /\ ev = Mat 3 [[NaN; NaN; NaN]]
    /\ Blas._compute_deviations
         (Scenario.motif_match, Inputs.empty_chunk, eo, ev) = Ok host
    /\ _compute_deviations_gpu
         (Scenario.motif_match, todense Inputs.empty_chunk, eo, ev)
       = Ok device
    /\ host = Mat 2 [[Fin 0; Fin 0]]
    /\ device = Mat 2 [[NaN; NaN]]
    /\ host <> device.
Proof.
  do 4 eexists. split; [vm_compute; reflexivity|].
  split; [reflexivity|]. split; [reflexivity|].
  split; [vm_compute; reflexivity|]. split; [vm_compute; reflexivity|].
  split; [reflexivity|]. split; [reflexivity|]. discriminate.
Qed.

End HostDeviceClaims.

(** ** Rounding errors *)

Module RoundingFacts.

Local Open Scope Q_scope.

Lemma Qpow_pos (q : Q) k : 0 < q -> 0 < Qpow q k.
Proof.
  intros Hq. induction k as [|k IH]; cbn [Qpow]; [reflexivity|].
  now apply Qmult_lt_0_compat.
Qed.

Lemma Qpow_ge_1 (q : Q) k : 1 <= q -> 1 <= Qpow q k.
Proof.
  intros Hq. induction k as [|k IH]; cbn [Qpow]; [apply Qle_refl|].
  nra.
Qed.

Lemma Qpow_le_1 (q : Q) k : 0 <= q <= 1 -> 0 <= Qpow q k <= 1.
Proof.
  intros Hq. induction k as [|k IH]; cbn [Qpow]; [lra|]. nra.
Qed.

Lemma Qpow_mono (q : Q) k k' :
  1 <= q -> (k <= k')%nat -> Qpow q k <= Qpow q k'.
Proof.
  intros Hq Hk. induction Hk as [|k' Hk IH]; [apply Qle_refl|].
  cbn [Qpow]. pose proof (Qpow_ge_1 k' Hq). nra.
Qed.

Lemma Qpow_anti (q : Q) k k' :
  0 <= q <= 1 -> (k <= k')%nat -> Qpow q k' <= Qpow q k.
Proof.
  intros Hq Hk. induction Hk as [|k' Hk IH]; [apply Qle_refl|].
  cbn [Qpow]. pose proof (Qpow_le_1 k' Hq). nra.
Qed.

Lemma Qdiv_le_cross (a b c d : Q) :
  0 < b -> 0 < d -> a * d <= c * b -> a / b <= c / d.
Proof.
  intros Hb Hd H. apply Qle_shift_div_l; [exact Hd|].
  setoid_replace (a / b * d) with (a * d / b) by (field; lra).
  apply Qle_shift_div_r; [exact Hb|exact H].
Qed.

Lemma Qsum_ge_0 (l : list Q) : Forall (fun q => 0 <= q) l -> 0 <= Qsum l.
Proof.
  induction 1 as [|q l Hq _ IH]; cbn [Qsum fold_right]; [lra|].
  fold (Qsum l). lra.
Qed.

Lemma Qsum_elem_le (l : list Q) (x : Q) :
  Forall (fun q => 0 <= q) l -> In x l -> x <= Qsum l.
Proof.
  induction 1 as [|q l Hq Hl IH]; intros Hin; [contradiction|].
  cbn [Qsum fold_right]. fold (Qsum l).
  pose proof (Qsum_ge_0 Hl). destruct Hin as [->|Hin]; [lra|].
  specialize (IH Hin). lra.
Qed.

Lemma Qsum_le_map {A} (f g : A -> Q) (l : list A) :
  (forall x, In x l -> f x <= g x) -> Qsum (map f l) <= Qsum (map g l).
Proof.
  induction l as [|x l IH]; intros H; cbn [map Qsum fold_right]; [lra|].
  fold (Qsum (map f l)) (Qsum (map g l)).
  assert (f x <= g x) by (apply H; now left).
  assert (Qsum (map f l) <= Qsum (map g l))
    by (apply IH; intros y Hy; apply H; now right).
  lra.
Qed.

Lemma Qsum_mult_l {A} (f : A -> Q) (k : Q) (l : list A) :
  Qsum (map (fun x => k * f x) l) == k * Qsum (map f l).
Proof.
  induction l as [|x l IH]; cbn [map Qsum fold_right]; [ring|].
  fold (Qsum (map (fun x => k * f x) l)) (Qsum (map f l)).
  rewrite IH. ring.
Qed.

Lemma entries_nonneg (amin : Q) (r : list Q) :
  0 < amin -> Forall (fun q => q == 0 \/ amin <= q) r ->
  Forall (fun q => 0 <= q) r.
Proof.
  intros Ha H. eapply Forall_impl; [|exact H].
  intros q [E|E]; [rewrite E|]; lra.
Qed.

Lemma row_le_total (qs : list (list Q)) (r : list Q) :
  Forall (Forall (fun q => 0 <= q)) qs -> In r qs -> Qsum r <= Qtotal qs.
Proof.
  intros H Hr. unfold Qtotal. apply Qsum_elem_le.
  - apply Forall_forall. intros x Hx. apply in_map_iff in Hx.
    destruct Hx as (r' & <- & Hr'). apply Qsum_ge_0.
    rewrite Forall_forall in H. now apply H.
  - apply in_map_iff. now exists r.
Qed.

Lemma column_entries {P : Q -> Prop} (qs : list (list Q)) c j :
  Forall (fun r => length r = c) qs -> (j < c)%nat ->
  Forall (Forall P) qs -> Forall P (map (fun r => nth j r 0) qs).
Proof.
  intros Hwf Hj H. apply Forall_forall. intros x Hx.
  apply in_map_iff in Hx. destruct Hx as (r & <- & Hr).
  rewrite Forall_forall in H, Hwf. specialize (H r Hr).
  rewrite Forall_forall in H. apply H, nth_In. rewrite (Hwf r Hr). exact Hj.
Qed.

Lemma col_le_total (qs : list (list Q)) c j :
  Forall (fun r => length r = c) qs -> (j < c)%nat ->
  Forall (Forall (fun q => 0 <= q)) qs -> Qcolsum j qs <= Qtotal qs.
Proof.
  intros Hwf Hj H. rewrite <- (XQFacts.Qsum_exchange Hwf).
  apply (Qsum_elem_le (l := map (fun j => Qcolsum j qs) (seq 0 c))).
  - apply Forall_forall. intros x Hx. apply in_map_iff in Hx.
    destruct Hx as (k & <- & Hk). apply in_seq in Hk.
    unfold Qcolsum. apply Qsum_ge_0.
    apply (column_entries Hwf); [lia|exact H].
  - apply in_map_iff. exists j. split; [reflexivity|]. apply in_seq. lia.
Qed.

Lemma nth_seq_map {A} (f : nat -> A) (d : A) c j :
  (j < c)%nat -> nth j (map f (seq 0 c)) d = f j.
Proof.
  intros Hj. rewrite (nth_indep _ d (f 0%nat))
    by now rewrite length_map, length_seq.
  rewrite (map_nth f). now rewrite seq_nth.
Qed.

Section Rounding.

Variable rnd : Q -> xq.
Variables u lo hi amin total : Q.
Variable K : nat.
Hypothesis Hrnd : rounds rnd u lo hi.
Hypothesis Hu : 0 <= u < 1.
Hypothesis Hamin : 0 < amin.
Hypothesis Hrange : in_range u lo hi K amin total.

Lemma approx_bounds k x' x :
  approx u amin k x' x ->
  0 <= x /\ Qpow (1 - u) k * x <= x' <= Qpow (1 + u) k * x.
Proof.
  intros [[Hx Hx']|[Hx Hb]].
  - rewrite Hx, Hx'. lra.
  - split; [lra|exact Hb].
Qed.

Lemma approx_weaken k k' x' x :
  (k <= k')%nat -> approx u amin k x' x -> approx u amin k' x' x.
Proof.
  intros Hk [H|[Hx [H1 H2]]]; [now left|right].
  split; [exact Hx|].
  assert (HP : Qpow (1 + u) k <= Qpow (1 + u) k')
    by (apply Qpow_mono; [lra|exact Hk]).
  assert (HM : Qpow (1 - u) k' <= Qpow (1 - u) k)
    by (apply Qpow_anti; [lra|exact Hk]).
  split; nra.
Qed.

Lemma approx_exact x : x == 0 \/ amin <= x -> approx u amin 0 x x.
Proof.
  intros [H|H]; [left; now split|right].
  split; [exact H|]. cbn [Qpow]. lra.
Qed.

(** One rounded addition. *)
Lemma round_sum k a' a x' x :
  approx u amin k a' a -> approx u amin k x' x ->
  (S k <= K)%nat -> a + x <= total ->
  exists r, rnd (a' + x') = Fin r /\ approx u amin (S k) r (a + x).
Proof.
  intros Ha Hx Hk Hsum.
  destruct Hrnd as [Hzero Hround].
  destruct Hrange as (R1 & R2 & _ & _).
  assert (HPk : 1 <= Qpow (1 + u) k) by (apply Qpow_ge_1; lra).
  assert (HMk : 0 < Qpow (1 - u) k) by (apply Qpow_pos; lra).
  assert (HP : Qpow (1 + u) k <= Qpow (1 + u) K)
    by (apply Qpow_mono; [lra|lia]).
  assert (HM : Qpow (1 - u) K <= Qpow (1 - u) k)
    by (apply Qpow_anti; [lra|lia]).
  destruct (approx_bounds Ha) as (Ha0 & Ha1 & Ha2).
  destruct (approx_bounds Hx) as (Hx0 & Hx1 & Hx2).
  assert (Hcase : (a + x == 0 /\ a' + x' == 0) \/ amin <= a + x).
  { destruct Ha as [[E1 E2]|[E1 _]]; [|right; lra].
    destruct Hx as [[E3 E4]|[E3 _]]; [|right; lra].
    left. rewrite E1, E2, E3, E4. split; reflexivity. }
  destruct Hcase as [[E E']|Hge].
  - exists 0. split; [now apply Hzero|]. left. split; [exact E|reflexivity].
  - assert (Hin : lo <= a' + x' <= hi) by (split; nra).
    destruct (Hround _ Hin) as (r & Hr & Hr1 & Hr2).
    exists r. split; [exact Hr|]. right. split; [exact Hge|].
    cbn [Qpow]. split; nra.
Qed.

Lemma approx_eq k x' x y :
  x == y -> approx u amin k x' x -> approx u amin k x' y.
Proof.
  intros E [[H1 H2]|[H1 H2]]; [left|right]; rewrite <- E; now split.
Qed.

Lemma approx_nonneg_sum k (l' l : list Q) :
  Forall2 (approx u amin k) l' l -> 0 <= Qsum l.
Proof.
  induction 1 as [|x' x l' l Hx _ IH]; cbn [Qsum fold_right]; [lra|].
  fold (Qsum l). destruct (approx_bounds Hx) as [H0 _]. lra.
Qed.

(** A sum of approximations taken from left to right. *)
Lemma fold_sum k0 (l' l : list Q) :
  Forall2 (approx u amin k0) l' l ->
  forall k a' a,
    (k0 <= k)%nat -> approx u amin k a' a ->
    (k + length l <= K)%nat -> a + Qsum l <= total ->
    exists r,
      fold_left (Rounded.add rnd) (map Fin l') (Fin a') = Fin r
      /\ approx u amin (k + length l) r (a + Qsum l).
Proof.
  induction 1 as [|x' x l' l Hx Hl IH]; intros k a' a Hk Ha HK Hsum.
  - exists a'. split; [reflexivity|].
    cbn [length Qsum fold_right]. rewrite Nat.add_0_r.
    apply (@approx_eq k a' a); [ring|exact Ha].
  - cbn [Qsum fold_right length] in *. fold (Qsum l) in *.
    pose proof (approx_nonneg_sum Hl) as Hl0.
    destruct (approx_bounds Ha) as [Ha0 _].
    destruct (approx_bounds Hx) as [Hx0 _].
    destruct (@round_sum k a' a x' x Ha (approx_weaken Hk Hx))
      as (r1 & Hr1 & Hap); [lia|lra|].
    destruct (IH (S k) r1 (a + x)) as (r & Hr & Hfin);
      [lia|exact Hap|lia|lra|].
    exists r. split.
    + cbn [map fold_left]. cbn [Rounded.add]. rewrite Hr1. exact Hr.
    + replace (k + S (length l))%nat with (S k + length l)%nat by lia.
      apply (@approx_eq (S k + length l) r (a + x + Qsum l)); [ring|exact Hfin].
Qed.

Lemma Forall2_diag {A} (R : A -> A -> Prop) (P : A -> Prop) (l : list A) :
  (forall x, P x -> R x x) -> Forall P l -> Forall2 R l l.
Proof.
  intros H. induction 1; constructor; auto.
Qed.

Lemma Forall2_map_pointwise {A B C} (R : B -> C -> Prop) (f : A -> B)
  (g : A -> C) (l : list A) :
  (forall x, In x l -> R (f x) (g x)) -> Forall2 R (map f l) (map g l).
Proof.
  induction l as [|x l IH]; intros H; cbn [map]; constructor.
  - apply H. now left.
  - apply IH. intros y Hy. apply H. now right.
Qed.

(** [np.sum] of exact values in the rounded arithmetic. *)
Lemma np_sum_rounded (row : list Q) :
  Forall (fun q => q == 0 \/ amin <= q) row ->
  (length row <= K)%nat -> Qsum row <= total ->
  exists r,
    @np_sum xq (Rounded.arith rnd) (map Fin row) = Fin r
    /\ approx u amin (length row) r (Qsum row).
Proof.
  intros Hrow Hlen Hsum.
  assert (H2 : Forall2 (approx u amin 0) row row)
    by (apply (Forall2_diag _ approx_exact), Hrow).
  destruct (@fold_sum 0 row row H2 0%nat 0 0) as (r & Hr & Hap).
  - lia.
  - left. split; reflexivity.
  - exact Hlen.
  - lra.
  - exists r. split; [exact Hr|].
    apply (@approx_eq (0 + length row) r (0 + Qsum row)); [ring|exact Hap].
Qed.

(** A sum of rounded sums. *)
Lemma np_sum_approx k (l' l : list Q) :
  Forall2 (approx u amin k) l' l ->
  (k + length l <= K)%nat -> Qsum l <= total ->
  exists r,
    @np_sum xq (Rounded.arith rnd) (map Fin l') = Fin r
    /\ approx u amin (k + length l) r (Qsum l).
Proof.
  intros H2 Hlen Hsum.
  destruct (@fold_sum k l' l H2 k 0 0) as (r & Hr & Hap).
  - lia.
  - left. split; reflexivity.
  - exact Hlen.
  - lra.
  - exists r. split; [exact Hr|].
    apply (@approx_eq (k + length l) r (0 + Qsum l)); [ring|exact Hap].
Qed.

(** One rounded quotient of a rounded sum by the rounded total. *)
Lemma round_quotient (n c : nat) (s' s t' : Q) :
  (n + c + 1 <= K)%nat -> 0 < total ->
  approx u amin n s' s -> s <= total ->
  approx u amin (n + c) t' total ->
  exists e,
    Rounded.div rnd (Fin s') (Fin t') = Fin e
    /\ tol_lo u n c * (s / total) <= e <= tol_hi u n c * (s / total).
Proof.
  intros HK Htot Hs Hle Ht.
  destruct Hrnd as [Hzero Hround].
  destruct Hrange as (R1 & R2 & R3 & R4).
  assert (HPn : 1 <= Qpow (1 + u) n) by (apply Qpow_ge_1; lra).
  assert (HMn : 0 < Qpow (1 - u) n) by (apply Qpow_pos; lra).
  assert (HPc : 1 <= Qpow (1 + u) (n + c)) by (apply Qpow_ge_1; lra).
  assert (HMc : 0 < Qpow (1 - u) (n + c)) by (apply Qpow_pos; lra).
  assert (HMc1 : Qpow (1 - u) (n + c) <= 1) by (apply Qpow_le_1; lra).
  assert (HMn1 : Qpow (1 - u) n <= 1) by (apply Qpow_le_1; lra).
  assert (HP1 : Qpow (1 + u) n <= Qpow (1 + u) K)
    by (apply Qpow_mono; [lra|lia]).
  assert (HP2 : Qpow (1 + u) (n + c) <= Qpow (1 + u) K)
    by (apply Qpow_mono; [lra|lia]).
  assert (HM1 : Qpow (1 - u) K <= Qpow (1 - u) n)
    by (apply Qpow_anti; [lra|lia]).
  assert (HM2 : Qpow (1 - u) K <= Qpow (1 - u) (n + c))
    by (apply Qpow_anti; [lra|lia]).
  assert (HMK : 0 < Qpow (1 - u) K) by (apply Qpow_pos; lra).
  destruct Ht as [[E _]|(_ & Ht1 & Ht2)]; [rewrite E in Htot; lra|].
  assert (Ht0 : 0 < t') by nra.
  assert (Hsign : XQ.sign t' = Gt) by now apply XQFacts.sign_gt_iff.
  cbn [Rounded.div]. rewrite Hsign.
  unfold tol_lo, tol_hi.
  replace (n + 1)%nat with (S n) by lia. cbn [Qpow].
  destruct Hs as [[E E']|(Hs0 & Hs1 & Hs2)].
  - exists 0. split.
    + apply Hzero. rewrite E'. field. lra.
    + rewrite E. split.
      * apply Qle_lteq. right. field. split; lra.
      * apply Qle_lteq. right. field. split; lra.
  - assert (HB : 0 < Qpow (1 + u) (n + c) * total) by nra.
    assert (HD : 0 < Qpow (1 - u) (n + c) * total) by nra.
    assert (Hs'0 : 0 <= s') by nra.
    assert (Hq1 : Qpow (1 - u) n * s / (Qpow (1 + u) (n + c) * total)
                  <= s' / t').
    { apply Qdiv_le_cross; [exact HB|exact Ht0|].
      apply Qle_trans with (s' * t'); [nra|]. nra. }
    assert (Hq2 : s' / t'
                  <= Qpow (1 + u) n * s / (Qpow (1 - u) (n + c) * total)).
    { apply Qdiv_le_cross; [exact Ht0|exact HD|].
      apply Qle_trans with (s' * t'); [nra|]. nra. }
    assert (Hlo : lo <= Qpow (1 - u) n * s / (Qpow (1 + u) (n + c) * total)).
    { destruct (Qlt_le_dec lo 0) as [Hn|Hp].
      - apply Qle_trans with 0; [lra|].
        apply Qle_shift_div_l; [exact HB|]. nra.
      - apply Qle_shift_div_l; [exact HB|].
        assert (Qpow (1 + u) (n + c) * total <= Qpow (1 + u) K * total)
          by nra.
        apply Qle_trans with (lo * (Qpow (1 + u) K * total)); nra. }
    assert (Hhi : Qpow (1 + u) n * s / (Qpow (1 - u) (n + c) * total) <= hi).
    { apply Qle_shift_div_r; [exact HD|].
      assert (HPK : 1 <= Qpow (1 + u) K) by (apply Qpow_ge_1; lra).
      assert (Hhi0 : 0 < hi) by nra.
      assert (E1 : Qpow (1 + u) n * s <= Qpow (1 + u) K * s) by nra.
      assert (E2 : Qpow (1 + u) K * s <= Qpow (1 + u) K * total) by nra.
      assert (E3 : Qpow (1 + u) K * total <= hi * Qpow (1 - u) K * total)
        by nra.
      assert (E4 : hi * Qpow (1 - u) K <= hi * Qpow (1 - u) (n + c)) by nra.
      assert (E5 : hi * Qpow (1 - u) K * total
                   <= hi * Qpow (1 - u) (n + c) * total) by nra.
      lra. }
    assert (Hin : lo <= s' / t' <= hi) by (split; lra).
    destruct (Hround _ Hin) as (e & He & He1 & He2).
    exists e. split; [exact He|]. split.
    + apply Qle_trans
        with ((1 - u) * (Qpow (1 - u) n * s
                         / (Qpow (1 + u) (n + c) * total))).
      * apply Qle_lteq. right. field. split; lra.
      * apply Qle_trans with ((1 - u) * (s' / t')); [nra|exact He1].
    + apply Qle_trans
        with ((1 + u) * (Qpow (1 + u) n * s
                         / (Qpow (1 - u) (n + c) * total))).
      * apply Qle_trans with ((1 + u) * (s' / t')); [exact He2|nra].
      * apply Qle_lteq. right. field. split; lra.
Qed.

End Rounding.

End RoundingFacts.

(** ** Rounding to the nearest float32 *)

Module F32Facts.

Local Open Scope Q_scope.

Lemma pow2_pos (e : Z) : 0 < 2 ^ e.
Proof. apply Qpower_0_lt. reflexivity. Qed.

Lemma pow2_plus (a b : Z) : 2 ^ (a + b) == 2 ^ a * 2 ^ b.
Proof. apply Qpower_plus. discriminate. Qed.

Lemma pow2_Z (k : Z) : (0 <= k)%Z -> 2 ^ k == inject_Z (2 ^ k).
Proof. intros Hk. symmetry. exact (Zpower_Qpower 2 k Hk). Qed.

(** [rne] is within a half of its argument. *)
Lemma rne_spec (y : Q) :
  y - (1 # 2) <= inject_Z (F32.rne y) <= y + (1 # 2).
Proof.
  unfold F32.rne.
  pose proof (Qfloor_le y) as H1. pose proof (Qlt_floor y) as H2.
  rewrite inject_Z_plus in H2. change (inject_Z 1) with 1 in H2.
  destruct (Qcompare (y - inject_Z (Qfloor y)) (1 # 2)) eqn:C.
  - apply Qeq_alt in C.
    destruct (Z.even (Qfloor y));
      [|rewrite inject_Z_plus; change (inject_Z 1) with 1]; split; lra.
  - apply Qlt_alt in C. split; lra.
  - apply Qgt_alt in C. rewrite inject_Z_plus. change (inject_Z 1) with 1.
    split; lra.
Qed.

(** [2 ^ ilog2 a] is at most [a]. *)
Lemma ilog2_le (a : Q) : 0 < a -> 2 ^ F32.ilog2 a <= a.
Proof.
  intros Ha. unfold F32.ilog2.
  set (e := (Z.log2 (Qnum a) - Z.log2 (Z.pos (Qden a)))%Z).
  destruct (Qle_bool (2 ^ e) a) eqn:T; [now apply Qle_bool_iff|].
  destruct a as [n d]. cbn [Qnum Qden] in e.
  assert (Hn : (0 < n)%Z) by (unfold Qlt in Ha; simpl in Ha; lia).
  destruct (Z.log2_spec n Hn) as [Ln _].
  destruct (Z.log2_spec (Z.pos d) eq_refl) as [_ Ld].
  assert (L0 : (0 <= Z.log2 n)%Z) by apply Z.log2_nonneg.
  assert (L1 : (0 <= Z.log2 (Z.pos d))%Z) by apply Z.log2_nonneg.
  setoid_replace (n # d) with (inject_Z n / inject_Z (Z.pos d))
    by (rewrite (Qmake_Qdiv n d); reflexivity).
  assert (Hd : 0 < inject_Z (Z.pos d)) by reflexivity.
  apply Qle_shift_div_l; [exact Hd|].
  apply Qle_trans with (2 ^ (e - 1) * 2 ^ (Z.succ (Z.log2 (Z.pos d)))).
  - apply Qmult_le_l; [apply pow2_pos|].
    rewrite pow2_Z by lia. rewrite <- Zle_Qle. lia.
  - rewrite <- pow2_plus.
    replace (e - 1 + Z.succ (Z.log2 (Z.pos d)))%Z with (Z.log2 n)
      by (unfold e; lia).
    rewrite pow2_Z by lia. now rewrite <- Zle_Qle.
Qed.

Lemma Qabs_of_pos (x : Q) : 0 < x -> Qabs x = x.
Proof.
  destruct x as [n d]. unfold Qlt, Qabs. simpl. intros H.
  f_equal. apply Z.abs_eq. lia.
Qed.

(** Rounding to the nearest float32 has a relative error of at most
    [2^-24] between the smallest normal number and [2^127]. *)
Theorem round_rounds :
  rounds F32.round (1 # 16777216) (2 ^ (-126)) (2 ^ 127).
Proof.
  split.
  - intros x Hx. unfold F32.round.
    apply XQFacts.sign_eq_iff in Hx. now rewrite Hx.
  - intros x [Hlo Hhi].
    assert (Hx : 0 < x).
    { apply Qlt_le_trans with (2 ^ (-126)); [apply pow2_pos|exact Hlo]. }
    unfold F32.round.
    rewrite (proj2 (XQFacts.sign_gt_iff x) Hx), (Qabs_of_pos Hx).
    set (e := Z.max (F32.ilog2 x) (-126)).
    assert (He : 2 ^ e <= x).
    { unfold e. destruct (Z.max_spec (F32.ilog2 x) (-126)) as [[_ ->]|[_ ->]];
        [exact Hlo|now apply ilog2_le]. }
    set (ulp := 2 ^ (e - 23)).
    assert (Hulp : 0 < ulp) by apply pow2_pos.
    assert (Eulp : ulp == 2 ^ e * (1 # 8388608)).
    { unfold ulp. replace (e - 23)%Z with (e + -23)%Z by lia.
      rewrite pow2_plus. reflexivity. }
    pose proof (rne_spec (x / ulp)) as [R1 R2].
    set (m := inject_Z (F32.rne (x / ulp))) in *.
    assert (Ex : x / ulp * ulp == x) by (field; lra).
    assert (B1 : x - ulp * (1 # 2) <= m * ulp) by nra.
    assert (B2 : m * ulp <= x + ulp * (1 # 2)) by nra.
    assert (Hmax : (1 + (1 # 16777216)) * 2 ^ 127 < 2 ^ 128)
      by (vm_compute; reflexivity).
    assert (P127 : 0 < 2 ^ 127) by apply pow2_pos.
    assert (Pe : 0 < 2 ^ e) by apply pow2_pos.
    destruct (Qle_bool (2 ^ 128) (m * ulp)) eqn:T.
    + apply Qle_bool_iff in T. exfalso. nra.
    + exists (Qred (m * ulp)). split; [reflexivity|].
      rewrite Qred_correct. split; nra.
Qed.

End F32Facts.

Module ExpectationClaims.

Import XQFacts RoundingFacts.
Local Open Scope Q_scope.

Lemma column_finite j (qs : list (list Q)) :
  column (Fin 0) j (map (map Fin) qs) = map Fin (map (fun r => nth j r 0) qs).
Proof.
  unfold column. rewrite !map_map. apply map_ext. intros r.
  apply (map_nth Fin).
Qed.

(** C5, as the code has it (expectation).  In an arithmetic that rounds
    every sum and every quotient with a relative error of at most [u] on
    [[lo, hi]] (float32: [u = 2^-24] from [2^-126] to [2^127]), for a
    count matrix of [n] cells and [c] regions whose entries are finite
    and non-negative, the non-zero ones at least [amin], with a positive
    total and no sum and no quotient out of [[lo, hi]]: [e_region] has
    shape [(1, c)], its entry [j] is the sum of column [j] divided by the
    sum of all the entries within the factors [tol_lo] and [tol_hi], and
    so is the sum of its entries equal to 1; [e_cell] has shape [(n, 1)]
    and its entry [i] is the sum of row [i] within the factors
    [(1 - u)^c] and [(1 + u)^c].  The bounds are those of a sum taken in
    any order; the storage of the counts and the place of the result do
    not matter. *)
Theorem C5_expectation (rnd : Q -> xq) (u lo hi amin : Q)
  (sparse return_torch : bool) (n c : nat) (qs : list (list Q)) :
  rounds rnd u lo hi -> 0 <= u < 1 -> 0 < amin ->
  length qs = n -> Forall (fun r => length r = c) qs ->
  Forall (Forall (fun q => q == 0 \/ amin <= q)) qs ->
  0 < Qtotal qs ->
  in_range u lo hi (n + c + 1) amin (Qtotal qs) ->
  exists (e_cell e_region : list Q),
    @compute_expectation xq (Rounded.arith rnd)
      (Count sparse (finite c qs)) return_torch
    = (Mat 1 (map (fun r => [Fin r]) e_cell), Mat c [map Fin e_region])
    /\ length e_cell = n /\ length e_region = c
    /\ (forall j, (j < c)%nat ->
          tol_lo u n c * (Qcolsum j qs / Qtotal qs) <= nth j e_region 0
          /\ nth j e_region 0 <= tol_hi u n c * (Qcolsum j qs / Qtotal qs))
    /\ tol_lo u n c <= Qsum e_region <= tol_hi u n c
    /\ (forall i, (i < n)%nat ->
          Qpow (1 - u) c * Qsum (nth i qs []) <= nth i e_cell 0
          /\ nth i e_cell 0 <= Qpow (1 + u) c * Qsum (nth i qs [])).
Proof.
  intros Hrnd Hu Hamin Hn Hwf Hent Htot Hrange.
  set (total := Qtotal qs) in *.
  set (K := (n + c + 1)%nat) in *.
  set (AR := Rounded.arith rnd).
  assert (Hnn : Forall (Forall (fun q => 0 <= q)) qs).
  { eapply Forall_impl; [|exact Hent]. intros r. now apply entries_nonneg. }
  (* the column sums *)
  set (col := fun j => @np_sum xq AR (column (Fin 0) j (map (map Fin) qs))).
  assert (Hcol : forall j, (j < c)%nat ->
            col j = Fin (value (col j))
            /\ approx u amin n (value (col j)) (Qcolsum j qs)).
  { intros j Hj. unfold col. rewrite column_finite.
    destruct (@np_sum_rounded rnd u lo hi amin total K Hrnd Hu Hamin Hrange
                (map (fun r => nth j r 0) qs))
      as (r & Hr & Hap).
    - now apply (column_entries Hwf).
    - rewrite length_map. lia.
    - now apply (col_le_total Hwf).
    - rewrite length_map, Hn in Hap. unfold AR. rewrite Hr. now split. }
  set (cols := map (fun j => value (col j)) (seq 0 c)).
  assert (Hcols : map col (seq 0 c) = map Fin cols).
  { unfold cols. rewrite map_map. apply map_ext_in. intros j Hj.
    apply in_seq in Hj. apply Hcol. lia. }
  assert (Hcols2 : Forall2 (approx u amin n) cols
                     (map (fun j => Qcolsum j qs) (seq 0 c))).
  { unfold cols. apply Forall2_map_pointwise. intros j Hj.
    apply in_seq in Hj. apply Hcol. lia. }
  (* their sum *)
  destruct (@np_sum_approx rnd u lo hi amin total K Hrnd Hu Hamin Hrange
              n cols _ Hcols2) as (t' & Ht' & Hapt).
  { rewrite length_map, length_seq. lia. }
  { rewrite (Qsum_exchange Hwf). apply Qle_refl. }
  rewrite length_map, length_seq in Hapt.
  apply (@approx_eq u amin (n + c) t' _ total (Qsum_exchange Hwf)) in Hapt.
  (* the quotients *)
  set (quot := fun j => Rounded.div rnd (Fin (value (col j))) (Fin t')).
  assert (Hquot : forall j, (j < c)%nat ->
            quot j = Fin (value (quot j))
            /\ tol_lo u n c * (Qcolsum j qs / total) <= value (quot j)
            /\ value (quot j) <= tol_hi u n c * (Qcolsum j qs / total)).
  { intros j Hj. unfold quot.
    destruct (@round_quotient rnd u lo hi amin total K Hrnd Hu Hamin Hrange
                n c (value (col j)) (Qcolsum j qs) t')
      as (e & He & He1 & He2).
    - lia.
    - exact Htot.
    - now apply Hcol.
    - now apply (col_le_total Hwf).
    - exact Hapt.
    - rewrite He. cbn [value]. now split. }
  (* the row sums *)
  set (row := fun r : list Q => @np_sum xq AR (map Fin r)).
  assert (Hrow : forall r, In r qs ->
            row r = Fin (value (row r))
            /\ approx u amin c (value (row r)) (Qsum r)).
  { intros r Hr. unfold row.
    rewrite Forall_forall in Hwf, Hent.
    destruct (@np_sum_rounded rnd u lo hi amin total K Hrnd Hu Hamin Hrange r)
      as (v & Hv & Hap).
    - now apply Hent.
    - rewrite (Hwf r Hr). lia.
    - now apply row_le_total.
    - rewrite (Hwf r Hr) in Hap. unfold AR. rewrite Hv. now split. }
  exists (map (fun r => value (row r)) qs),
         (map (fun j => value (quot j)) (seq 0 c)).
  split; [|split; [|split; [|split; [|split]]]].
  - unfold compute_expectation, finite. cbn [todense rows ncols].
    change (@zero xq AR) with (Fin 0).
    fold AR. fold col. rewrite Hcols. fold AR in Ht'. rewrite Ht'.
    assert (E1 : map (fun x => @fdiv xq AR x (Fin t')) (map Fin cols)
                 = map Fin (map (fun j => value (quot j)) (seq 0 c))).
    { unfold cols. rewrite !map_map. apply map_ext_in. intros j Hj.
      apply in_seq in Hj. apply Hquot. lia. }
    assert (E2 : map (fun r => [@np_sum xq AR r]) (map (map Fin) qs)
                 = map (fun r => [Fin r]) (map (fun r => value (row r)) qs)).
    { rewrite !map_map. apply map_ext_in. intros r Hr. f_equal.
      now apply Hrow. }
    rewrite E1, E2. now destruct return_torch.
  - now rewrite length_map.
  - now rewrite length_map, length_seq.
  - intros j Hj. rewrite (nth_seq_map (fun j => value (quot j)) 0 Hj).
    now apply Hquot.
  - assert (Hsum : Qsum (map (fun j => Qcolsum j qs / total) (seq 0 c)) == 1).
    { rewrite Qsum_div by lra. rewrite (Qsum_exchange Hwf).
      fold total. field. lra. }
    split.
    + apply Qle_trans
        with (Qsum (map (fun j => tol_lo u n c * (Qcolsum j qs / total))
                      (seq 0 c))).
      * rewrite (Qsum_mult_l (fun j => Qcolsum j qs / total)), Hsum.
        apply Qle_lteq. right. ring.
      * apply Qsum_le_map. intros j Hj. apply in_seq in Hj.
        apply Hquot. lia.
    + apply Qle_trans
        with (Qsum (map (fun j => tol_hi u n c * (Qcolsum j qs / total))
                      (seq 0 c))).
      * apply Qsum_le_map. intros j Hj. apply in_seq in Hj.
        apply Hquot. lia.
      * rewrite (Qsum_mult_l (fun j => Qcolsum j qs / total)), Hsum.
        apply Qle_lteq. right. ring.
  - intros i Hi.
    rewrite (nth_indep _ 0 (value (row []))) by (rewrite length_map; lia).
    rewrite (map_nth (fun r => value (row r))).
    assert (Hin : In (nth i qs []) qs) by (apply nth_In; lia).
    destruct (Hrow _ Hin) as [_ Hap].
    destruct (approx_bounds Hamin Hap) as (_ & H1 & H2). now split.
Qed.


(** The claim as stated fails in float32 on a count matrix without any
    read, where every entry of [e_region] is 0/0, and on one whose
    entries are finite but whose total overflows: [e_cell] is infinite
    and [e_region] is 0 everywhere, so its entries sum to 0. *)
Lemma C5_degenerate_total_counterexample :
  (exists e_cell e_region,
     @compute_expectation xq f32_arith Scenario.no_reads false
     = (e_cell, Mat 2 [e_region])
     /\ e_region = [NaN; NaN]
     /\ @np_sum xq f32_arith e_region <> Fin 1)
  /\ (exists e_cell e_region,
        @compute_expectation xq f32_arith
          (Count false (finite 2 [[2 ^ 127; 2 ^ 127]])) false
        = (Mat 1 e_cell, Mat 2 [e_region])
        /\ e_cell = [[PInf]]
        /\ e_region = [Fin 0; Fin 0]
        /\ @np_sum xq f32_arith e_region <> Fin 1).
Proof.
  split.
  - do 2 eexists. split; [vm_compute; reflexivity|].
    split; [reflexivity|]. vm_compute. discriminate.
  - do 2 eexists. split; [vm_compute; reflexivity|].
    split; [reflexivity|]. split; [reflexivity|]. vm_compute. discriminate.
Qed.

End ExpectationClaims.

Section NormaliseFacts.

Context {num : Type} {AR : Arith num}.

Local Abbreviation mat := (matrix num).

Lemma reduce_axis0_entry (f : list num -> num) r c (t : list mat) i j :
  i < r -> j < c -> entry (reduce_axis0 f r c t) i j = f (fibre t i j).
Proof.
  intros Hi Hj. unfold entry, reduce_axis0. cbn [rows].
  rewrite (nth_indep _ [] (map (fun j => f (fibre t 0 j)) (seq 0 c)))
    by now rewrite length_map, length_seq.
  rewrite (map_nth (fun i => map (fun j => f (fibre t i j)) (seq 0 c))).
  rewrite seq_nth by assumption. cbn [Nat.add].
  rewrite (nth_indep _ zero (f (fibre t i 0)))
    by now rewrite length_map, length_seq.
  rewrite (map_nth (fun j => f (fibre t i j))).
  now rewrite seq_nth by assumption.
Qed.

Lemma reduce_axis0_wf (f : list num -> num) r c (t : list mat) :
  wf_mat (reduce_axis0 f r c t).
Proof.
  unfold wf_mat, reduce_axis0. cbn [rows ncols]. apply Forall_forall.
  intros x Hx. apply in_map_iff in Hx. destruct Hx as (i & <- & _).
  now rewrite length_map, length_seq.
Qed.

(** An entry of the normalisation is the centred observation divided by
    the standard deviation of the background ensemble. *)
Lemma normalise_entry gpu (obs : mat) r c (bg : list mat) :
  wf_mat obs -> nrows obs = r -> ncols obs = c ->
  exists z,
    normalise gpu obs r c bg = Ok z
    /\ forall i j, i < r -> j < c ->
         entry z i j
         = fdiv (fsub (entry obs i j) (np_mean (fibre bg i j)))
             (entry (std_bg gpu r c bg) i j).
Proof.
  intros Hwf Hr Hc. eexists. split; [now apply normalise_ok|].
  intros i j Hi Hj. unfold entry at 1. cbn [rows].
  destruct (reduce_axis0_shape np_mean r c bg) as [Hmr Hmc].
  destruct (std_bg_shape gpu r c bg) as [Hsr Hsc].
  pose proof (reduce_axis0_wf np_mean r c bg) as Hmwf.
  assert (Hswf : wf_mat (std_bg gpu r c bg))
    by (unfold std_bg; destruct gpu; apply reduce_axis0_wf).
  fold (mean_bg r c bg) in Hmr, Hmc, Hmwf.
  assert (Li : i < nrows obs) by lia.
  assert (Lm : i < nrows (mean_bg r c bg)) by lia.
  assert (Ls : i < nrows (std_bg gpu r c bg)) by lia.
  pose proof (wf_nth_length Hwf Li) as Lo.
  pose proof (wf_nth_length Hmwf Lm) as Lmm.
  pose proof (wf_nth_length Hswf Ls) as Lss.
  rewrite (nth_zip_with _ _ _ [] [] []);
    [|rewrite zip_with_length; unfold nrows in *; lia|exact Ls].
  rewrite (nth_zip_with _ _ _ [] [] []); [|exact Li|exact Lm].
  rewrite (nth_zip_with _ _ _ zero zero zero);
    [|rewrite zip_with_length; lia|lia].
  rewrite (nth_zip_with _ _ _ zero zero zero); [|lia|lia].
  fold (entry obs i j) (entry (mean_bg r c bg) i j)
    (entry (std_bg gpu r c bg) i j).
  unfold mean_bg. now rewrite reduce_axis0_entry.
Qed.

(** The host path normalises with the mean and the population standard
    deviation of the background ensemble [bg_dev[:, i, j]]. *)
Lemma host_std_is_population r c (bg_dev : list mat) i j :
  i < r -> j < c ->
  entry (mean_bg r c bg_dev) i j
  = fdiv (np_sum (fibre bg_dev i j)) (of_nat (length bg_dev))
  /\ entry (std_bg false r c bg_dev) i j = population_std (fibre bg_dev i j).
Proof.
  intros Hi Hj. unfold mean_bg, std_bg.
  rewrite !reduce_axis0_entry by assumption. split.
  - unfold np_mean, fibre. now rewrite length_map.
  - unfold np_std, population_std, variance, np_mean.
    now rewrite Nat.sub_0_r.
Qed.

(** The device path takes the root of the sum of squared deviations
    divided by one less than the number of samples. *)
Lemma gpu_std_is_corrected r c (bg_dev : list mat) i j :
  i < r -> j < c ->
  entry (std_bg true r c bg_dev) i j
  = let l := fibre bg_dev i j in
    let mean := fdiv (np_sum l) (of_nat (length l)) in
    fsqrt (fdiv (np_sum (map (fun x => fmul (fsub x mean) (fsub x mean)) l))
             (of_nat (length l - 1))).
Proof.
  intros Hi Hj. unfold std_bg. now rewrite reduce_axis0_entry by assumption.
Qed.

End NormaliseFacts.

Module NormalisationClaims.

Import XQFacts.
Local Open Scope Q_scope.

Lemma div_fin_any (a b : Q) :
  ~ b == 0 -> XQ.div (Fin a) (Fin b) = XQ.fin (a / b).
Proof.
  intros Hb. cbn [XQ.div]. destruct (XQ.sign b) eqn:E; try reflexivity.
  apply sign_eq_iff in E. contradiction.
Qed.


Lemma inject_nat_nonzero n : (0 < n)%nat -> ~ inject_Z (Z.of_nat n) == 0.
Proof. intros Hn. unfold Qeq. simpl. lia. Qed.

Lemma Qsum_repeat (b : Q) n :
  Qsum (repeat b n) == inject_Z (Z.of_nat n) * b.
Proof.
  induction n as [|n IH].
  - simpl. ring.
  - cbn [repeat Qsum fold_right]. fold (Qsum (repeat b n)). rewrite IH.
    rewrite Nat2Z.inj_succ. unfold Z.succ. rewrite inject_Z_plus. ring.
Qed.

Lemma mean_constant (b : Q) n :
  (0 < n)%nat -> np_mean (repeat (Fin b) n) = XQ.fin b.
Proof.
  intros Hn. unfold np_mean.
  rewrite repeat_length, <- (map_repeat b n Fin), np_sum_fin.
  change (XQ.div (Fin (Qred (Qsum (repeat b n))))
            (Fin (inject_Z (Z.of_nat n))) = XQ.fin b).
  pose proof (inject_nat_nonzero Hn) as Hz.
  rewrite div_fin_any by assumption. apply fin_eq.
  rewrite Qred_correct, Qsum_repeat. field. assumption.
Qed.

Lemma centred_constant (b : Q) :
  XQ.mul (XQ.sub (Fin b) (XQ.fin b)) (XQ.sub (Fin b) (XQ.fin b)) = Fin 0.
Proof.
  assert (E : XQ.sub (Fin b) (XQ.fin b) = Fin 0).
  { unfold XQ.sub, XQ.fin. cbn [XQ.neg XQ.add]. change (Fin 0) with (XQ.fin 0).
    apply fin_eq. unfold XQ.fin. rewrite !Qred_correct. ring. }
  rewrite E. reflexivity.
Qed.

(** The variance of a constant ensemble is exactly 0 as soon as the
    divisor [n - ddof] is not. *)
Lemma variance_constant ddof (b : Q) n :
  (ddof < n)%nat -> variance ddof (repeat (Fin b) n) = Fin 0.
Proof.
  intros Hn. unfold variance. rewrite mean_constant by lia.
  rewrite map_repeat, repeat_length.
  change (fmul (fsub (Fin b) (XQ.fin b)) (fsub (Fin b) (XQ.fin b)))
    with (XQ.mul (XQ.sub (Fin b) (XQ.fin b)) (XQ.sub (Fin b) (XQ.fin b))).
  rewrite centred_constant.
  rewrite <- (map_repeat 0 n Fin), np_sum_fin.
  change (XQ.div (Fin (Qred (Qsum (repeat 0 n))))
            (Fin (inject_Z (Z.of_nat (n - ddof)))) = Fin 0).
  rewrite div_fin_any by (apply inject_nat_nonzero; lia).
  change (Fin 0) with (XQ.fin 0). apply fin_eq.
  rewrite Qred_correct, Qsum_repeat. field.
  apply inject_nat_nonzero. lia.
Qed.

Lemma std_constant (gpu : bool) (b : Q) n :
  ((if gpu then 2 else 1) <= n)%nat ->
  (if gpu then torch_std else np_std) (repeat (Fin b) n) = Fin 0.
Proof.
  intros Hn. destruct gpu; unfold torch_std, np_std;
    rewrite variance_constant by lia; reflexivity.
Qed.


Lemma nan_to_num_entry (z : matrix xq) i j :
  entry (nan_to_num z) i j = nan_to_num1 (entry z i j).
Proof.
  unfold entry, nan_to_num, map_mat. cbn [rows].
  change (@nil xq) with (map (@nan_to_num1 xq xq_arith) []) at 1.
  rewrite (map_nth (map nan_to_num1)).
  change (@zero xq xq_arith) with (@nan_to_num1 xq xq_arith (Fin 0)) at 1.
  now rewrite (map_nth nan_to_num1).
Qed.




End NormalisationClaims.

(** ** The scenarios, evaluated *)

Module ScenarioClaims.

Import Scenario.

(** C2, on the device path.  With two background samples (the identity
    and the rotation) the ensemble of cell 0 for feature 1 is
    [[-1, 1/3]]: its mean is [-1/3], its population standard deviation is
    [2/3], and that is what the host path normalises with; the device
    path takes the root of [8/9], the squared deviations divided by
    [n - 1 = 1].  With the single sample of the end-to-end scenario the
    device path divides by [n - 1 = 0] and its standard deviation is NaN
    where the population standard deviation is 0. *)
Theorem C2_device_std_is_not_population :
  (exists adata names obs_dev bg_dev,
     snd (accumulate (An (with_bg two_samples)) 10000 true)
     = Ok (adata, names, obs_dev, bg_dev)
     /\ fibre bg_dev 0 1 = [Fin (-1); Fin (1 # 3)]
     /\ entry (mean_bg 2 2 bg_dev) 0 1 = Fin (-1 # 3)
     /\ population_std (fibre bg_dev 0 1) = Fin (2 # 3)
     /\ entry (std_bg false 2 2 bg_dev) 0 1 = Fin (2 # 3)
     /\ variance 1 (fibre bg_dev 0 1) = Fin (8 # 9)
     /\ entry (std_bg true 2 2 bg_dev) 0 1 = XQ.sqrt (Fin (8 # 9))
     /\ entry (std_bg true 2 2 bg_dev) 0 1
        <> population_std (fibre bg_dev 0 1))
  /\ (exists adata names obs_dev bg_dev,
        snd (accumulate (An Scenario.adata) 10000 true)
        = Ok (adata, names, obs_dev, bg_dev)
        /\ population_std (fibre bg_dev 0 0) = Fin 0
        /\ entry (std_bg false 2 2 bg_dev) 0 0 = Fin 0
        /\ entry (std_bg true 2 2 bg_dev) 0 0 = NaN).
Proof.
  split.
  - do 4 eexists. split; [vm_compute; reflexivity|].
    repeat (split; [vm_compute; reflexivity|]).
    vm_compute. discriminate.
  - do 4 eexists. split; [vm_compute; reflexivity|].
    repeat (split; [vm_compute; reflexivity|]).
    vm_compute. reflexivity.
Qed.

(** The output of the two paths on the two-sample input: the host gives
    [-1] for cell 0 and feature 1, the device a value that is not. *)
Lemma C2_outputs_differ :
  exists host device,
    snd (compute_deviations (An (with_bg two_samples)) (-1) 10000 false)
    = Ok host
    /\ snd (compute_deviations (An (with_bg two_samples)) (-1) 10000 true)
       = Ok device
    /\ entry (dev_X host) 0 1 = Fin (-1)
    /\ entry (dev_X device) 0 1 <> Fin (-1).
Proof.
  do 2 eexists. split; [vm_compute; reflexivity|].
  split; [vm_compute; reflexivity|].
  split; [vm_compute; reflexivity|]. vm_compute. discriminate.
Qed.

(** The claim C4 as stated fails on an object that has background samples
    and no match matrix: the run fails with the key error only after it
    has logged twice and computed the expectation. *)
Lemma C4_missing_match_counterexample :
  varm_motif_match no_motif_match = None
  /\ fst (compute_deviations (An no_motif_match) (-1) 10000 false) <> []
  /\ In Expectation_computed
       (fst (compute_deviations (An no_motif_match) (-1) 10000 false))
  /\ snd (compute_deviations (An no_motif_match) (-1) 10000 false)
     = Raise (KeyError "motif_match").
Proof.
  split; [reflexivity|]. split; [vm_compute; discriminate|].
  split; [vm_compute; auto|]. vm_compute. reflexivity.
Qed.

(** C9 (end-to-end scenario).  On the match matrix
    [[1,0],[1,1],[0,1]], the counts [[4,0,0],[0,2,2]] and the single
    identity background sample, run on the host with any positive chunk
    size: the observed deviation of cell 0 is its background deviation,
    the standard deviation over the single sample is 0 for both features,
    and the returned row of cell 0 is 0 in both columns. *)
Theorem C9_end_to_end_scenario (n_jobs chunk_size : Z) :
  (0 < chunk_size)%Z ->
  exists adata names obs_dev bg0 dev,
    snd (accumulate (An Scenario.adata) chunk_size false)
    = Ok (adata, names, obs_dev, [bg0])
    /\ nth 0 (rows obs_dev) [] = nth 0 (rows bg0) []
    /\ entry (std_bg false 2 2 [bg0]) 0 0 = Fin 0
    /\ entry (std_bg false 2 2 [bg0]) 0 1 = Fin 0
    /\ snd (compute_deviations (An Scenario.adata) n_jobs chunk_size false)
       = Ok dev
    /\ nth 0 (rows (dev_X dev)) [] = [Fin 0; Fin 0].
Proof.
  intros Hk.
  assert (Hvalid : valid_input (An Scenario.adata) = true) by reflexivity.
  destruct (compute_deviations_valid (An Scenario.adata) n_jobs false
              Hvalid Hk)
    as (a & M & B & names & l & z & Hres & HM & HB & Hn & _ & _
        & Hz & Hrun).
  destruct (accumulate_valid (An Scenario.adata) false Hvalid Hk)
    as (a' & M' & B' & names' & l' & Hres' & HM' & HB' & Hn' & _ & _
        & _ & _ & Hacc).
  cbn [resolve] in Hres, Hres'.
  injection Hres as <-. injection Hres' as <-.
  cbn [varm_motif_match varm_bg_peaks uns_motif_name Scenario.adata]
    in HM, HB, Hn, HM', HB', Hn'.
  injection HM as <-. injection HB as <-. injection Hn as <-.
  injection HM' as <-. injection HB' as <-. injection Hn' as <-.
  vm_compute in Hz. injection Hz as <-.
  exists Scenario.adata, ["motif0"; "motif1"]%string,
    (finite 2 [[1 # 3; -1]; [-1 # 3; 1]]%Q),
    (finite 2 [[1 # 3; -1]; [-1 # 3; 1]]%Q).
  eexists. rewrite Hacc, Hrun. cbn [snd].
  split; [vm_compute; reflexivity|].
  split; [reflexivity|].
  split; [vm_compute; reflexivity|].
  split; [vm_compute; reflexivity|].
  split; [reflexivity|]. vm_compute. reflexivity.
Qed.

End ScenarioClaims.

(** ** The theorems at the end-to-end scenario *)

Module Witnesses.

Import Scenario.
Local Open Scope Q_scope.


(** Both primitives on the scenario, the counts stored sparse on the
    host: the operands are finite, and so is [e_region . match]. *)
Lemma C6_witness :
  finite_array motif_match = true
  /\ finite_array counts = true
  /\ finite_array expectation_obs = true
  /\ finite_array expectation_var = true
  /\ matmul expectation_var motif_match = Some inner
  /\ all_finite inner = true
  /\ Blas._compute_deviations
       (motif_match, Count true counts, expectation_obs, expectation_var)
     = Ok deviation
  /\ _compute_deviations_gpu
       (motif_match, counts, expectation_obs, expectation_var)
     = Ok deviation.
Proof.
  assert (Hhost : Blas._compute_deviations
                    (motif_match, Count true counts, expectation_obs,
                     expectation_var) = Ok deviation)
    by (vm_compute; reflexivity).
  assert (Hinner : forall m, matmul expectation_var motif_match = Some m ->
                             all_finite m = true).
  { intros m Hm. vm_compute in Hm. injection Hm as <-. reflexivity. }
  split; [reflexivity|]. split; [reflexivity|]. split; [reflexivity|].
  split; [reflexivity|]. split; [vm_compute; reflexivity|].
  split; [reflexivity|]. split; [exact Hhost|].
  exact (proj1 (proj1 (@C6_host_gpu_equivalent xq xq_arith
                          HostDeviceClaims.scale_by_zero motif_match
                          expectation_obs expectation_var (Count true counts)
                          eq_refl eq_refl eq_refl eq_refl Hinner)
                  deviation) Hhost).
Defined.

(** Chunks of one row and one chunk of 10000 rows on the device path. *)
Lemma C7_witness :
  valid_input (An Scenario.adata) = true
  /\ (0 < 1)%Z /\ (0 < 10000)%Z
  /\ exists dev : deviations,
       snd (compute_deviations (An Scenario.adata) (-1) 1 true) = Ok dev
       /\ snd (compute_deviations (An Scenario.adata) (-1) 10000 true)
          = Ok dev.
Proof.
  split; [reflexivity|]. split; [reflexivity|]. split; [reflexivity|].
  apply (@C7_chunk_invariance xq xq_arith (An Scenario.adata) (-1) 1 10000
           true); reflexivity.
Defined.


(** The counts of the scenario in float32: whole numbers, so the non-zero
    ones are at least 1. *)
Lemma C5_witness :
  in_range (1 # 16777216) (2 ^ (-126)) (2 ^ 127) 6 1 (Qtotal count_values)
  /\ exists (e_cell e_region : list Q),
       @compute_expectation xq f32_arith
         (Count true (finite 3 count_values)) false
       = (Mat 1 (map (fun r => [Fin r]) e_cell), Mat 3 [map Fin e_region])
       /\ length e_cell = 2%nat /\ length e_region = 3%nat
       /\ (forall j, (j < 3)%nat ->
             tol_lo (1 # 16777216) 2 3
             * (Qcolsum j count_values / Qtotal count_values)
             <= nth j e_region 0
             /\ nth j e_region 0
                <= tol_hi (1 # 16777216) 2 3
                   * (Qcolsum j count_values / Qtotal count_values))
       /\ tol_lo (1 # 16777216) 2 3 <= Qsum e_region
          <= tol_hi (1 # 16777216) 2 3
       /\ (forall i, (i < 2)%nat ->
             Qpow (1 - (1 # 16777216)) 3 * Qsum (nth i count_values [])
             <= nth i e_cell 0
             /\ nth i e_cell 0
                <= Qpow (1 + (1 # 16777216)) 3
                   * Qsum (nth i count_values [])).
Proof.
  assert (Hrange : in_range (1 # 16777216) (2 ^ (-126)) (2 ^ 127) 6 1
                     (Qtotal count_values)).
  { repeat split; apply Qle_bool_iff; vm_compute; reflexivity. }
  split; [exact Hrange|].
  apply (@ExpectationClaims.C5_expectation F32.round (1 # 16777216)
           (2 ^ (-126)) (2 ^ 127) 1 true false 2 3 count_values
           F32Facts.round_rounds).
  - split; [discriminate|reflexivity].
  - reflexivity.
  - reflexivity.
  - repeat constructor.
  - repeat (apply Forall_cons || apply Forall_nil);
      first [left; reflexivity|right; discriminate].
  - reflexivity.
  - exact Hrange.
Defined.


(** The scenario with the default arguments. *)
Lemma C9_witness :
  (0 < 10000)%Z
  /\ exists adata names obs_dev bg0 dev,
       snd (accumulate (An Scenario.adata) 10000 false)
       = Ok (adata, names, obs_dev, [bg0])
       /\ nth 0 (rows obs_dev) [] = nth 0 (rows bg0) []
       /\ entry (std_bg false 2 2 [bg0]) 0 0 = Fin 0
       /\ entry (std_bg false 2 2 [bg0]) 0 1 = Fin 0
       /\ snd (compute_deviations (An Scenario.adata) (-1) 10000 false)
          = Ok dev
       /\ nth 0 (rows (dev_X dev)) [] = [Fin 0; Fin 0].
Proof.
  split; [reflexivity|].
  exact (@ScenarioClaims.C9_end_to_end_scenario (-1)%Z 10000%Z eq_refl).
Defined.

End Witnesses.

(** * Further properties of the program *)

(** ** Failures after the prelude, and the chunk size *)

Section RunEdges.

Context {num : Type} {AR : Arith num}.

Local Abbreviation mat := (matrix num).

(** X1 (late failures).  On an object that has the background samples and
    the match matrix, a run without the feature names raises
    [KeyError('motif_name')], and a run with a chunk size of 0 raises
    [ZeroDivisionError]; both after the expectation has been computed and
    before any slice is written. *)
Theorem X1_late_failures (data : pydata) (n_jobs chunk_size : Z)
  (gpu : bool) (a : AnnData) (b : matrix Z) (m : mat) :
  resolve data = Some a ->
  varm_bg_peaks a = Some b ->
  varm_motif_match a = Some m ->
  (uns_motif_name a = None ->
   compute_deviations data n_jobs chunk_size gpu
   = (prelude, Raise (KeyError "motif_name")))
  /\ (forall names, uns_motif_name a = Some names ->
        compute_deviations data n_jobs 0 gpu
        = (prelude, Raise ZeroDivisionError)).
Proof.
  intros Hres Hb Hm. split.
  - intros Hn. unfold compute_deviations, accumulate.
    rewrite (resolve_accumulate data Hres), bind_ret, Hb, bind_ret.
    rewrite !bind_tell.
    destruct (compute_expectation (X a) gpu) as [eo ev].
    rewrite bind_tell, Hm, bind_ret, Hn. reflexivity.
  - intros names Hn. unfold compute_deviations, accumulate.
    rewrite (resolve_accumulate data Hres), bind_ret, Hb, bind_ret.
    rewrite !bind_tell.
    destruct (compute_expectation (X a) gpu) as [eo ev].
    rewrite bind_tell, Hm, bind_ret, Hn, bind_ret. reflexivity.
Qed.

Lemma chunk_ranges_negative n (chunk_size : Z) :
  (chunk_size < 0)%Z ->
  chunk_ranges n chunk_size = Ok (if 0 <? n then [(0, n)] else []).
Proof.
  intros Hk. unfold chunk_ranges.
  destruct (Z.eqb_spec chunk_size 0) as [E|_]; [lia|].
  assert (Hq : (Z.of_nat n / chunk_size <= 0)%Z).
  { pose proof (Z.div_mod (Z.of_nat n) chunk_size ltac:(lia)) as Hdm.
    pose proof (Z.mod_neg_bound (Z.of_nat n) chunk_size Hk) as Hmod.
    nia. }
  replace (Z.to_nat (Z.of_nat n / chunk_size)) with 0 by lia.
  reflexivity.
Qed.

Lemma chunk_ranges_whole n :
  chunk_ranges n (Z.of_nat (Nat.max 1 n))
  = Ok (if 0 <? n then [(0, n)] else []).
Proof.
  unfold chunk_ranges.
  destruct (Z.eqb_spec (Z.of_nat (Nat.max 1 n)) 0) as [E|_]; [lia|].
  destruct n as [|n].
  - reflexivity.
  - replace (Nat.max 1 (S n)) with (S n) by lia.
    rewrite Z.div_same by lia. rewrite Nat2Z.id.
    change (Z.to_nat 1) with 1. cbn [full_chunks Nat.add app].
    now rewrite Nat.ltb_irrefl.
Qed.

(** A run reads the chunk size through the ranges of [chunked_X] only. *)
Lemma accumulate_chunk_ranges (data : pydata) (a : AnnData) (k1 k2 : Z)
  (gpu : bool) :
  resolve data = Some a ->
  chunk_ranges (n_obs a) k1 = chunk_ranges (n_obs a) k2 ->
  accumulate data k1 gpu = accumulate data k2 gpu.
Proof.
  intros Hres Hk. unfold accumulate.
  rewrite (resolve_accumulate data Hres), !bind_ret.
  destruct (varm_bg_peaks a) as [b|]; [|reflexivity].
  rewrite !bind_ret, !bind_tell.
  destruct (compute_expectation (X a) gpu) as [eo ev].
  rewrite !bind_tell.
  destruct (varm_motif_match a) as [m|]; [|reflexivity].
  rewrite !bind_ret.
  destruct (uns_motif_name a) as [names|]; [|reflexivity].
  rewrite !bind_ret. unfold chunked_X. now rewrite Hk.
Qed.

(** X2 (negative chunk size).  With a negative chunk size [chunked_X]
    yields no full chunk and then all the rows at once: the run, trace and
    result, is the run with one chunk of all the rows. *)
Theorem X2_negative_chunk_size (data : pydata) (n_jobs chunk_size : Z)
  (gpu : bool) (a : AnnData) :
  resolve data = Some a -> (chunk_size < 0)%Z ->
  chunk_ranges (n_obs a) chunk_size
  = Ok (if 0 <? n_obs a then [(0, n_obs a)] else [])
  /\ compute_deviations data n_jobs chunk_size gpu
     = compute_deviations data n_jobs (Z.of_nat (Nat.max 1 (n_obs a))) gpu.
Proof.
  intros Hres Hk. split; [now apply chunk_ranges_negative|].
  unfold compute_deviations.
  rewrite (accumulate_chunk_ranges data chunk_size
             (Z.of_nat (Nat.max 1 (n_obs a))) gpu Hres); [reflexivity|].
  now rewrite chunk_ranges_negative, chunk_ranges_whole.
Qed.

End RunEdges.

(** ** What a run that returns has done *)

Section RunInversion.

Context {num : Type} {AR : Arith num}.

Local Abbreviation mat := (matrix num).

Lemma snd_bind_pair {A B} (k : A -> traced B) l a :
  snd (bind ((l, Ok a) : traced A) k) = snd (k a).
Proof. now rewrite bind_pair_ok. Qed.

Lemma snd_bind_raise {A B} (k : A -> traced B) l e :
  snd (bind ((l, Raise e) : traced A) k) = Raise e.
Proof. reflexivity. Qed.

(** The accumulators are those of the object the input resolves to, which
    has the background samples, the match matrix and the feature names. *)
Lemma accumulate_inv (data : pydata) (chunk_size : Z) (gpu : bool)
  (a : AnnData) (names : list string) (obs : mat) (bg : list mat) :
  snd (accumulate data chunk_size gpu) = Ok (a, names, obs, bg) ->
  resolve data = Some a /\ uns_motif_name a = Some names
  /\ exists b m, varm_bg_peaks a = Some b /\ varm_motif_match a = Some m.
Proof.
  unfold accumulate.
  destruct (resolve data) as [a'|] eqn:Hres.
  2: { destruct data as [x|ms|]; simpl in Hres; try discriminate.
       now rewrite Hres. }
  rewrite (resolve_accumulate data Hres), bind_ret.
  destruct (varm_bg_peaks a') as [b|] eqn:Hb; [|discriminate].
  rewrite bind_ret, !bind_tell.
  destruct (compute_expectation (X a') gpu) as [eo ev].
  rewrite bind_tell. cbn [snd].
  destruct (varm_motif_match a') as [m|] eqn:Hm; [|discriminate].
  rewrite bind_ret.
  destruct (uns_motif_name a') as [names'|] eqn:Hn; [|discriminate].
  rewrite bind_ret.
  destruct (chunked_X a' chunk_size) as [chunks|e]; [|discriminate].
  rewrite bind_lift_ok.
  destruct (for_each _ chunks _) as [t [acc|e]]; [|discriminate].
  rewrite snd_bind_pair. cbn [ret traced_monad snd].
  intros [= <- <- <- <-].
  split; [reflexivity|]. split; [exact Hn|]. now exists b, m.
Qed.

(** A run returns only through the normalisation of its accumulators and
    the two checks of the labels. *)
Lemma compute_deviations_inv (data : pydata) (n_jobs chunk_size : Z)
  (gpu : bool) (dev : deviations) :
  snd (compute_deviations data n_jobs chunk_size gpu) = Ok dev ->
  exists a names obs bg z,
    snd (accumulate data chunk_size gpu) = Ok (a, names, obs, bg)
    /\ normalise gpu obs (n_obs a) (length names) bg = Ok z
    /\ dev = {| dev_X := nan_to_num z;
                dev_obs_names := obs_names a;
                dev_var_names := names |}
    /\ length (obs_names a) = nrows (nan_to_num z)
    /\ length names = ncols (nan_to_num z).
Proof.
  unfold compute_deviations.
  destruct (accumulate data chunk_size gpu)
    as [t [[[[a names] obs] bg]|e]]; [|discriminate].
  rewrite snd_bind_pair.
  destruct (normalise gpu obs (n_obs a) (length names) bg) as [z|e] eqn:Hz;
    [|discriminate].
  rewrite bind_lift_ok.
  destruct (length (obs_names a) =? nrows (nan_to_num z)) eqn:E1;
    [|discriminate].
  destruct (length names =? ncols (nan_to_num z)) eqn:E2; [|discriminate].
  cbn [negb ret traced_monad snd]. intros [= <-].
  apply Nat.eqb_eq in E1, E2.
  exists a, names, obs, bg, z. repeat split; assumption.
Qed.

End RunInversion.

Module OutputClaims.

(** X3 (output container).  Whatever the input, the chunk size and the
    path, a run that returns gives a matrix labelled with the cell names
    of the object it worked on and with its feature names, one name per
    row and one per column, and in exact arithmetic every entry of the
    matrix is finite: no NaN and no infinity leaves the function. *)
Theorem X3_output_container (data : @pydata xq) (n_jobs chunk_size : Z)
  (gpu : bool) (dev : deviations) :
  snd (compute_deviations data n_jobs chunk_size gpu) = Ok dev ->
  (exists a names,
     resolve data = Some a /\ uns_motif_name a = Some names
     /\ dev_obs_names dev = obs_names a /\ dev_var_names dev = names)
  /\ length (dev_obs_names dev) = nrows (dev_X dev)
  /\ length (dev_var_names dev) = ncols (dev_X dev)
  /\ forall i j, exists q, entry (dev_X dev) i j = Fin q.
Proof.
  intros H.
  destruct (compute_deviations_inv data n_jobs chunk_size gpu H)
    as (a & names & obs & bg & z & Hacc & _ & -> & L1 & L2).
  destruct (accumulate_inv data chunk_size gpu Hacc) as (Hres & Hn & _).
  cbn [dev_X dev_obs_names dev_var_names].
  split; [now exists a, names|]. split; [exact L1|]. split; [exact L2|].
  intros i j. rewrite NormalisationClaims.nan_to_num_entry.
  destruct (entry z i j); eexists; reflexivity.
Qed.

End OutputClaims.

(** ** The identity background sample *)

Section PrimitiveMore.

Context {num : Type} {AR : Arith num}.

Local Abbreviation mat := (matrix num).

Lemma nth_error_skipn {A} (l : list A) : forall s x,
  nth_error l s = Some x -> skipn s l = x :: skipn (S s) l.
Proof.
  induction l as [|y l IH]; intros [|s] x H; simpl in H; try discriminate.
  - now injection H as ->.
  - apply IH in H. exact H.
Qed.

Lemma py_index_nat n s : s < n -> py_index n (Z.of_nat s) = Some s.
Proof.
  intros H. unfold py_index.
  destruct (Z.leb_spec 0 (Z.of_nat s)); [|lia].
  destruct (Z.ltb_spec (Z.of_nat s) (Z.of_nat n)); [|lia].
  cbn [andb]. now rewrite Nat2Z.id.
Qed.

Lemma mapM_identity {A} (l : list A) : forall len s,
  s + len <= length l ->
  mapM (fun z => k <- py_index (length l) z ;; nth_error l k)
    (map Z.of_nat (seq s len))
  = Some (firstn len (skipn s l)).
Proof.
  induction len as [|len IH]; intros s H; [reflexivity|].
  cbn [seq map mapM]. rewrite py_index_nat by lia.
  cbn [bind option_monad].
  destruct (nth_error l s) as [x|] eqn:E.
  2: { apply nth_error_None in E. lia. }
  rewrite IH by lia. rewrite (nth_error_skipn l s E). reflexivity.
Qed.

(** Taking the rows in place gives the array back. *)
Lemma take_rows_identity (m : mat) :
  take_rows (identity_sample (nrows m)) m = Some (Mat (ncols m) (rows m)).
Proof.
  unfold take_rows, identity_sample, nrows.
  rewrite mapM_identity by lia. cbn [bind option_monad skipn].
  now rewrite firstn_all.
Qed.

(** X5 (identity background sample).  On a valid input with a positive
    chunk size, a background sample that leaves every region in place
    gives, as its slice of [bg_dev], the observed deviation [obs_dev]. *)
Theorem X5_identity_sample_is_observed (data : pydata) (chunk_size : Z)
  (gpu : bool) (a : AnnData) (bg_peaks : matrix Z) (i : nat) :
  valid_input data = true -> (0 < chunk_size)%Z ->
  resolve data = Some a -> varm_bg_peaks a = Some bg_peaks ->
  i < ncols bg_peaks ->
  column 0%Z i (rows bg_peaks) = identity_sample (ncols (todense (X a))) ->
  exists names obs_dev bg_dev,
    snd (accumulate data chunk_size gpu) = Ok (a, names, obs_dev, bg_dev)
    /\ length bg_dev = ncols bg_peaks
    /\ nth i bg_dev (Mat 0 []) = obs_dev.
Proof.
  intros Hvalid Hk Hres HB Hi Hid.
  destruct (accumulate_valid data gpu Hvalid Hk)
    as (a' & M & B & names & l & Hres' & HM & HB' & Hn & _ & _ & _ & _
        & Hacc).
  assert (a' = a) by congruence. subst a'.
  assert (B = bg_peaks) by congruence. subst B.
  unfold valid_input in Hvalid. rewrite Hres in Hvalid.
  destruct (valid_adata_spec a Hvalid)
    as (M' & B' & names' & HM' & _ & _ & HMr & _).
  assert (M' = M) by congruence. subst M'.
  exists names, (obs_result gpu a M), (bg_result gpu a M bg_peaks).
  split; [now rewrite Hacc|].
  unfold bg_result, obs_result.
  destruct (compute_expectation (X a) gpu) as [eo ev].
  split; [now rewrite length_map, length_seq|].
  rewrite (nth_indep _ _ (Mat (ncols M)
             (bg_rows M bg_peaks ev (rows (todense (X a))) (rows eo) 0)))
    by now rewrite length_map, length_seq.
  rewrite (map_nth (fun i => Mat (ncols M)
             (bg_rows M bg_peaks ev (rows (todense (X a))) (rows eo) i))).
  rewrite seq_nth by assumption. cbn [Nat.add].
  unfold bg_rows, bg_motif_match_of.
  rewrite Hid, <- HMr, take_rows_identity. reflexivity.
Qed.

End PrimitiveMore.

(** ** The entries of the deviation and of the output *)

Section EntriesMore.

Context {num : Type} {AR : Arith num}.

Local Abbreviation mat := (matrix num).

Lemma product_rows_length (b : mat) rs :
  length (product_rows b rs) = length rs.
Proof. unfold product_rows. apply length_map. Qed.

Lemma product_rows_row_length (b : mat) rs i :
  i < length rs -> length (nth i (product_rows b rs) []) = ncols b.
Proof.
  intros Hi. unfold product_rows.
  rewrite (nth_indep _ [] ((fun r => map (fun j => dot_vec r
             (column zero j (rows b))) (seq 0 (ncols b))) []))
    by now rewrite length_map.
  rewrite (map_nth (fun r => map (fun j => dot_vec r
             (column zero j (rows b))) (seq 0 (ncols b)))).
  now rewrite length_map, length_seq.
Qed.

Lemma product_rows_nth (b : mat) rs i j :
  i < length rs -> j < ncols b ->
  nth j (nth i (product_rows b rs) []) zero
  = dot_vec (nth i rs []) (column zero j (rows b)).
Proof.
  intros Hi Hj. unfold product_rows.
  rewrite (nth_indep _ [] ((fun r => map (fun j => dot_vec r
             (column zero j (rows b))) (seq 0 (ncols b))) []))
    by now rewrite length_map.
  rewrite (map_nth (fun r => map (fun j => dot_vec r
             (column zero j (rows b))) (seq 0 (ncols b)))).
  rewrite (nth_indep _ zero ((fun j => dot_vec (nth i rs [])
             (column zero j (rows b))) 0))
    by now rewrite length_map, length_seq.
  rewrite (map_nth (fun j => dot_vec (nth i rs [])
             (column zero j (rows b)))).
  now rewrite seq_nth.
Qed.

(** An entry of the deviation is the guarded quotient of the entries of
    [observed] and [expected] for that cell and that feature. *)
Lemma deviation_rows_entry (motif_match ev : mat) xs es i j :
  i < length xs -> i < length es -> j < ncols motif_match ->
  nth j (nth i (deviation_rows motif_match ev xs es) []) zero
  = let expected :=
      dot_vec (nth i es [])
        (column zero j (product_rows motif_match (rows ev))) in
    guarded (fsub (dot_vec (nth i xs []) (column zero j (rows motif_match)))
               expected) expected.
Proof.
  intros Hx He Hj. unfold deviation_rows.
  set (inner := Mat (ncols motif_match)
                  (product_rows motif_match (rows ev))).
  assert (L1 : length (product_rows motif_match xs) = length xs)
    by apply product_rows_length.
  assert (L2 : length (product_rows inner es) = length es)
    by apply product_rows_length.
  pose proof (@product_rows_row_length motif_match xs i Hx) as R1.
  pose proof (@product_rows_row_length inner es i He) as R2.
  cbn [ncols inner] in R2.
  rewrite (nth_zip_with _ _ _ [] [] []);
    [|rewrite zip_with_length; lia|lia].
  rewrite (nth_zip_with _ _ _ [] [] []); [|lia|lia].
  rewrite (nth_zip_with _ _ _ zero zero zero);
    [|rewrite zip_with_length; lia|lia].
  rewrite (nth_zip_with _ _ _ zero zero zero); [|lia|lia].
  rewrite (@product_rows_nth motif_match xs i j Hx Hj).
  rewrite (@product_rows_nth inner es i j He Hj).
  reflexivity.
Qed.

Lemma deviation_rows_wf (motif_match ev : mat) xs es :
  length xs = length es ->
  wf_mat (Mat (ncols motif_match) (deviation_rows motif_match ev xs es)).
Proof.
  intros Hlen. unfold wf_mat. cbn [rows ncols]. apply Forall_forall.
  intros r Hr. apply (In_nth _ _ []) in Hr. destruct Hr as (i & Hi & <-).
  rewrite deviation_rows_length in Hi by assumption.
  unfold deviation_rows.
  set (inner := Mat (ncols motif_match)
                  (product_rows motif_match (rows ev))).
  pose proof (product_rows_length motif_match xs) as L1.
  pose proof (product_rows_length inner es) as L2.
  pose proof (@product_rows_row_length motif_match xs i Hi) as R1.
  assert (He : i < length es) by lia.
  pose proof (@product_rows_row_length inner es i He) as R2.
  cbn [ncols inner] in R2.
  rewrite (nth_zip_with _ _ _ [] [] []);
    [|rewrite zip_with_length; lia|lia].
  rewrite (nth_zip_with _ _ _ [] [] []); [|lia|lia].
  rewrite !zip_with_length. lia.
Qed.

Lemma obs_result_wf gpu (a : AnnData) (motif_match : mat) :
  wf_mat (obs_result gpu a motif_match).
Proof.
  unfold obs_result.
  destruct (compute_expectation_shape (X a) gpu)
    as (eo & ev & -> & _ & _ & _ & Heo).
  apply deviation_rows_wf. unfold nrows in Heo. now rewrite Heo.
Qed.

End EntriesMore.

(** ** Outputs that are zero, in exact arithmetic *)

Module ZeroOutputFacts.

Import XQFacts NormalisationClaims.
Local Open Scope Q_scope.

Lemma fold_add_nan (l : list xq) : forall acc,
  acc = NaN \/ In NaN l -> fold_left XQ.add l acc = NaN.
Proof.
  induction l as [|x l IH]; intros acc [H|H]; cbn [fold_left].
  - exact H.
  - destruct H.
  - apply IH. left. subst acc. reflexivity.
  - destruct H as [->|H].
    + apply IH. left. now destruct acc.
    + apply IH. now right.
Qed.

Lemma np_sum_nan (l : list xq) : In NaN l -> np_sum l = NaN.
Proof. intros H. apply fold_add_nan. now right. Qed.

Lemma fold_add_inf (x : xq) n : forall acc,
  x = PInf \/ x = NInf ->
  acc = x \/ (exists q, acc = Fin q) ->
  fold_left XQ.add (repeat x (S n)) acc = x.
Proof.
  induction n as [|n IH]; intros acc Hx Hacc.
  - cbn [repeat fold_left].
    destruct Hx as [-> | ->], Hacc as [-> | [q ->]]; reflexivity.
  - change (repeat x (S (S n))) with (x :: repeat x (S n)).
    cbn [fold_left]. apply IH; [assumption|]. left.
    destruct Hx as [-> | ->], Hacc as [-> | [q ->]]; reflexivity.
Qed.

Lemma mean_inf (x : xq) n :
  x = PInf \/ x = NInf -> np_mean (repeat x (S n)) = x.
Proof.
  intros Hx. unfold np_mean, np_sum. rewrite repeat_length.
  change (XQ.div (fold_left XQ.add (repeat x (S n)) (Fin 0))
            (Fin (inject_Z (Z.of_nat (S n)))) = x).
  rewrite fold_add_inf by (assumption || (right; now eexists)).
  destruct Hx as [-> | ->]; reflexivity.
Qed.

Lemma sub_self (b : Q) : XQ.sub (Fin b) (XQ.fin b) = Fin 0.
Proof.
  unfold XQ.sub, XQ.fin. cbn [XQ.neg XQ.add]. change (Fin 0) with (XQ.fin 0).
  apply fin_eq. unfold XQ.fin. rewrite !Qred_correct. ring.
Qed.

Lemma torch_std_single (b : Q) : torch_std [Fin b] = NaN.
Proof.
  unfold torch_std, variance.
  change [Fin b] with (repeat (Fin b) 1).
  rewrite mean_constant by lia. cbn [repeat map length].
  change (fmul (fsub (Fin b) (XQ.fin b)) (fsub (Fin b) (XQ.fin b)))
    with (XQ.mul (XQ.sub (Fin b) (XQ.fin b)) (XQ.sub (Fin b) (XQ.fin b))).
  rewrite centred_constant. reflexivity.
Qed.

(** When every sample of the ensemble is the observed value itself, the
    output is 0, whatever the value and the number of samples. *)
Lemma normalised_constant (gpu : bool) (d : xq) (n : nat) :
  nan_to_num1
    (XQ.div (XQ.sub d (np_mean (repeat d n)))
       ((if gpu then torch_std else np_std) (repeat d n)))
  = Fin 0.
Proof.
  destruct n as [|n].
  - replace (np_mean (repeat d 0)) with NaN by reflexivity.
    now destruct d.
  - destruct d as [b| | |].
    + rewrite mean_constant by lia. rewrite sub_self.
      destruct gpu.
      * destruct n as [|n].
        -- change (repeat (Fin b) 1) with [Fin b].
           now rewrite torch_std_single.
        -- now rewrite (std_constant true b (n := S (S n))) by lia.
      * now rewrite (std_constant false b (n := S n)) by lia.
    + rewrite mean_inf by now left. reflexivity.
    + rewrite mean_inf by now right. reflexivity.
    + reflexivity.
Qed.

Lemma zeros_or_nan (l : list xq) :
  Forall (fun x => x = Fin 0 \/ x = NaN) l ->
  l = repeat (Fin 0) (length l) \/ In NaN l.
Proof.
  induction 1 as [|x l Hx _ IH]; [now left|].
  destruct Hx as [-> | ->]; [|right; now left].
  destruct IH as [IH|IH]; [left|right; now right].
  cbn [length repeat]. now rewrite <- IH.
Qed.

(** An observed deviation and an ensemble made of zeros and NaN give the
    output 0. *)
Lemma normalised_zero_or_nan (gpu : bool) (o : xq) (l : list xq) :
  o = Fin 0 \/ o = NaN ->
  Forall (fun x => x = Fin 0 \/ x = NaN) l ->
  nan_to_num1
    (XQ.div (XQ.sub o (np_mean l)) ((if gpu then torch_std else np_std) l))
  = Fin 0.
Proof.
  intros [-> | ->] Hl; [|reflexivity].
  destruct (zeros_or_nan Hl) as [E|E].
  - rewrite E. apply normalised_constant.
  - unfold np_mean. rewrite (np_sum_nan l E). reflexivity.
Qed.

(** The expected count of a cell without reads is 0, or NaN when the
    per-region expectation of the feature is not finite. *)
Lemma zero_expected (t x : xq) :
  XQ.eq0 t = true ->
  XQ.add (Fin 0) (XQ.mul t x) = Fin 0 \/ XQ.add (Fin 0) (XQ.mul t x) = NaN.
Proof.
  intros Ht. destruct t as [q| | |]; try discriminate.
  assert (Hs : XQ.sign q = Eq)
    by (cbn [XQ.eq0] in Ht; now destruct (XQ.sign q)).
  destruct x as [y| | |].
  - left. cbn [XQ.mul]. unfold XQ.fin. cbn [XQ.add].
    change (Fin 0) with (XQ.fin 0). apply fin_eq.
    apply sign_eq_iff in Hs. rewrite Qred_correct, Hs. ring.
  - right. cbn [XQ.mul XQ.sign_of]. now rewrite Hs.
  - right. cbn [XQ.mul XQ.sign_of]. now rewrite Hs.
  - now right.
Qed.

Lemma empty_cell_deviation (motif_match ev : matrix xq) xs es i j (t : xq) :
  (i < length xs)%nat -> (i < length es)%nat ->
  (j < ncols motif_match)%nat ->
  nth i es [] = [t] -> XQ.eq0 t = true -> nrows ev = 1%nat ->
  nth j (nth i (deviation_rows motif_match ev xs es) []) (Fin 0) = Fin 0
  \/ nth j (nth i (deviation_rows motif_match ev xs es) []) (Fin 0) = NaN.
Proof.
  intros Hx He Hj Ht H0 Hev.
  pose proof (@deviation_rows_entry xq xq_arith motif_match ev xs es i j
                Hx He Hj) as E.
  change (@zero xq xq_arith) with (Fin 0) in E. rewrite E. clear E.
  rewrite Ht. unfold nrows in Hev.
  destruct (rows ev) as [|a0 [|a1 rest]]; try discriminate.
  cbn zeta.
  set (x := nth j (map (fun j => dot_vec a0 (column zero j
                                    (rows motif_match)))
                    (seq 0 (ncols motif_match))) (Fin 0)).
  change (dot_vec [t] (column (Fin 0) j (product_rows motif_match [a0])))
    with (XQ.add (Fin 0) (XQ.mul t x)).
  destruct (zero_expected t x H0) as [-> | ->].
  - left. reflexivity.
  - right. unfold guarded. cbn [eq0 xq_arith XQ.eq0].
    change (XQ.div (XQ.sub (dot_vec (nth i xs [])
                              (column (Fin 0) j (rows motif_match))) NaN) NaN
            = NaN).
    now destruct (dot_vec _ _).
Qed.

End ZeroOutputFacts.

Module ZeroOutputClaims.

Import XQFacts NormalisationClaims ZeroOutputFacts.

(** On a valid input a run returns, and an entry of its output is the
    centred and scaled observed deviation, made finite. *)
Lemma run_entries (data : @pydata xq) (n_jobs chunk_size : Z) (gpu : bool)
  (a : AnnData) (M : matrix xq) (B : matrix Z) :
  valid_input data = true -> (0 < chunk_size)%Z ->
  resolve data = Some a -> varm_motif_match a = Some M ->
  varm_bg_peaks a = Some B ->
  exists dev,
    snd (compute_deviations data n_jobs chunk_size gpu) = Ok dev
    /\ forall i j, i < n_obs a -> j < ncols M ->
         entry (dev_X dev) i j
         = nan_to_num1
             (XQ.div
                (XQ.sub (entry (obs_result gpu a M) i j)
                   (np_mean (fibre (bg_result gpu a M B) i j)))
                ((if gpu then torch_std else np_std)
                   (fibre (bg_result gpu a M B) i j))).
Proof.
  intros Hvalid Hk Hres HM HB.
  destruct (compute_deviations_valid data n_jobs gpu Hvalid Hk)
    as (a' & M' & B' & names & l & z & Hres' & HM' & HB' & Hn & _ & _
        & Hz & Hrun).
  assert (a' = a) by congruence. subst a'.
  assert (M' = M) by congruence. subst M'.
  assert (B' = B) by congruence. subst B'.
  unfold valid_input in Hvalid. rewrite Hres in Hvalid.
  destruct (valid_adata_spec a Hvalid)
    as (M' & B' & names' & HM'' & _ & Hn' & _ & Hlen & _).
  assert (M' = M) by congruence. subst M'.
  assert (names' = names) by congruence. subst names'.
  destruct (obs_result_shape gpu a M) as [Hr Hc].
  destruct (normalise_entry gpu (bg_result gpu a M B)
              (obs_result_wf gpu a M) Hr (eq_trans Hc (eq_sym Hlen)))
    as (z' & Hz' & Hentry).
  assert (z' = z) by congruence. subst z'.
  eexists. split; [now rewrite Hrun|].
  intros i j Hi Hj. cbn [dev_X].
  rewrite nan_to_num_entry, (Hentry i j Hi ltac:(lia)).
  unfold std_bg.
  destruct gpu; rewrite reduce_axis0_entry by lia; reflexivity.
Qed.

Lemma map_const {A B} (x : B) (l : list A) :
  map (fun _ => x) l = repeat x (length l).
Proof. induction l as [|y l IH]; [reflexivity|]. simpl. now rewrite IH. Qed.

(** X7 (no background sample).  On a valid input whose background matrix
    has no column, the mean over the empty ensemble is NaN and the output
    is 0 for every cell and every feature, on both paths. *)
Theorem X7_no_background_sample_gives_zero (data : @pydata xq)
  (n_jobs chunk_size : Z) (gpu : bool) (a : AnnData) (M : matrix xq)
  (B : matrix Z) :
  valid_input data = true -> (0 < chunk_size)%Z ->
  resolve data = Some a -> varm_motif_match a = Some M ->
  varm_bg_peaks a = Some B -> ncols B = 0 ->
  exists dev,
    snd (compute_deviations data n_jobs chunk_size gpu) = Ok dev
    /\ forall i j, i < n_obs a -> j < ncols M ->
         np_mean (fibre (bg_result gpu a M B) i j) = NaN
         /\ entry (dev_X dev) i j = Fin 0.
Proof.
  intros Hvalid Hk Hres HM HB H0.
  destruct (run_entries data n_jobs gpu Hvalid Hk Hres HM HB)
    as (dev & Hdev & Hentry).
  exists dev. split; [exact Hdev|].
  intros i j Hi Hj. rewrite (Hentry i j Hi Hj).
  assert (E : fibre (bg_result gpu a M B) i j = []).
  { unfold bg_result. destruct (compute_expectation (X a) gpu) as [eo ev].
    now rewrite H0. }
  rewrite E. split; [reflexivity|].
  apply (normalised_constant gpu (entry (obs_result gpu a M) i j) 0).
Qed.

Lemma compute_expectation_obs (count : count_matrix xq) gpu :
  fst (compute_expectation count gpu)
  = Mat 1 (map (fun r => [np_sum r]) (rows (todense count))).
Proof. unfold compute_expectation. now destruct gpu. Qed.

(** X8 (cell without reads).  On a valid input with a positive chunk size,
    a cell whose counts sum to 0 gets the output 0 for every feature, on
    both paths: its expected count is 0 (or NaN), so its observed and
    background deviations are 0 (or NaN), and what the normalisation
    makes of them is replaced by 0. *)
Theorem X8_cell_without_reads_gives_zero (data : @pydata xq)
  (n_jobs chunk_size : Z) (gpu : bool) (a : AnnData) (M : matrix xq)
  (i : nat) :
  valid_input data = true -> (0 < chunk_size)%Z ->
  resolve data = Some a -> varm_motif_match a = Some M ->
  i < n_obs a ->
  eq0 (np_sum (nth i (rows (todense (X a))) [])) = true ->
  exists dev,
    snd (compute_deviations data n_jobs chunk_size gpu) = Ok dev
    /\ forall j, j < ncols M -> entry (dev_X dev) i j = Fin 0.
Proof.
  intros Hvalid Hk Hres HM Hi Hzero.
  pose proof Hvalid as Hvalid'.
  unfold valid_input in Hvalid'. rewrite Hres in Hvalid'.
  destruct (valid_adata_spec a Hvalid')
    as (M' & B & names & HM' & HB & _ & HMr & _ & _ & Hbg).
  assert (M' = M) by congruence. subst M'.
  destruct (run_entries data n_jobs gpu Hvalid Hk Hres HM HB)
    as (dev & Hdev & Hentry).
  exists dev. split; [exact Hdev|].
  intros j Hj. rewrite (Hentry i j Hi Hj).
  pose proof (compute_expectation_obs (X a) gpu) as Hobs.
  destruct (compute_expectation_shape (X a) gpu)
    as (eo & ev & Hexp & _ & Hev & _ & Heo).
  rewrite Hexp in Hobs. cbn [fst] in Hobs.
  assert (Hes : nth i (rows eo) []
                = [np_sum (nth i (rows (todense (X a))) [])]).
  { rewrite Hobs. cbn [rows].
    rewrite (nth_indep _ [] ((fun r : list xq => [np_sum r]) []))
      by (rewrite length_map; exact Hi).
    now rewrite (map_nth (fun r : list xq => [np_sum r])). }
  assert (Hcell : forall m : matrix xq, ncols m = ncols M ->
            nth j (nth i (deviation_rows m ev (rows (todense (X a)))
                            (rows eo)) []) (Fin 0) = Fin 0
            \/ nth j (nth i (deviation_rows m ev (rows (todense (X a)))
                               (rows eo)) []) (Fin 0) = NaN).
  { intros m Hm.
    apply (@empty_cell_deviation m ev (rows (todense (X a))) (rows eo) i j
             (np_sum (nth i (rows (todense (X a))) []))).
    - exact Hi.
    - unfold nrows in Heo. rewrite Heo. exact Hi.
    - rewrite Hm. exact Hj.
    - exact Hes.
    - exact Hzero.
    - exact Hev. }
  apply normalised_zero_or_nan.
  - unfold obs_result. rewrite Hexp. unfold entry. cbn [rows].
    now apply Hcell.
  - unfold bg_result, fibre. rewrite Hexp, map_map.
    apply Forall_forall. intros x Hx. apply in_map_iff in Hx.
    destruct Hx as (s & <- & Hs). apply in_seq in Hs. cbn [rows].
    unfold bg_rows. destruct (Hbg s ltac:(lia)) as (m & -> & _ & Hmc).
    now apply Hcell.
Qed.

End ZeroOutputClaims.

(** ** More on the expectation *)

Module ExpectationFacts.

Import XQFacts.
Local Open Scope Q_scope.

Lemma Qsum_nonneg (l : list Q) : Forall (fun q => 0 <= q) l -> 0 <= Qsum l.
Proof.
  induction 1 as [|q l Hq _ IH]; cbn [Qsum fold_right].
  - apply Qle_refl.
  - fold (Qsum l). rewrite <- (Qplus_0_l 0). now apply Qplus_le_compat.
Qed.

Lemma Qsum_zero_all (l : list Q) :
  Forall (fun q => 0 <= q) l -> Qsum l == 0 -> Forall (fun q => q == 0) l.
Proof.
  induction 1 as [|q l Hq Hl IH]; cbn [Qsum fold_right]; [constructor|].
  fold (Qsum l). intros E.
  pose proof (Qsum_nonneg Hl) as Hs.
  assert (Hq0 : q == 0).
  { apply Qle_antisym; [|exact Hq].
    rewrite <- E, <- (Qplus_0_r q) at 1.
    apply Qplus_le_compat; [apply Qle_refl|exact Hs]. }
  constructor; [exact Hq0|]. apply IH. rewrite Hq0 in E.
  now rewrite Qplus_0_l in E.
Qed.

Lemma Qcolsum_nonneg j (qs : list (list Q)) :
  Forall (Forall (fun q => 0 <= q)) qs -> 0 <= Qcolsum j qs.
Proof.
  intros H. unfold Qcolsum. apply Qsum_nonneg.
  apply Forall_forall. intros x Hx. apply in_map_iff in Hx.
  destruct Hx as (r & <- & Hr).
  rewrite Forall_forall in H. specialize (H r Hr).
  destruct (Nat.lt_ge_cases j (length r)) as [Hj | Hj].
  - rewrite Forall_forall in H. apply H. now apply nth_In.
  - rewrite nth_overflow by exact Hj. apply Qle_refl.
Qed.

Lemma Qsum_scale {A} (f : A -> Q) (k : Q) (l : list A) :
  Qsum (map (fun x => k * f x) l) == k * Qsum (map f l).
Proof.
  induction l as [|x l IH]; simpl; [ring|]. rewrite IH. ring.
Qed.

(** What [compute_expectation] returns on finite counts, whatever their
    total. *)
Lemma compute_expectation_finite (sparse return_torch : bool) (c : nat)
  (qs : list (list Q)) :
  Forall (fun r => length r = c) qs ->
  compute_expectation (Count sparse (finite c qs)) return_torch
  = (Mat 1 (map (fun r => [XQ.fin (Qsum r)]) qs),
     Mat c [map (fun j => XQ.div (XQ.fin (Qcolsum j qs))
                            (XQ.fin (Qtotal qs))) (seq 0 c)]).
Proof.
  intros Hwf.
  assert (Hcols : map (fun j => np_sum (column zero j (map (map Fin) qs)))
                    (seq 0 c)
                  = map Fin (map (fun j => Qred (Qcolsum j qs)) (seq 0 c))).
  { rewrite map_map. apply map_ext. intros j.
    change (@zero xq xq_arith) with (Fin 0).
    rewrite ExpectationClaims.column_finite. apply np_sum_fin. }
  assert (Htot : np_sum (map Fin (map (fun j => Qred (Qcolsum j qs))
                                     (seq 0 c)))
                 = XQ.fin (Qtotal qs)).
  { rewrite np_sum_fin. apply fin_eq.
    rewrite (Qsum_ext (fun j => Qred (Qcolsum j qs))
               (fun j => Qcolsum j qs)) by (intros; apply Qred_correct).
    now apply Qsum_exchange. }
  unfold compute_expectation, finite. cbn [todense rows ncols].
  rewrite Hcols, Htot, !map_map.
  assert (E2 : map (fun r => [np_sum (map Fin r)]) qs
               = map (fun r => [XQ.fin (Qsum r)]) qs).
  { apply map_ext. intros r. now rewrite np_sum_fin. }
  rewrite E2. now destruct return_torch.
Qed.

Lemma nth_map_seq {A} (f : nat -> A) (d : A) c j :
  (j < c)%nat -> nth j (map f (seq 0 c)) d = f j.
Proof.
  intros Hj. rewrite (nth_indep _ d (f 0%nat))
    by now rewrite length_map, length_seq.
  rewrite (map_nth f). now rewrite seq_nth.
Qed.

End ExpectationFacts.

Module ExpectationMore.

Import XQFacts ExpectationFacts.
Local Open Scope Q_scope.

(** X9 (expectation of counts that sum to zero).  When the entries of a
    finite count matrix sum to 0, [compute_expectation] divides every
    column sum by 0 and raises nothing: no entry of [e_region] is a finite
    number, each is an infinity with the sign of its column sum or NaN,
    and with non-negative counts (no read at all) every entry of
    [e_region] is NaN and every entry of [e_cell] is 0. *)
Theorem X9_expectation_of_zero_total (sparse return_torch : bool) (c : nat)
  (qs : list (list Q)) :
  Forall (fun r => length r = c) qs ->
  Qtotal qs == 0 ->
  exists (e_cell : list (list xq)) (e_region : list xq),
    compute_expectation (Count sparse (finite c qs)) return_torch
    = (Mat 1 e_cell, Mat c [e_region])
    /\ length e_region = c
    /\ (forall j, (j < c)%nat ->
          nth j e_region (Fin 0) = XQ.inf_of (XQ.sign (Qcolsum j qs))
          /\ forall q, nth j e_region (Fin 0) <> Fin q)
    /\ (Forall (Forall (fun q => 0 <= q)) qs ->
          e_region = repeat NaN c
          /\ e_cell = repeat [Fin 0] (length qs)).
Proof.
  intros Hwf Hzero.
  exists (map (fun r => [XQ.fin (Qsum r)]) qs),
         (map (fun j => XQ.div (XQ.fin (Qcolsum j qs)) (XQ.fin (Qtotal qs)))
              (seq 0 c)).
  assert (Hdiv : forall j, XQ.div (XQ.fin (Qcolsum j qs)) (XQ.fin (Qtotal qs))
                           = XQ.inf_of (XQ.sign (Qcolsum j qs))).
  { intros j. unfold XQ.fin. cbn [XQ.div]. rewrite !sign_Qred.
    apply sign_eq_iff in Hzero. now rewrite Hzero. }
  split; [now apply compute_expectation_finite|].
  split; [now rewrite length_map, length_seq|].
  split.
  - intros j Hj. rewrite nth_map_seq by exact Hj. rewrite Hdiv.
    split; [reflexivity|]. intros q. now destruct (XQ.sign (Qcolsum j qs)).
  - intros Hpos. split.
    + transitivity (map (fun _ : nat => NaN) (seq 0 c));
        [|now rewrite ZeroOutputClaims.map_const, length_seq].
      apply map_ext_in. intros j Hj. rewrite Hdiv.
      assert (Hall : Forall (fun q => q == 0)
                       (map (fun j => Qcolsum j qs) (seq 0 c))).
      { apply Qsum_zero_all.
        - apply Forall_forall. intros x Hx. apply in_map_iff in Hx.
          destruct Hx as (k & <- & _). now apply Qcolsum_nonneg.
        - now rewrite Qsum_exchange. }
      rewrite Forall_forall in Hall.
      assert (E : Qcolsum j qs == 0)
        by (apply Hall, in_map_iff; now exists j).
      apply sign_eq_iff in E. now rewrite E.
    + rewrite <- (ZeroOutputClaims.map_const [Fin 0] qs).
      apply map_ext_in. intros r Hr.
      assert (Hall : Forall (fun q => q == 0) (map Qsum qs)).
      { apply Qsum_zero_all; [|exact Hzero].
        apply Forall_forall. intros x Hx. apply in_map_iff in Hx.
        destruct Hx as (r' & <- & Hr'). apply Qsum_nonneg.
        rewrite Forall_forall in Hpos. now apply Hpos. }
      rewrite Forall_forall in Hall.
      assert (E : Qsum r == 0) by (apply Hall, in_map_iff; now exists r).
      change [Fin 0] with [XQ.fin 0]. f_equal. now apply fin_eq.
Qed.

(** X10 (margins of the expectation).  In exact arithmetic, for a finite
    count matrix whose entries do not sum to 0, the product [e_cell . e_region] of the pair
    that [compute_expectation] returns is a matrix of the shape of the
    counts with the same margins: each of its rows sums to the sum of that
    row of the counts, and each of its columns to the sum of that column
    of the counts. *)
Theorem X10_expectation_margins (sparse return_torch : bool) (c : nat)
  (qs : list (list Q)) :
  Forall (fun r => length r = c) qs ->
  ~ Qtotal qs == 0 ->
  exists E : matrix xq,
    matmul (fst (compute_expectation (Count sparse (finite c qs))
                   return_torch))
           (snd (compute_expectation (Count sparse (finite c qs))
                   return_torch)) = Some E
    /\ nrows E = length qs /\ ncols E = c
    /\ (forall i, (i < length qs)%nat ->
          np_sum (nth i (rows E) []) = XQ.fin (Qsum (nth i qs [])))
    /\ (forall j, (j < c)%nat ->
          np_sum (column (Fin 0) j (rows E)) = XQ.fin (Qcolsum j qs)).
Proof.
  intros Hwf Hne.
  rewrite compute_expectation_finite by exact Hwf. cbn [fst snd].
  set (cell := fun (r : list Q) (j : nat) =>
                 Qred (0 + Qred (Qred (Qsum r)
                                 * Qred (Qcolsum j qs / Qtotal qs)))).
  assert (Hcell : forall r j, cell r j == Qsum r * Qcolsum j qs / Qtotal qs).
  { intros r j. unfold cell. rewrite !Qred_correct. field. exact Hne. }
  exists (Mat c (map (fun r => map (fun j => Fin (cell r j)) (seq 0 c)) qs)).
  split; [|split; [|split; [|split]]].
  - unfold matmul, nrows. cbn [ncols rows length Nat.eqb]. f_equal. f_equal.
    rewrite map_map. apply map_ext. intros r. apply map_ext_in.
    intros j Hj. apply in_seq in Hj.
    unfold column. cbn [map]. rewrite nth_map_seq by lia.
    rewrite div_fin by exact Hne. reflexivity.
  - unfold nrows. cbn [rows]. now rewrite length_map.
  - reflexivity.
  - intros i Hi. cbn [rows].
    rewrite (nth_indep _ []
               ((fun r => map (fun j => Fin (cell r j)) (seq 0 c)) []))
      by now rewrite length_map.
    rewrite (map_nth (fun r => map (fun j => Fin (cell r j)) (seq 0 c))).
    rewrite <- (map_map (cell (nth i qs [])) Fin), np_sum_fin.
    apply fin_eq.
    rewrite (Qsum_ext (cell (nth i qs []))
               (fun j => (Qsum (nth i qs []) / Qtotal qs) * Qcolsum j qs))
      by (intros j; rewrite Hcell; field; exact Hne).
    rewrite (Qsum_scale (fun j => Qcolsum j qs)).
    rewrite Qsum_exchange by exact Hwf. field. exact Hne.
  - intros j Hj. cbn [rows]. unfold column. rewrite map_map.
    assert (E : map (fun r => nth j (map (fun j => Fin (cell r j)) (seq 0 c))
                                (Fin 0)) qs
                = map Fin (map (fun r => cell r j) qs)).
    { rewrite map_map. apply map_ext. intros r.
      exact (@nth_map_seq _ (fun j => Fin (cell r j)) (Fin 0) c j Hj). }
    rewrite E, np_sum_fin. apply fin_eq.
    rewrite (Qsum_ext (fun r => cell r j)
               (fun r => (Qcolsum j qs / Qtotal qs) * Qsum r))
      by (intros r; rewrite Hcell; field; exact Hne).
    rewrite (Qsum_scale Qsum). fold (Qtotal qs). field. exact Hne.
Qed.

End ExpectationMore.

(** ** A bound on the deviation *)

Module DeviationBound.

Import XQFacts.
Local Open Scope Q_scope.

Lemma at_least_spec (b : Q) (x : xq) :
  at_least b x = true <-> exists q, x = Fin q /\ b <= q.
Proof.
  split.
  - destruct x as [q| | |]; cbn [at_least]; try discriminate.
    intros H. exists q. split; [reflexivity|]. now apply Qle_bool_iff.
  - intros (q & -> & H). cbn [at_least]. now apply Qle_bool_iff.
Qed.

Lemma add_nonneg (x y : xq) :
  at_least 0 x = true -> at_least 0 y = true ->
  at_least 0 (XQ.add x y) = true.
Proof.
  intros Hx Hy. apply at_least_spec in Hx, Hy.
  destruct Hx as (a & -> & Ha), Hy as (b & -> & Hb).
  apply at_least_spec. exists (Qred (a + b)). split; [reflexivity|].
  rewrite Qred_correct, <- (Qplus_0_l 0). now apply Qplus_le_compat.
Qed.

Lemma mul_nonneg (x y : xq) :
  at_least 0 x = true -> at_least 0 y = true ->
  at_least 0 (XQ.mul x y) = true.
Proof.
  intros Hx Hy. apply at_least_spec in Hx, Hy.
  destruct Hx as (a & -> & Ha), Hy as (b & -> & Hb).
  apply at_least_spec. exists (Qred (a * b)). split; [reflexivity|].
  rewrite Qred_correct. now apply Qmult_le_0_compat.
Qed.

Lemma fold_nonneg (l : list xq) : forall acc,
  at_least 0 acc = true -> forallb (at_least 0) l = true ->
  at_least 0 (fold_left XQ.add l acc) = true.
Proof.
  induction l as [|x l IH]; intros acc Hacc Hl; cbn [fold_left];
    [exact Hacc|].
  cbn [forallb] in Hl. apply andb_true_iff in Hl. destruct Hl as [Hx Hl].
  apply IH; [now apply add_nonneg|exact Hl].
Qed.

Lemma dot_nonneg (u v : list xq) :
  forallb (at_least 0) u = true -> forallb (at_least 0) v = true ->
  at_least 0 (dot_vec u v) = true.
Proof.
  intros Hu Hv. unfold dot_vec, np_sum. apply fold_nonneg; [reflexivity|].
  unfold zip_with. apply forallb_forall. intros x Hx.
  apply in_map_iff in Hx. destruct Hx as ([a b] & <- & Hab).
  cbn [fst snd]. rewrite forallb_forall in Hu, Hv.
  apply mul_nonneg; [apply Hu; eapply in_combine_l; exact Hab
                    |apply Hv; eapply in_combine_r; exact Hab].
Qed.

Lemma nth_nonneg (r : list xq) j :
  forallb (at_least 0) r = true -> at_least 0 (nth j r (Fin 0)) = true.
Proof.
  intros Hr. destruct (Nat.lt_ge_cases j (length r)) as [Hj | Hj].
  - rewrite forallb_forall in Hr. apply Hr. now apply nth_In.
  - now rewrite nth_overflow by exact Hj.
Qed.

Lemma column_nonneg (rs : list (list xq)) j :
  forallb (forallb (at_least 0)) rs = true ->
  forallb (at_least 0) (column (Fin 0) j rs) = true.
Proof.
  intros H. unfold column. apply forallb_forall. intros x Hx.
  apply in_map_iff in Hx. destruct Hx as (r & <- & Hr).
  rewrite forallb_forall in H. apply nth_nonneg. now apply H.
Qed.

Lemma row_nonneg (rs : list (list xq)) i :
  forallb (forallb (at_least 0)) rs = true ->
  forallb (at_least 0) (nth i rs []) = true.
Proof.
  intros H. destruct (Nat.lt_ge_cases i (length rs)) as [Hi | Hi].
  - rewrite forallb_forall in H. apply H. now apply nth_In.
  - now rewrite nth_overflow by exact Hi.
Qed.

Lemma product_rows_nonneg (b : matrix xq) (rs : list (list xq)) :
  all_at_least 0 b = true ->
  forallb (forallb (at_least 0)) rs = true ->
  forallb (forallb (at_least 0)) (product_rows b rs) = true.
Proof.
  intros Hb Hrs. unfold product_rows. apply forallb_forall. intros x Hx.
  apply in_map_iff in Hx. destruct Hx as (r & <- & Hr).
  apply forallb_forall. intros y Hy.
  apply in_map_iff in Hy. destruct Hy as (j & <- & _).
  apply dot_nonneg.
  - rewrite forallb_forall in Hrs. now apply Hrs.
  - now apply column_nonneg.
Qed.

(** The guarded quotient of non-negative [observed] and [expected]. *)
Lemma guarded_at_least (o e : xq) :
  at_least 0 o = true -> at_least 0 e = true ->
  at_least (-1) (guarded (XQ.sub o e) e) = true.
Proof.
  intros Ho He. apply at_least_spec in Ho, He.
  destruct Ho as (a & -> & Ha), He as (b & -> & Hb).
  unfold guarded. change (eq0 (Fin b)) with (XQ.eq0 (Fin b)).
  change (fdiv (XQ.sub (Fin a) (Fin b)) (Fin b))
    with (XQ.div (XQ.sub (Fin a) (Fin b)) (Fin b)).
  cbn [XQ.eq0 XQ.sub XQ.neg XQ.add XQ.fin XQ.div].
  unfold XQ.fin. cbn [XQ.add XQ.div]. unfold XQ.fin.
  destruct (XQ.sign b) eqn:E; [reflexivity| |].
  - apply sign_lt_iff in E. exfalso.
    apply (Qlt_irrefl b). now apply Qlt_le_trans with 0.
  - apply sign_gt_iff in E. cbn [at_least]. apply Qle_bool_iff.
    rewrite !Qred_correct.
    assert (Hb0 : ~ b == 0)
      by (intros Z; rewrite Z in E; now apply Qlt_irrefl in E).
    setoid_replace ((a + - b) / b) with (a / b - 1) by (field; exact Hb0).
    setoid_replace (-1) with (0 - 1) by ring.
    apply Qplus_le_compat; [|apply Qle_refl].
    apply Qle_shift_div_l; [exact E|]. now rewrite Qmult_0_l.
Qed.

(** X11 (a deviation is never below -1).  When the match matrix, the
    counts and the two expectations hold finite, non-negative numbers and
    are conformal, the deviation primitive of either path returns a matrix
    whose every entry is a finite number not below -1: the observed count
    of a feature is never negative, so it cannot fall short of the
    expected one by more than the expected one. *)
Theorem X11_deviation_at_least_minus_one (gpu : bool)
  (motif_match eo ev : matrix xq) (count : count_matrix xq) :
  ncols (todense count) = nrows motif_match ->
  ncols ev = nrows motif_match ->
  ncols eo = nrows ev ->
  nrows (todense count) = nrows eo ->
  all_at_least 0 motif_match = true ->
  all_at_least 0 (todense count) = true ->
  all_at_least 0 eo = true ->
  all_at_least 0 ev = true ->
  exists D : matrix xq,
    deviations_of gpu motif_match count eo ev = Ok D
    /\ forall i j, (i < nrows (todense count))%nat ->
         (j < ncols motif_match)%nat ->
         at_least (-1) (entry D i j) = true.
Proof.
  intros HX Hev Heo Hrows HM HC HO HV.
  exists (Mat (ncols motif_match)
            (deviation_rows motif_match ev (rows (todense count)) (rows eo))).
  split; [now apply deviations_of_rows|].
  intros i j Hi Hj. unfold entry. cbn [rows].
  change (@zero xq xq_arith) with (Fin 0).
  pose proof (@deviation_rows_entry xq xq_arith motif_match ev
                (rows (todense count)) (rows eo) i j) as Hentry.
  change (@zero xq xq_arith) with (Fin 0) in Hentry.
  unfold nrows in *.
  rewrite Hentry by (try exact Hi; try exact Hj; rewrite <- Hrows; exact Hi).
  cbv zeta. change (@fsub xq xq_arith) with XQ.sub.
  apply guarded_at_least.
  - apply dot_nonneg; [now apply row_nonneg|now apply column_nonneg].
  - apply dot_nonneg; [now apply row_nonneg|].
    apply column_nonneg. now apply product_rows_nonneg.
Qed.

End DeviationBound.

(** ** The properties above at concrete inputs *)

Module MoreWitnesses.

Import Scenario.

(** The scenario without the feature names, and the scenario run with a
    chunk size of 0. *)
Lemma X1_witness :
  compute_deviations (An Inputs.no_motif_name) (-1) 10000 false
  = (prelude, Raise (KeyError "motif_name"))
  /\ compute_deviations (An adata) (-1) 0 true
     = (prelude, Raise ZeroDivisionError).
Proof.
  split.
  - apply (proj1 (@X1_late_failures xq xq_arith (An Inputs.no_motif_name)
                    (-1) 10000 false Inputs.no_motif_name bg_peaks
                    motif_match eq_refl eq_refl eq_refl)).
    reflexivity.
  - apply (proj2 (@X1_late_failures xq xq_arith (An adata) (-1) 10000 true
                    adata bg_peaks motif_match eq_refl eq_refl eq_refl)
             ["motif0"; "motif1"]%string).
    reflexivity.
Defined.

(** The scenario with a chunk size of -5: one chunk of the two cells. *)
Lemma X2_witness :
  (-5 < 0)%Z
  /\ chunk_ranges 2 (-5) = Ok [(0, 2)]
  /\ compute_deviations (An adata) (-1) (-5) false
     = compute_deviations (An adata) (-1) 2 false.
Proof.
  split; [reflexivity|].
  exact (@X2_negative_chunk_size xq xq_arith (An adata) (-1) (-5) false adata
           eq_refl eq_refl).
Defined.

(** The result of the scenario. *)
Lemma X3_witness :
  snd (compute_deviations (An adata) (-1) 10000 false)
  = Ok {| dev_X := Mat 2 [[Fin 0; Fin 0]; [Fin 0; Fin 0]];
          dev_obs_names := ["cell0"; "cell1"]%string;
          dev_var_names := ["motif0"; "motif1"]%string |}
  /\ length ["cell0"; "cell1"]%string = 2
  /\ length ["motif0"; "motif1"]%string = 2.
Proof.
  assert (H : snd (compute_deviations (An adata) (-1) 10000 false)
              = Ok {| dev_X := Mat 2 [[Fin 0; Fin 0]; [Fin 0; Fin 0]];
                      dev_obs_names := ["cell0"; "cell1"]%string;
                      dev_var_names := ["motif0"; "motif1"]%string |})
    by (vm_compute; reflexivity).
  split; [exact H|].
  destruct (OutputClaims.X3_output_container (An adata) (-1) 10000 false H)
    as (_ & Hobs & Hvar & _).
  split; [exact Hobs|exact Hvar].
Defined.

(** The only background sample of the scenario is the identity. *)
Lemma X5_witness :
  column 0%Z 0 (rows bg_peaks) = identity_sample 3
  /\ exists names obs_dev bg_dev,
       snd (accumulate (An adata) 1 false)
       = Ok (adata, names, obs_dev, bg_dev)
       /\ length bg_dev = 1
       /\ nth 0 bg_dev (Mat 0 []) = obs_dev.
Proof.
  split; [reflexivity|].
  exact (@X5_identity_sample_is_observed xq xq_arith (An adata) 1 false adata
           bg_peaks 0 eq_refl eq_refl eq_refl eq_refl (le_n 1) eq_refl).
Defined.

(** No background sample at all. *)
Lemma X7_witness :
  valid_input (An (with_bg Inputs.no_samples)) = true
  /\ ncols Inputs.no_samples = 0
  /\ exists dev,
       snd (compute_deviations (An (with_bg Inputs.no_samples)) (-1) 10000
              false) = Ok dev
       /\ forall i j, i < 2 -> j < 2 ->
            np_mean (fibre (bg_result false (with_bg Inputs.no_samples)
                              motif_match Inputs.no_samples) i j) = NaN
            /\ entry (dev_X dev) i j = Fin 0.
Proof.
  split; [reflexivity|]. split; [reflexivity|].
  exact (@ZeroOutputClaims.X7_no_background_sample_gives_zero
           (An (with_bg Inputs.no_samples)) (-1) 10000 false
           (with_bg Inputs.no_samples) motif_match Inputs.no_samples
           eq_refl eq_refl eq_refl eq_refl eq_refl eq_refl).
Defined.

(** Three cells, the second without any read. *)
Lemma X8_witness :
  valid_input (An Inputs.with_empty_cell) = true
  /\ eq0 (np_sum (nth 1 (rows (todense (X Inputs.with_empty_cell))) []))
     = true
  /\ exists dev,
       snd (compute_deviations (An Inputs.with_empty_cell) (-1) 2 true)
       = Ok dev
       /\ forall j, j < 2 -> entry (dev_X dev) 1 j = Fin 0.
Proof.
  split; [reflexivity|]. split; [reflexivity|].
  exact (@ZeroOutputClaims.X8_cell_without_reads_gives_zero
           (An Inputs.with_empty_cell) (-1) 2 true Inputs.with_empty_cell
           motif_match 1 eq_refl eq_refl eq_refl eq_refl
           (le_S 2 2 (le_n 2)) eq_refl).
Defined.

(** Two cells and three regions without any read. *)
Lemma X9_witness :
  (Qtotal [[0; 0; 0]; [0; 0; 0]] == 0)%Q
  /\ exists (e_cell : list (list xq)) (e_region : list xq),
       compute_expectation
         (Count false (finite 3 [[0; 0; 0]; [0; 0; 0]]%Q)) false
       = (Mat 1 e_cell, Mat 3 [e_region])
       /\ length e_region = 3
       /\ (forall j, j < 3 ->
             nth j e_region (Fin 0)
             = XQ.inf_of (XQ.sign (Qcolsum j [[0; 0; 0]; [0; 0; 0]]%Q))
             /\ forall q, nth j e_region (Fin 0) <> Fin q)
       /\ (Forall (Forall (fun q => (0 <= q)%Q)) [[0; 0; 0]; [0; 0; 0]]%Q ->
             e_region = repeat NaN 3
             /\ e_cell = repeat [Fin 0] 2).
Proof.
  split; [reflexivity|].
  apply (@ExpectationMore.X9_expectation_of_zero_total false false 3
           [[0; 0; 0]; [0; 0; 0]]%Q).
  - repeat constructor.
  - reflexivity.
Defined.

(** The counts of the scenario. *)
Lemma X10_witness :
  exists E : matrix xq,
    matmul (fst (compute_expectation (Count true (finite 3 count_values))
                   true))
           (snd (compute_expectation (Count true (finite 3 count_values))
                   true)) = Some E
    /\ nrows E = 2 /\ ncols E = 3
    /\ (forall i, i < 2 ->
          np_sum (nth i (rows E) []) = XQ.fin (Qsum (nth i count_values [])))
    /\ (forall j, j < 3 ->
          np_sum (column (Fin 0) j (rows E))
          = XQ.fin (Qcolsum j count_values)).
Proof.
  apply (@ExpectationMore.X10_expectation_margins true true 3 count_values).
  - repeat constructor.
  - discriminate.
Defined.

(** The operands of the scenario are non-negative. *)
Lemma X11_witness :
  all_at_least 0 motif_match = true
  /\ all_at_least 0 counts = true
  /\ all_at_least 0 expectation_obs = true
  /\ all_at_least 0 expectation_var = true
  /\ exists D : matrix xq,
       deviations_of false motif_match (Count true counts) expectation_obs
         expectation_var = Ok D
       /\ forall i j, i < 2 -> j < 2 -> at_least (-1) (entry D i j) = true.
Proof.
  split; [reflexivity|]. split; [reflexivity|]. split; [reflexivity|].
  split; [reflexivity|].
  exact (@DeviationBound.X11_deviation_at_least_minus_one false motif_match
           expectation_obs expectation_var (Count true counts)
           eq_refl eq_refl eq_refl eq_refl eq_refl eq_refl eq_refl eq_refl).
Defined.

End MoreWitnesses.
